(** * terraform-module-resolve: the module-graph resolver and the change-impact filter

    A shallow embedding of [main.go].  The program's own functions
    ([isLocalPath], [listTerraformFiles], [analyzeRecursive], [Analyze],
    [isInDirectory], [IsAffected], [FilterRelatedFiles], [CollectAllFiles],
    [readStdin], [main]) are transcribed statement by statement.  The Go
    standard library routines they call ([strings.HasPrefix],
    [strings.HasSuffix], [strings.TrimSpace], [filepath.Clean],
    [filepath.Join], [filepath.Abs], [filepath.Rel]) are transcribed from
    their Unix implementations, index by index, so that every definition can
    be evaluated on concrete paths.  The file system, the working directory
    and the configuration parser ([tfconfig.LoadModule]) are the environment
    [Env] the program runs in; the order in which Go enumerates the map of
    module calls is a parameter [RangeOrder] of a run.  [main] is modelled
    from the return of [flag.Parse] on: the parsed flags and the lines the
    scanner delivers are its input, the exit status and what it writes are
    its result. *)

From Stdlib Require Import Ascii String.
From stdpp Require Import base gmap strings list fin_maps sets sorting.

Set Warnings "-clear-no-such-hyp".

Local Open Scope string_scope.
Local Open Scope nat_scope.
Local Open Scope list_scope.
Local Open Scope stdpp_scope.

(** ** Package [strings] *)
Module GoStrings.

(** [s[i]]; every caller guards its index, out of range reads the zero byte. *)
Definition byteAt (s : string) (i : nat) : ascii :=
  match String.get i s with Some c => c | None => "000"%char end.

(** [s[lo:hi]] *)
Definition slice (s : string) (lo hi : nat) : string :=
  String.substring lo (hi - lo) s.

(** [string(c)] for one byte. *)
Definition ofByte (c : ascii) : string := String c EmptyString.

(** [len(s) >= len(prefix) && s[:len(prefix)] == prefix] *)
Definition HasPrefix (s prefix : string) : bool :=
  (String.length prefix <=? String.length s)
  && String.eqb (slice s 0 (String.length prefix)) prefix.

(** [len(s) >= len(suffix) && s[len(s)-len(suffix):] == suffix] *)
Definition HasSuffix (s suffix : string) : bool :=
  (String.length suffix <=? String.length s)
  && String.eqb
       (slice s (String.length s - String.length suffix) (String.length s))
       suffix.

(** [strings.Count(s, string(c))] for a one-byte separator. *)
Fixpoint CountByte (s : string) (c : ascii) : nat :=
  match s with
  | EmptyString => 0
  | String a s' => (if Ascii.eqb a c then 1 else 0) + CountByte s' c
  end.

(** [strings.Join(elems, sep)] *)
Fixpoint Join (elems : list string) (sep : string) : string :=
  match elems with
  | [] => ""
  | [e] => e
  | e :: rest => e +:+ sep +:+ Join rest sep
  end.

(** [strings.Repeat(s, n)] *)
Fixpoint Repeat (s : string) (n : nat) : string :=
  match n with
  | 0 => ""
  | S n' => s +:+ Repeat s n'
  end.

End GoStrings.

(** ** Package [path/filepath], Unix flavour: no volume names, [Separator]
    is the slash and [sameWord] is equality. *)
Module Filepath.
Import GoStrings.

Definition Separator : ascii := "/"%char.

Definition IsPathSeparator (c : ascii) : bool := Ascii.eqb c Separator.

Definition isDot (c : ascii) : bool := Ascii.eqb c "."%char.

(** The inner loop of the [..] case of [Clean], entered after [out.w--]:
    [for out.w > dotdot && !os.IsPathSeparator(out.index(out.w)) { out.w-- }]. *)
Fixpoint backtrack (fuel : nat) (out : string) (w dotdot : nat) : nat :=
  match fuel with
  | 0 => w
  | S fuel' =>
      if (dotdot <? w) && negb (IsPathSeparator (byteAt out w))
      then backtrack fuel' out (w - 1) dotdot
      else w
  end.

(** [for ; r < n && !os.IsPathSeparator(path[r]); r++ { out.append(path[r]) }] *)
Fixpoint copyElem (fuel : nat) (path : string) (n r : nat) (out : string)
  : nat * string :=
  match fuel with
  | 0 => (r, out)
  | S fuel' =>
      if (r <? n) && negb (IsPathSeparator (byteAt path r))
      then copyElem fuel' path n (r + 1) (out +:+ ofByte (byteAt path r))
      else (r, out)
  end.

(** The main loop [for r < n { switch ... }] of [Clean].  The lazy buffer is
    the string [out]; its write index [out.w] is [String.length out].  Every
    turn advances [r], so [n] turns are enough. *)
Fixpoint cleanLoop (fuel : nat) (path : string) (n : nat) (rooted : bool)
         (r : nat) (out : string) (dotdot : nat) : string :=
  match fuel with
  | 0 => out
  | S fuel' =>
      if negb (r <? n) then out
      else if IsPathSeparator (byteAt path r) then
        (* empty path element *)
        cleanLoop fuel' path n rooted (r + 1) out dotdot
      else if isDot (byteAt path r)
              && ((r + 1 =? n) || IsPathSeparator (byteAt path (r + 1))) then
        (* . element *)
        cleanLoop fuel' path n rooted (r + 1) out dotdot
      else if isDot (byteAt path r) && isDot (byteAt path (r + 1))
              && ((r + 2 =? n) || IsPathSeparator (byteAt path (r + 2))) then
        (* .. element: remove to last separator *)
        let w := String.length out in
        if dotdot <? w then
          (* can backtrack *)
          let w' := backtrack w out (w - 1) dotdot in
          cleanLoop fuel' path n rooted (r + 2) (slice out 0 w') dotdot
        else if negb rooted then
          (* cannot backtrack, but not rooted, so append .. element *)
          let out1 := if 0 <? w then out +:+ ofByte Separator else out in
          let out2 := out1 +:+ ".." in
          cleanLoop fuel' path n rooted (r + 2) out2 (String.length out2)
        else cleanLoop fuel' path n rooted (r + 2) out dotdot
      else
        (* real path element: add slash if needed, copy element *)
        let w := String.length out in
        let out1 :=
          if (rooted && negb (w =? 1)) || (negb rooted && negb (w =? 0))
          then out +:+ ofByte Separator else out in
        let '(r', out2) := copyElem n path n r out1 in
        cleanLoop fuel' path n rooted r' out2 dotdot
  end.

Definition Clean (path : string) : string :=
  if String.eqb path "" then "."
  else
    let rooted := IsPathSeparator (byteAt path 0) in
    let n := String.length path in
    let out :=
      if rooted then cleanLoop n path n rooted 1 (ofByte Separator) 1
      else cleanLoop n path n rooted 0 "" 0 in
    (* Turn empty string into "." *)
    if String.length out =? 0 then "." else out.

(** [filepath.Join(elem...)]: the elements from the first non-empty one on,
    joined by the separator and cleaned; the empty string if there is none. *)
Fixpoint Join (elem : list string) : string :=
  match elem with
  | [] => ""
  | e :: rest =>
      if String.eqb e "" then Join rest
      else Clean (GoStrings.Join elem (ofByte Separator))
  end.

Definition IsAbs (path : string) : bool := HasPrefix path "/".

(** [for i < l && s[i] != Separator { i++ }] *)
Fixpoint scanElem (fuel : nat) (s : string) (l i : nat) : nat :=
  match fuel with
  | 0 => i
  | S fuel' =>
      if (i <? l) && negb (IsPathSeparator (byteAt s i))
      then scanElem fuel' s l (i + 1)
      else i
  end.

(** The loop of [Rel] that positions [base[b0:bi]] and [targ[t0:ti]] at the
    first differing elements.  It goes on while either path has bytes left:
    when [targ] is used up after a common prefix, the next element of [base]
    is still scanned, which is how [Rel] comes to refuse a [base] that
    continues with [..] ([Rel("../..", "..")] is an error).  Every turn
    advances [bi] or [ti], so [bl + tl] turns are enough. *)
Fixpoint relLoop (fuel : nat) (base targ : string) (bl tl b0 bi t0 ti : nat)
  : nat * nat * nat * nat :=
  match fuel with
  | 0 => (b0, bi, t0, ti)
  | S fuel' =>
      if (bi <? bl) || (ti <? tl) then
        let bi1 := scanElem bl base bl bi in
        let ti1 := scanElem tl targ tl ti in
        if negb (String.eqb (slice targ t0 ti1) (slice base b0 bi1))
        then (b0, bi1, t0, ti1)
        else
          let bi2 := if bi1 <? bl then bi1 + 1 else bi1 in
          let ti2 := if ti1 <? tl then ti1 + 1 else ti1 in
          relLoop fuel' base targ bl tl bi2 bi2 ti2 ti2
      else (b0, bi, t0, ti)
  end.

(** [filepath.Rel(basepath, targpath)]; [None] is the error
    "Rel: can't make targpath relative to basepath". *)
Definition Rel (basepath targpath : string) : option string :=
  let base := Clean basepath in
  let targ := Clean targpath in
  if String.eqb targ base then Some "."
  else
    let base := if String.eqb base "." then "" else base in
    let baseSlashed :=
      (0 <? String.length base) && IsPathSeparator (byteAt base 0) in
    let targSlashed :=
      (0 <? String.length targ) && IsPathSeparator (byteAt targ 0) in
    if negb (Bool.eqb baseSlashed targSlashed) then None
    else
      let bl := String.length base in
      let tl := String.length targ in
      let '(b0, bi, t0, ti) := relLoop (S (bl + tl)) base targ bl tl 0 0 0 0 in
      if String.eqb (slice base b0 bi) ".." then None
      else if negb (b0 =? bl) then
        (* Base elements left. Must go up before going down. *)
        let seps := CountByte (slice base b0 bl) Separator in
        let up := ".." +:+ Repeat (ofByte Separator +:+ "..") seps in
        if negb (t0 =? tl)
        then Some (up +:+ ofByte Separator +:+ slice targ t0 tl)
        else Some up
      else Some (slice targ t0 tl).

(** [filepath.Abs(path)], given what [os.Getwd] answers ([None]: it fails). *)
Definition Abs (getwd : option string) (path : string) : option string :=
  if IsAbs path then Some (Clean path)
  else match getwd with
       | None => None
       | Some wd => Some (Join [wd; path])
       end.

End Filepath.

(** ** Package [tfconfig] (terraform-config-inspect): the external parser,
    seen through the part of its interface that [main.go] reads. *)
Module tfconfig.

Record ModuleCall := { Source : string; Version : string }.

(** [Module.ModuleCalls] is a Go map from the call's name to the call. *)
Record Module := { ModuleCalls : gmap string ModuleCall }.

Inductive DiagSeverity := DiagError | DiagWarning.

Record Diagnostic := { Severity : DiagSeverity; Summary : string }.

Definition Diagnostics := list Diagnostic.

Definition HasErrors (diags : Diagnostics) : bool :=
  existsb (fun diag => match Severity diag with
                       | DiagError => true
                       | DiagWarning => false
                       end) diags.

End tfconfig.

#[global] Instance ModuleCall_eq_dec : EqDecision tfconfig.ModuleCall.
Proof. solve_decision. Defined.

(** ** The program's types *)

Record ModuleDetail := {
  Name : string;
  Source : string;
  ResolvedPath : string;
  Files : list string;
}.

Module RemoteModule.
Record t := {
  Name : string;
  Source : string;
  Version : string;
  CalledFrom : string;
}.
End RemoteModule.

Record Output := {
  RootModule : ModuleDetail;
  LocalModules : list ModuleDetail;
  RemoteModules : list RemoteModule.t;
}.

#[global] Instance ModuleDetail_eq_dec : EqDecision ModuleDetail.
Proof. solve_decision. Defined.

#[global] Instance RemoteModule_eq_dec : EqDecision RemoteModule.t.
Proof. solve_decision. Defined.

(** ** The environment of a run *)

(** What an [os.DirEntry] answers to [Name()] and [IsDir()]. *)
Record DirEntry := { EntryName : string; IsDir : bool }.

(** The state of the world while the program runs: it only reads it. *)
Record Env := {
  (** [os.Getwd()]; [None] when it fails. *)
  Getwd : option string;
  (** [os.ReadDir(dir)]; a path that is not a key cannot be listed. *)
  ReadDir : gmap string (list DirEntry);
  (** [tfconfig.LoadModule(dir)] *)
  LoadModule : string -> tfconfig.Module * tfconfig.Diagnostics;
}.

(** The order in which [for name, call := range module.ModuleCalls]
    enumerates the map of the directory [absDir].  Go leaves it unspecified;
    one run of the program is given by one such choice per directory. *)
Definition RangeOrder : Type :=
  string -> gmap string tfconfig.ModuleCall -> list (string * tfconfig.ModuleCall).

(** Every entry of the map is enumerated exactly once. *)
Definition RangeValid (rng : RangeOrder) : Prop :=
  forall absDir calls, rng absDir calls ≡ₚ map_to_list calls.

(** The errors the program builds or passes on. *)
Inductive error :=
| ErrGetwd                              (* os.Getwd failed inside filepath.Abs *)
| ErrReadDir (dir : string)             (* os.ReadDir(dir) failed *)
| ErrorfAbsolutePath (err : error)      (* "failed to get absolute path: %w" *)
| ErrorfListRoot (err : error)          (* "failed to list terraform files in root: %w" *)
| ErrorfLoadModule (absDir : string) (diags : tfconfig.Diagnostics).
                                        (* "failed to load module %s: %s" *)

Inductive result (A : Type) :=
| Ok (a : A)
| Err (err : error).
Arguments Ok {A} a.
Arguments Err {A} err.

(** The lines written to [os.Stderr]. *)
Inductive warning :=
| WarnCannotRead (resolvedPath : string) (err : error)    (* "Warning: cannot read %s: %v" *)
| WarnFailedAnalyze (resolvedPath : string) (err : error). (* "Warning: failed to analyze %s: %v" *)

(** The objects [analyzeRecursive] shares with its callers by reference: the
    [visited] map (only ever set to [true], hence a set), the two result
    slices, and the standard error stream.  [loaded] records, in order, the
    directories handed to [tfconfig.LoadModule]. *)
Record State := {
  visited : gset string;
  localModules : list ModuleDetail;
  remoteModules : list RemoteModule.t;
  stderr : list warning;
  loaded : list string;
}.

Definition initState : State :=
  {| visited := ∅; localModules := []; remoteModules := []; stderr := []; loaded := [] |}.

Definition markVisited (absDir : string) (st : State) : State :=
  {| visited := {[absDir]} ∪ visited st; localModules := localModules st;
     remoteModules := remoteModules st; stderr := stderr st;
     loaded := loaded st |}.

Definition logLoad (absDir : string) (st : State) : State :=
  {| visited := visited st; localModules := localModules st;
     remoteModules := remoteModules st; stderr := stderr st;
     loaded := loaded st ++ [absDir] |}.

Definition appendLocal (m : ModuleDetail) (st : State) : State :=
  {| visited := visited st; localModules := localModules st ++ [m];
     remoteModules := remoteModules st; stderr := stderr st;
     loaded := loaded st |}.

Definition appendRemote (m : RemoteModule.t) (st : State) : State :=
  {| visited := visited st; localModules := localModules st;
     remoteModules := remoteModules st ++ [m]; stderr := stderr st;
     loaded := loaded st |}.

Definition warn (w : warning) (st : State) : State :=
  {| visited := visited st; localModules := localModules st;
     remoteModules := remoteModules st; stderr := stderr st ++ [w];
     loaded := loaded st |}.

(** ** [main.go] *)

Definition isLocalPath (source : string) : bool :=
  GoStrings.HasPrefix source "./" || GoStrings.HasPrefix source "../".

Definition isTerraformFile (entry : DirEntry) : bool :=
  negb (IsDir entry)
  && (GoStrings.HasSuffix (EntryName entry) ".tf"
      || GoStrings.HasSuffix (EntryName entry) ".tf.json").

Definition listTerraformFiles (env : Env) (dir : string) : result (list string) :=
  match ReadDir env !! dir with
  | None => Err (ErrReadDir dir)
  | Some entries =>
      Ok (map (fun entry => Filepath.Join [dir; EntryName entry])
              (filter (fun entry => isTerraformFile entry = true) entries))
  end.

(** [resolvedPath := filepath.Join(absDir, call.Source)] followed by
    [resolvedPath, _ = filepath.Abs(resolvedPath)], whose error is dropped
    (Abs answers the empty string with it). *)
Definition resolveCall (env : Env) (absDir : string) (call : tfconfig.ModuleCall)
  : string :=
  let resolvedPath := Filepath.Join [absDir; tfconfig.Source call] in
  match Filepath.Abs (Getwd env) resolvedPath with
  | Some p => p
  | None => ""
  end.

(** One turn of the loop over the module calls.  [recurse] is the recursive
    call of [analyzeRecursive]; [None] means the recursion budget ran out. *)
Definition processCall
           (recurse : string -> string -> State -> option (option error * State))
           (env : Env) (absDir calledFrom : string)
           (st : State) (entry : string * tfconfig.ModuleCall) : option State :=
  let '(name, call) := entry in
  if isLocalPath (tfconfig.Source call) then
    let resolvedPath := resolveCall env absDir call in
    match listTerraformFiles env resolvedPath with
    | Err err => Some (warn (WarnCannotRead resolvedPath err) st)   (* continue *)
    | Ok files =>
        let st1 :=
          appendLocal {| Name := name; Source := tfconfig.Source call;
                         ResolvedPath := resolvedPath; Files := files |} st in
        match recurse resolvedPath name st1 with
        | None => None
        | Some (Some err, st2) => Some (warn (WarnFailedAnalyze resolvedPath err) st2)
        | Some (None, st2) => Some st2
        end
    end
  else
    let caller := if String.eqb calledFrom "" then "(root)" else calledFrom in
    Some (appendRemote
            {| RemoteModule.Name := name;
               RemoteModule.Source := tfconfig.Source call;
               RemoteModule.Version := tfconfig.Version call;
               RemoteModule.CalledFrom := caller |} st).

(** The [for ... range] loop: the turns in the order of the enumeration. *)
Fixpoint rangeCalls (body : State -> string * tfconfig.ModuleCall -> option State)
         (calls : list (string * tfconfig.ModuleCall)) (st : State) : option State :=
  match calls with
  | [] => Some st
  | entry :: rest =>
      match body st entry with
      | None => None
      | Some st' => rangeCalls body rest st'
      end
  end.

(** [analyzeRecursive]; the result is the returned error ([None] for [nil])
    and the shared state it leaves.  [fuel] bounds the depth of the recursion;
    the outer [None] is an exhausted bound, and [Analyze] passes a bound that
    is never exhausted (see [analyzeRecursive_total]). *)
Fixpoint analyzeRecursive (fuel : nat) (rng : RangeOrder) (env : Env)
         (dir calledFrom : string) (st : State) : option (option error * State) :=
  match fuel with
  | 0 => None
  | S fuel' =>
      match Filepath.Abs (Getwd env) dir with
      | None => Some (Some ErrGetwd, st)
      | Some absDir =>
          if decide (absDir ∈ visited st) then Some (None, st)
          else
            let st := markVisited absDir st in
            let '(module, diags) := LoadModule env absDir in
            let st := logLoad absDir st in
            if tfconfig.HasErrors diags
            then Some (Some (ErrorfLoadModule absDir diags), st)
            else
              match rangeCalls
                      (processCall (analyzeRecursive fuel' rng env) env absDir calledFrom)
                      (rng absDir (tfconfig.ModuleCalls module)) st with
              | None => None
              | Some st' => Some (None, st')
              end
      end
  end.

(** [Analyze], together with the state the traversal leaves behind. *)
Definition AnalyzeIO (rng : RangeOrder) (env : Env) (dir : string)
  : option (result Output * State) :=
  match Filepath.Abs (Getwd env) dir with
  | None => Some (Err (ErrorfAbsolutePath ErrGetwd), initState)
  | Some absDir =>
      match listTerraformFiles env absDir with
      | Err err => Some (Err (ErrorfListRoot err), initState)
      | Ok rootFiles =>
          let rootModule :=
            {| Name := ""; Source := ""; ResolvedPath := absDir; Files := rootFiles |} in
          match analyzeRecursive (S (size (ReadDir env))) rng env absDir "" initState with
          | None => None
          | Some (Some err, st) => Some (Err err, st)
          | Some (None, st) =>
              Some (Ok {| RootModule := rootModule;
                          LocalModules := localModules st;
                          RemoteModules := remoteModules st |}, st)
          end
      end
  end.

Definition Analyze (rng : RangeOrder) (env : Env) (dir : string)
  : option (result Output) :=
  fst <$> AnalyzeIO rng env dir.

Definition isInDirectory (filePath dirPath : string) : bool :=
  match Filepath.Rel dirPath filePath with
  | None => false
  | Some rel =>
      negb (GoStrings.HasPrefix rel (".." +:+ GoStrings.ofByte Filepath.Separator))
      && negb (String.eqb rel "..")
  end.

(** The body shared by [IsAffected] and [FilterRelatedFiles] that makes a
    changed path absolute; both errors are dropped by the program. *)
Definition absChanged (getwd : option string) (f : string) : string :=
  let cwd := match getwd with Some wd => wd | None => "" end in
  let absPath := if Filepath.IsAbs f then f else Filepath.Join [cwd; f] in
  match Filepath.Abs getwd absPath with
  | Some p => p
  | None => ""
  end.

Definition IsAffected (getwd : option string) (changedFiles : list string)
           (output : Output) : bool :=
  existsb
    (fun f =>
       let absPath := absChanged getwd f in
       isInDirectory absPath (ResolvedPath (RootModule output))
       || existsb (fun localMod => isInDirectory absPath (ResolvedPath localMod))
                  (LocalModules output))
    changedFiles.

(** [if !seen[f] { seen[f] = true; result = append(result, f) }] *)
Definition seenStep (acc : list string * gset string) (f : string)
  : list string * gset string :=
  let '(result, seen) := acc in
  if decide (f ∈ seen) then (result, seen) else (result ++ [f], {[f]} ∪ seen).

(** [for _, f := range files { if !seen[f] { ... } }] *)
Definition appendUnseen (files : list string) (acc : list string * gset string)
  : list string * gset string :=
  foldl seenStep acc files.

(** The loop of [FilterRelatedFiles] over the changed paths, for one
    enumeration [changed] of the map [changedAbsPaths]. *)
Definition affectedModulePathsOf (output : Output) (changed : list string)
  : gset string :=
  foldl (fun affected changedPath =>
           let affected :=
             if isInDirectory changedPath (ResolvedPath (RootModule output))
             then {[ResolvedPath (RootModule output)]} ∪ affected
             else affected in
           foldl (fun affected localMod =>
                    if isInDirectory changedPath (ResolvedPath localMod)
                    then {[ResolvedPath localMod]} ∪ affected
                    else affected)
                 affected (LocalModules output))
        ∅ changed.

Definition FilterRelatedFiles (getwd : option string)
           (allFiles changedFiles : list string) (output : Output) : list string :=
  let changedAbsPaths : gset string :=
    foldl (fun paths f => {[absChanged getwd f]} ∪ paths) ∅ changedFiles in
  let affectedModulePaths :=
    affectedModulePathsOf output (elements changedAbsPaths) in
  let acc : list string * gset string := ([], ∅) in
  let acc :=
    if decide (ResolvedPath (RootModule output) ∈ affectedModulePaths)
    then appendUnseen (Files (RootModule output)) acc
    else acc in
  let acc :=
    foldl (fun acc localMod =>
             if decide (ResolvedPath localMod ∈ affectedModulePaths)
             then appendUnseen (Files localMod) acc
             else acc)
          acc (LocalModules output) in
  fst acc.

Definition CollectAllFiles (output : Output) : list string :=
  let acc : list string * gset string := ([], ∅) in
  let acc := appendUnseen (Files (RootModule output)) acc in
  let acc := foldl (fun acc m => appendUnseen (Files m) acc) acc (LocalModules output) in
  fst acc.

(** The invariant of the [seen] loops: the set [seen] holds exactly the
    paths appended to [result] so far. *)
Definition SeenOk (acc : list string * gset string) : Prop :=
  forall x, x ∈ acc.2 <-> x ∈ acc.1.

(** ** [strings.TrimSpace], [readStdin] and [main] *)

(** The two Unicode-aware routines [strings.TrimSpace] falls back on when it
    meets a byte that is not ASCII: [TrimFunc(s, unicode.IsSpace)] and
    [TrimRightFunc(s, unicode.IsSpace)].  They are taken as given. *)
Record UnicodeTrim := {
  TrimFunc_IsSpace : string -> string;
  TrimRightFunc_IsSpace : string -> string;
}.

(** [utf8.RuneSelf] *)
Definition RuneSelf : nat := 128.

(** The table [asciiSpace]: tab, line feed, vertical tab, form feed,
    carriage return and space. *)
Definition asciiSpace (c : ascii) : bool :=
  existsb (Ascii.eqb c) ["009"; "010"; "011"; "012"; "013"; " "]%char.

(** How a scan of [TrimSpace] ends: at an index, or on a byte that is not ASCII. *)
Inductive scan :=
| Stopped (i : nat)
| NonASCII (i : nat).

(** [for ; start < len(s); start++ { ... }]: look for the first ASCII
    non-space byte. *)
Fixpoint scanStart (fuel : nat) (s : string) (start : nat) : scan :=
  match fuel with
  | 0 => Stopped start
  | S fuel' =>
      if start <? String.length s then
        let c := GoStrings.byteAt s start in
        if RuneSelf <=? nat_of_ascii c then NonASCII start
        else if negb (asciiSpace c) then Stopped start
        else scanStart fuel' s (start + 1)
      else Stopped start
  end.

(** [for ; stop > start; stop-- { ... }]: look for the first ASCII non-space
    byte from the end. *)
Fixpoint scanStop (fuel : nat) (s : string) (start stop : nat) : scan :=
  match fuel with
  | 0 => Stopped stop
  | S fuel' =>
      if start <? stop then
        let c := GoStrings.byteAt s (stop - 1) in
        if RuneSelf <=? nat_of_ascii c then NonASCII stop
        else if negb (asciiSpace c) then Stopped stop
        else scanStop fuel' s start (stop - 1)
      else Stopped stop
  end.

Definition TrimSpace (u : UnicodeTrim) (s : string) : string :=
  match scanStart (String.length s) s 0 with
  | NonASCII start => TrimFunc_IsSpace u (GoStrings.slice s start (String.length s))
  | Stopped start =>
      match scanStop (String.length s) s start (String.length s) with
      | NonASCII stop => TrimRightFunc_IsSpace u (GoStrings.slice s start stop)
      | Stopped stop => GoStrings.slice s start stop
      end
  end.

(** The standard input as the [bufio.Scanner] delivers it: the text of each
    successful [Scan], and what [scanner.Err()] answers afterwards. *)
Inductive stdinError := ErrScanner (message : string).

Record Stdin := {
  Lines : list string;
  ScanErr : option stdinError;
}.

Definition readStdin (u : UnicodeTrim) (stdin : Stdin) : list string * option stdinError :=
  (foldl (fun lines text =>
            let line := TrimSpace u text in
            if String.eqb line "" then lines else lines ++ [line])
         [] (Lines stdin),
   ScanErr stdin).

(** The command line after [flag.Parse]: the three flags and the positional
    arguments. *)
Record Flags := {
  FilesOnly : bool;
  FilterStdin : bool;
  Affected : bool;
  Args : list string;
}.

Definition exitAffected : nat := 0.
Definition exitNotAffected : nat := 1.
Definition exitError : nat := 2.

(** What [main] writes: a file path or the JSON rendering of the result on
    the standard output; the usage text, an error or a warning on the
    standard error. *)
Inductive stdoutLine :=
| PrintFile (f : string)
| PrintJSON (output : Output).

Inductive stderrLine :=
| PrintUsage
| PrintError (err : error)              (* "Error: %v" *)
| PrintStdinError (err : stdinError)    (* "Error reading stdin: %v" *)
| PrintWarning (w : warning).

(** One run of the program: the exit status and what was written. *)
Record Run := {
  ExitCode : nat;
  Stdout : list stdoutLine;
  Stderr : list stderrLine;
}.

(** [main], from the point where [flag.Parse] has returned.  [None] only if
    the traversal bound were exhausted, which it never is. *)
Definition main (rng : RangeOrder) (env : Env) (u : UnicodeTrim)
           (flags : Flags) (stdin : Stdin) : option Run :=
  match Args flags with
  | [] => Some {| ExitCode := exitError; Stdout := []; Stderr := [PrintUsage] |}
  | dir :: _ =>
      match AnalyzeIO rng env dir with
      | None => None
      | Some (Err err, st) =>
          Some {| ExitCode := exitError; Stdout := [];
                  Stderr := map PrintWarning (stderr st) ++ [PrintError err] |}
      | Some (Ok output, st) =>
          let warnings := map PrintWarning (stderr st) in
          if Affected flags then
            match readStdin u stdin with
            | (_, Some err) =>
                Some {| ExitCode := exitError; Stdout := [];
                        Stderr := warnings ++ [PrintStdinError err] |}
            | (changedFiles, None) =>
                if IsAffected (Getwd env) changedFiles output
                then Some {| ExitCode := exitAffected; Stdout := []; Stderr := warnings |}
                else Some {| ExitCode := exitNotAffected; Stdout := []; Stderr := warnings |}
            end
          else if FilesOnly flags then
            let files := CollectAllFiles output in
            if FilterStdin flags then
              match readStdin u stdin with
              | (_, Some err) =>
                  Some {| ExitCode := exitError; Stdout := [];
                          Stderr := warnings ++ [PrintStdinError err] |}
              | (changedFiles, None) =>
                  Some {| ExitCode := 0;
                          Stdout := map PrintFile
                                        (FilterRelatedFiles (Getwd env) files changedFiles output);
                          Stderr := warnings |}
              end
            else Some {| ExitCode := 0; Stdout := map PrintFile files; Stderr := warnings |}
          else Some {| ExitCode := 0; Stdout := [PrintJSON output]; Stderr := warnings |}
      end
  end.

(** A text all of whose bytes are below [utf8.RuneSelf], and a text made
    only of the six ASCII space bytes. *)
Definition isASCII (s : string) : bool :=
  forallb (fun c => nat_of_ascii c <? RuneSelf) (list_ascii_of_string s).

Definition allSpace (s : string) : bool :=
  forallb asciiSpace (list_ascii_of_string s).

Definition firstByte (s : string) : ascii := GoStrings.byteAt s 0.
Definition lastByte (s : string) : ascii := GoStrings.byteAt s (String.length s - 1).

(** The combinations of flags under which [main] calls [readStdin]. *)
Definition readsStdin (flags : Flags) : bool :=
  Affected flags || (FilesOnly flags && FilterStdin flags).

(** ** Paths as sequences of elements *)

(** The elements of a path: the texts between its separators. *)
Fixpoint pathElements (s : string) : list string :=
  match s with
  | EmptyString => [""]
  | String c s' =>
      if Filepath.IsPathSeparator c then "" :: pathElements s'
      else match pathElements s' with
           | e :: es => String c e :: es
           | [] => [String c ""]
           end
  end.

(** A text without separator. *)
Fixpoint sepFree (e : string) : bool :=
  match e with
  | EmptyString => true
  | String c e' => negb (Filepath.IsPathSeparator c) && sepFree e'
  end.

(** A name: not empty, neither [.] nor [..], and without separator. *)
Definition isElement (e : string) : bool :=
  negb (String.eqb e "") && negb (String.eqb e ".") && negb (String.eqb e "..")
  && sepFree e.

(** What an absolute path means, element by element: an empty element and
    [.] stay where they are, [..] goes back to the parent (the root is its
    own parent), a name goes down. *)
Definition resolveStep (names : list string) (e : string) : list string :=
  if String.eqb e "" then names
  else if String.eqb e "." then names
  else if String.eqb e ".." then removelast names
  else names ++ [e].

(** The names from the root down to the place an absolute path denotes. *)
Definition namesOf (path : string) : list string :=
  foldl resolveStep [] (pathElements path).

(** The absolute path made of the given names. *)
Definition rootedPath (names : list string) : string :=
  "/" +:+ GoStrings.Join names "/".

(** The first element of a text and what follows it. *)
Fixpoint firstElem (s : string) : string :=
  match s with
  | EmptyString => ""
  | String c s' => if Filepath.IsPathSeparator c then "" else String c (firstElem s')
  end.

Fixpoint afterElem (s : string) : string :=
  match s with
  | EmptyString => ""
  | String c s' => if Filepath.IsPathSeparator c then s else afterElem s'
  end.

(** The end of a text or a separator: where an element stops. *)
Definition Boundary (s : string) : Prop :=
  s = "" \/ exists t, s = String "/" t.

(** What follows the first of several joined names, and the separator that
    follows a name when more names follow. *)
Definition joinTail (names : list string) : string :=
  match names with
  | [] => ""
  | _ => "/" +:+ GoStrings.Join names "/"
  end.

Definition sepIf (names : list string) : string :=
  match names with
  | [] => ""
  | _ => "/"
  end.

(** ** Notions used to state what the traversal does *)

(** The keys under which the traversal can mark a listable directory:
    the absolute forms of the directories [os.ReadDir] can list. *)
Definition canonicalDirs (env : Env) : gset string :=
  list_to_set (omap (Filepath.Abs (Getwd env)) (elements (dom (ReadDir env)))).

(** The record the loop appends for one module call of the directory
    [absDir], if it appends one: the call is local and its directory can be
    listed. *)
Definition callRecord (env : Env) (absDir : string)
           (entry : string * tfconfig.ModuleCall) : option ModuleDetail :=
  if isLocalPath (tfconfig.Source entry.2) then
    match listTerraformFiles env (resolveCall env absDir entry.2) with
    | Ok files =>
        Some {| Name := entry.1; Source := tfconfig.Source entry.2;
                ResolvedPath := resolveCall env absDir entry.2; Files := files |}
    | Err _ => None
    end
  else None.

(** The records of all the calls of a loaded directory, in the order of its
    enumeration; none when its configuration has errors. *)
Definition callRecords (rng : RangeOrder) (env : Env) (absDir : string)
  : list ModuleDetail :=
  if tfconfig.HasErrors (LoadModule env absDir).2 then []
  else omap (callRecord env absDir)
            (rng absDir (tfconfig.ModuleCalls (LoadModule env absDir).1)).

(** A path that [filepath.Abs] leaves as it is. *)
Definition Canonical (env : Env) (d : string) : Prop :=
  Filepath.Abs (Getwd env) d = Some d.

(** The configuration of [absDir] declares the local call [name], which
    resolves to [target], and no other local call (it may declare remote ones). *)
Definition OnlyLocalCall (env : Env) (absDir name : string)
           (call : tfconfig.ModuleCall) (target : string) : Prop :=
  tfconfig.ModuleCalls (LoadModule env absDir).1 !! name = Some call
  /\ isLocalPath (tfconfig.Source call) = true
  /\ resolveCall env absDir call = target
  /\ forall n c, tfconfig.ModuleCalls (LoadModule env absDir).1 !! n = Some c ->
                 isLocalPath (tfconfig.Source c) = true -> n = name.

(** The visited set and the log of loaded directories tell the same story. *)
Definition Consistent (st : State) : Prop :=
  NoDup (loaded st) /\ forall d, d ∈ visited st <-> d ∈ loaded st.

(** What a part of the traversal adds to the log of loaded directories and
    to [localModules]: the records of the calls of the directories it loads,
    each directory's records in the order of its enumeration. *)
Definition Adds (rng : RangeOrder) (env : Env) (st st' : State)
           (newLoaded : list string) (newRecords : list ModuleDetail) : Prop :=
  loaded st' = loaded st ++ newLoaded
  /\ localModules st' = localModules st ++ newRecords
  /\ newRecords ≡ₚ concat (map (callRecords rng env) newLoaded)
  /\ forall d, d ∈ newLoaded -> callRecords rng env d `sublist_of` newRecords.

(** The modules of a result, the root first. *)
Definition modulesOf (output : Output) : list ModuleDetail :=
  RootModule output :: LocalModules output.

(** Some changed path, made absolute, is [isInDirectory] of the module's path. *)
Definition changedUnder (getwd : option string) (changedFiles : list string)
           (m : ModuleDetail) : Prop :=
  Exists (fun c => isInDirectory (absChanged getwd c) (ResolvedPath m) = true)
         changedFiles.

(** The reference the loop appends for a remote call [entry] met while
    analysing on behalf of [calledFrom]. *)
Definition remoteReference (calledFrom : string)
           (entry : string * tfconfig.ModuleCall) : RemoteModule.t :=
  {| RemoteModule.Name := entry.1;
     RemoteModule.Source := tfconfig.Source entry.2;
     RemoteModule.Version := tfconfig.Version entry.2;
     RemoteModule.CalledFrom :=
       if String.eqb calledFrom "" then "(root)" else calledFrom |}.

(** The caller label of a traversal step is empty (the root) or the name of
    a record already appended. *)
Definition CallerKnown (calledFrom : string) (st : State) : Prop :=
  calledFrom = "" \/ exists m, m ∈ localModules st /\ Name m = calledFrom.

(** Every remote reference has a source that is not local and a caller
    label that is never empty: [(root)] or the name of a local record. *)
Definition RemotesOk (st : State) : Prop :=
  forall r, r ∈ remoteModules st ->
            isLocalPath (RemoteModule.Source r) = false
            /\ RemoteModule.CalledFrom r ≠ ""
            /\ (RemoteModule.CalledFrom r = "(root)"
                \/ exists m, m ∈ localModules st /\ Name m = RemoteModule.CalledFrom r).

(** ** What the traversal leaves behind *)

(** What the loop leaves behind for one call of the directory [absDir]: a
    remote reference; or a warning that the call's directory cannot be read;
    or the call's record, together with the call's directory among the
    loaded ones (a warning, when its path cannot be made absolute). *)
Definition CallDone (env : Env) (st : State) (absDir : string)
           (entry : string * tfconfig.ModuleCall) : Prop :=
  if isLocalPath (tfconfig.Source entry.2) then
    match listTerraformFiles env (resolveCall env absDir entry.2) with
    | Err err =>
        WarnCannotRead (resolveCall env absDir entry.2) err ∈ stderr st
    | Ok files =>
        {| Name := entry.1; Source := tfconfig.Source entry.2;
           ResolvedPath := resolveCall env absDir entry.2; Files := files |}
          ∈ localModules st
        /\ match Filepath.Abs (Getwd env) (resolveCall env absDir entry.2) with
           | Some d => d ∈ loaded st
           | None =>
               WarnFailedAnalyze (resolveCall env absDir entry.2) ErrGetwd ∈ stderr st
           end
    end
  else
    exists r, r ∈ remoteModules st
              /\ RemoteModule.Name r = entry.1
              /\ RemoteModule.Source r = tfconfig.Source entry.2
              /\ RemoteModule.Version r = tfconfig.Version entry.2.

(** The failure to parse the directory [d] has been written as a warning by
    the loop of a directory that calls it. *)
Definition FailureWarned (env : Env) (st : State) (d : string) : Prop :=
  exists p, Filepath.Abs (Getwd env) p = Some d
            /\ WarnFailedAnalyze p (ErrorfLoadModule d (LoadModule env d).2) ∈ stderr st.

(** The directory [d] is dealt with: its failure to parse is written as a
    warning, or every one of its calls is done. *)
Definition DirSettled (rng : RangeOrder) (env : Env) (st : State) (d : string) : Prop :=
  if tfconfig.HasErrors (LoadModule env d).2
  then FailureWarned env st d
  else forall entry,
      entry ∈ rng d (tfconfig.ModuleCalls (LoadModule env d).1) ->
      CallDone env st d entry.

(** Every loaded directory, those still [pending] apart, is dealt with. *)
Definition Settled (rng : RangeOrder) (env : Env) (pending : gset string)
           (st : State) : Prop :=
  forall d, d ∈ loaded st -> d ∉ pending -> DirSettled rng env st d.

(** Nothing is taken back from the shared state. *)
Definition Grows (st st' : State) : Prop :=
  (forall d, d ∈ loaded st -> d ∈ loaded st')
  /\ (forall m, m ∈ localModules st -> m ∈ localModules st')
  /\ (forall r, r ∈ remoteModules st -> r ∈ remoteModules st')
  /\ (forall w, w ∈ stderr st -> w ∈ stderr st').

(** What the caller makes of the result of a recursive call. *)
Definition settle (dir : string) (r : option error) (st : State) : State :=
  match r with
  | Some err => warn (WarnFailedAnalyze dir err) st
  | None => st
  end.







(** ** Concrete environments *)

Definition tfFile (name : string) : DirEntry := {| EntryName := name; IsDir := false |}.
Definition subDir (name : string) : DirEntry := {| EntryName := name; IsDir := true |}.

Definition localCall (source : string) : tfconfig.ModuleCall :=
  {| tfconfig.Source := source; tfconfig.Version := "" |}.

Definition parsedOk (calls : gmap string tfconfig.ModuleCall)
  : tfconfig.Module * tfconfig.Diagnostics :=
  ({| tfconfig.ModuleCalls := calls |}, []).

Definition parseFailure (summary : string) : tfconfig.Module * tfconfig.Diagnostics :=
  ({| tfconfig.ModuleCalls := ∅ |},
   [{| tfconfig.Severity := tfconfig.DiagError; tfconfig.Summary := summary |}]).

(** A parser given by a table; a directory outside the table cannot be read. *)
Definition loadFrom (table : gmap string (tfconfig.Module * tfconfig.Diagnostics))
  : string -> tfconfig.Module * tfconfig.Diagnostics :=
  fun dir => match table !! dir with
             | Some r => r
             | None => parseFailure "Failed to read module directory"
             end.

(** The enumeration in the order of the map's own listing, and its reverse. *)
Definition mapOrder : RangeOrder := fun _ calls => map_to_list calls.
Definition reverseOrder : RangeOrder := fun _ calls => reverse (map_to_list calls).

(** The enumeration by decreasing name. *)
Definition descendingOrder : RangeOrder :=
  fun _ calls =>
    merge_sort (fun e1 e2 : string * tfconfig.ModuleCall => Is_true (String.leb e2.1 e1.1))
               (map_to_list calls).

(** A root whose two submodules both call the same third module. *)
Definition diamondEnv : Env :=
  {| Getwd := Some "/r";
     ReadDir :=
       {[ "/r" := [tfFile "main.tf"; subDir "x"; subDir "y"; subDir "common"];
          "/r/x" := [tfFile "main.tf"];
          "/r/y" := [tfFile "main.tf"];
          "/r/common" := [tfFile "main.tf"; tfFile "README.md"] ]};
     LoadModule :=
       loadFrom
         {[ "/r" := parsedOk {[ "x" := localCall "./x"; "y" := localCall "./y" ]};
            "/r/x" := parsedOk {[ "shared" := localCall "../common" ]};
            "/r/y" := parsedOk {[ "common" := localCall "../common" ]};
            "/r/common" :=
              parsedOk {[ "net" := {| tfconfig.Source := "terraform-aws-modules/vpc/aws";
                                      tfconfig.Version := "~> 5.0" |} ]} ]} |}.

(** Two modules that call each other (the repository's circular test). *)
Definition cycleEnv : Env :=
  {| Getwd := Some "/t";
     ReadDir :=
       {[ "/t/module_a" := [tfFile "main.tf"];
          "/t/module_b" := [tfFile "main.tf"] ]};
     LoadModule :=
       loadFrom
         {[ "/t/module_a" := parsedOk {[ "b" := localCall "../module_b" ]};
            "/t/module_b" := parsedOk {[ "a" := localCall "../module_a" ]} ]} |}.

(** A root with one submodule that does not parse, one that cannot be
    listed, and one that is fine. *)
Definition faultyEnv : Env :=
  {| Getwd := Some "/p";
     ReadDir :=
       {[ "/p" := [tfFile "main.tf"; tfFile "notes.txt"; subDir "bad"; subDir "good"];
          "/p/bad" := [tfFile "broken.tf"];
          "/p/good" := [tfFile "main.tf"; tfFile "vars.tf.json"] ]};
     LoadModule :=
       loadFrom
         {[ "/p" := parsedOk {[ "bad" := localCall "./bad";
                                "gone" := localCall "./gone";
                                "good" := localCall "./good" ]};
            "/p/bad" := parseFailure "Invalid block definition";
            "/p/good" := parsedOk ∅ ]} |}.

(** A world in which no directory can be listed although every directory
    parses without diagnostics. *)
Definition unlistableEnv : Env :=
  {| Getwd := Some "/w";
     ReadDir := ∅;
     LoadModule := fun _ => parsedOk ∅ |}.

(** A root that declares registry and git modules only. *)
Definition remoteOnlyEnv : Env :=
  {| Getwd := Some "/srv";
     ReadDir := {[ "/srv/app" := [tfFile "main.tf"; tfFile "versions.tf"] ]};
     LoadModule :=
       loadFrom
         {[ "/srv/app" :=
              parsedOk {[ "eks" := {| tfconfig.Source := "terraform-aws-modules/eks/aws";
                                      tfconfig.Version := "~> 19.0" |};
                          "net" := {| tfconfig.Source := "git::https://example.com/net.git";
                                      tfconfig.Version := "" |} ]} ]} |}.

(** A stand-in for the Unicode routines that leaves the text as it is, and
    sample runs of the program on ASCII input. *)
Definition rawTrim : UnicodeTrim :=
  {| TrimFunc_IsSpace := fun s => s; TrimRightFunc_IsSpace := fun s => s |}.

Definition jsonFlags (dir : string) : Flags :=
  {| FilesOnly := false; FilterStdin := true; Affected := false; Args := [dir] |}.

Definition listingFlags (dir : string) : Flags :=
  {| FilesOnly := true; FilterStdin := true; Affected := false; Args := [dir] |}.

Definition affectedFlags (dir : string) : Flags :=
  {| FilesOnly := false; FilterStdin := false; Affected := true; Args := [dir] |}.

Definition vpcChange : Stdin :=
  {| Lines := ["  modules/vpc/main.tf "; ""; "README.md"]; ScanErr := None |}.

(** The directory trees of the repository's own tests ([main_test.go]). *)
Definition analyzeTestEnv : Env :=
  {| Getwd := Some "/tmp/t";
     ReadDir :=
       {[ "/tmp/t/root" := [tfFile "main.tf"];
          "/tmp/t/modules/vpc" := [tfFile "main.tf"; subDir "subnets"; tfFile "variables.tf"];
          "/tmp/t/modules/vpc/subnets" := [tfFile "main.tf"] ]};
     LoadModule :=
       loadFrom
         {[ "/tmp/t/root" :=
              parsedOk {[ "vpc" := localCall "../modules/vpc";
                          "eks" := {| tfconfig.Source := "terraform-aws-modules/eks/aws";
                                      tfconfig.Version := "~> 19.0" |} ]};
            "/tmp/t/modules/vpc" := parsedOk {[ "subnets" := localCall "./subnets" ]};
            "/tmp/t/modules/vpc/subnets" := parsedOk ∅ ]} |}.

Definition emptyDirEnv : Env :=
  {| Getwd := Some "/tmp";
     ReadDir := {[ "/tmp/empty" := [] ]};
     LoadModule := loadFrom {[ "/tmp/empty" := parsedOk ∅ ]} |}.

Definition listTestEnv : Env :=
  {| Getwd := Some "/tmp";
     ReadDir := {[ "/tmp/l" := [tfFile "main.tf"; tfFile "outputs.tf.json";
                                tfFile "readme.md"; tfFile "script.sh";
                                tfFile "variables.tf"; subDir "modules.tf"] ]};
     LoadModule := loadFrom ∅ |}.

Definition filterTestEnv : Env :=
  {| Getwd := Some "/t";
     ReadDir :=
       {[ "/t/root" := [tfFile "main.tf"];
          "/t/modules/vpc" := [tfFile "main.tf"; tfFile "variables.tf"];
          "/t/modules/iam" := [tfFile "main.tf"] ]};
     LoadModule :=
       loadFrom
         {[ "/t/root" := parsedOk {[ "vpc" := localCall "../modules/vpc";
                                     "iam" := localCall "../modules/iam" ]};
            "/t/modules/vpc" := parsedOk ∅;
            "/t/modules/iam" := parsedOk ∅ ]} |}.

(** The result of the repository's filter test: a root beside two modules. *)
Definition vpcModule : ModuleDetail :=
  {| Name := "vpc"; Source := "../modules/vpc"; ResolvedPath := "/t/modules/vpc";
     Files := ["/t/modules/vpc/main.tf"; "/t/modules/vpc/variables.tf"] |}.

Definition iamModule : ModuleDetail :=
  {| Name := "iam"; Source := "../modules/iam"; ResolvedPath := "/t/modules/iam";
     Files := ["/t/modules/iam/main.tf"] |}.

Definition filterOutput : Output :=
  {| RootModule := {| Name := ""; Source := ""; ResolvedPath := "/t/root";
                      Files := ["/t/root/main.tf"] |};
     LocalModules := [vpcModule; iamModule];
     RemoteModules := [] |}.

(** ** What the specification calls "duplicates removed, first occurrence kept" *)

(** The first element stays, and every later copy of it is struck out of
    what follows. *)
Fixpoint keepFirst (l : list string) : list string :=
  match l with
  | [] => []
  | x :: l' => x :: filter (fun y => y ≠ x) (keepFirst l')
  end.

(** Root files first, then each local module's files in [LocalModules] order. *)
Definition filesInOrder (output : Output) : list string :=
  Files (RootModule output) ++ concat (map Files (LocalModules output)).

(** * Strings and paths *)

Section StringFacts.
Import GoStrings.

Lemma substring_0_0 (s : string) : String.substring 0 0 s = "".
Proof. by destruct s. Qed.

Lemma HasPrefix_cons (a b : ascii) (s p : string) :
  HasPrefix (String b s) (String a p) = Ascii.eqb b a && HasPrefix s p.
Proof.
  unfold HasPrefix, slice. cbn [String.length String.substring].
  rewrite !Nat.sub_0_r. cbn [String.substring String.eqb].
  change (S (String.length p) <=? S (String.length s))
    with (String.length p <=? String.length s).
  destruct (Ascii.eqb b a), (String.length p <=? String.length s); reflexivity.
Qed.

(** [strings.HasPrefix] holds exactly of the strings that start with the prefix. *)
Lemma HasPrefix_iff (s p : string) :
  HasPrefix s p = true <-> exists rest, s = p +:+ rest.
Proof.
  revert s. induction p as [|a p IH]; intros s.
  - unfold HasPrefix, slice. cbn. rewrite substring_0_0. cbn. split; eauto.
  - destruct s as [|b s].
    + split; [discriminate | intros [rest H]; discriminate].
    + rewrite HasPrefix_cons, andb_true_iff, IH. split.
      * intros [Hb [rest ->]]. apply Ascii.eqb_eq in Hb as ->. by exists rest.
      * intros [rest H]. cbn in H. injection H as -> ->.
        split; [apply Ascii.eqb_refl | by exists rest].
Qed.

Lemma Rel_self (d : string) : Filepath.Rel d d = Some ".".
Proof. unfold Filepath.Rel. by rewrite String.eqb_refl. Qed.

End StringFacts.

(** The loops of [filepath.Clean] and [filepath.Rel] are transcribed with a
    bound on their number of turns.  The bounds passed by [Clean] and [Rel]
    are never exhausted: from the bound passed on, the result no longer
    depends on the bound. *)
Section LoopBounds.
Import Filepath.

Lemma backtrack_bound (out : string) (dotdot : nat) (fuel1 fuel2 w : nat) :
  w <= fuel1 -> w <= fuel2 ->
  backtrack fuel1 out w dotdot = backtrack fuel2 out w dotdot.
Proof.
  revert fuel2 w. induction fuel1 as [|fuel1 IH]; intros fuel2 w H1 H2.
  - assert (w = 0) as -> by lia. destruct fuel2; reflexivity.
  - destruct fuel2 as [|fuel2].
    + assert (w = 0) as -> by lia. reflexivity.
    + cbn [backtrack]. destruct (dotdot <? w) eqn:Hlt; [|done]. apply Nat.ltb_lt in Hlt.
      destruct (negb _); [|done]. cbn [andb]. apply IH; lia.
Qed.

Lemma copyElem_bound (path : string) (n : nat) (fuel1 fuel2 r : nat) (out : string) :
  n - r <= fuel1 -> n - r <= fuel2 ->
  copyElem fuel1 path n r out = copyElem fuel2 path n r out.
Proof.
  revert fuel2 r out. induction fuel1 as [|fuel1 IH]; intros fuel2 r out H1 H2.
  - destruct fuel2; [done|]. cbn [copyElem].
    by replace (r <? n) with false by (symmetry; apply Nat.ltb_ge; lia).
  - destruct fuel2 as [|fuel2].
    + cbn [copyElem]. by replace (r <? n) with false by (symmetry; apply Nat.ltb_ge; lia).
    + cbn [copyElem]. destruct (r <? n) eqn:Hlt; [|done]. apply Nat.ltb_lt in Hlt.
      destruct (negb _); [|done]. cbn [andb]. apply IH; lia.
Qed.

(** Copying an element that starts inside the path moves the read index on,
    and never past the end. *)
Lemma copyElem_progress (path : string) (n : nat) (fuel r : nat) (out : string) :
  r <= (copyElem fuel path n r out).1
  /\ (r <= n -> (copyElem fuel path n r out).1 <= n)
  /\ (0 < fuel -> r < n -> IsPathSeparator (GoStrings.byteAt path r) = false ->
      r < (copyElem fuel path n r out).1).
Proof.
  revert r out. induction fuel as [|fuel IH]; intros r out; cbn [copyElem fst];
    [repeat split; lia|].
  destruct (r <? n) eqn:Hlt; cbn [andb].
  - apply Nat.ltb_lt in Hlt.
    destruct (IsPathSeparator (GoStrings.byteAt path r)) eqn:Hsep; cbn [negb].
    + cbn [fst]. repeat split; (lia || done).
    + destruct (IH (r + 1) (out +:+ GoStrings.ofByte (GoStrings.byteAt path r)))
        as (Hle & Hend & _).
      repeat split; intros; lia.
  - apply Nat.ltb_ge in Hlt. cbn [fst]. repeat split; intros; lia.
Qed.

Lemma cleanLoop_bound (path : string) (n : nat) (rooted : bool)
      (fuel1 fuel2 r : nat) (out : string) (dotdot : nat) :
  n - r <= fuel1 -> n - r <= fuel2 ->
  cleanLoop fuel1 path n rooted r out dotdot = cleanLoop fuel2 path n rooted r out dotdot.
Proof.
  revert fuel2 r out dotdot.
  induction fuel1 as [|fuel1 IH]; intros fuel2 r out dotdot H1 H2.
  - destruct fuel2; [done|]. cbn [cleanLoop].
    by replace (r <? n) with false by (symmetry; apply Nat.ltb_ge; lia).
  - destruct fuel2 as [|fuel2].
    + cbn [cleanLoop].
      by replace (r <? n) with false by (symmetry; apply Nat.ltb_ge; lia).
    + cbn [cleanLoop]. destruct (r <? n) eqn:Hlt; [|done]. apply Nat.ltb_lt in Hlt.
      cbn [negb].
      destruct (IsPathSeparator (GoStrings.byteAt path r)) eqn:Hsep; [apply IH; lia|].
      destruct (isDot (GoStrings.byteAt path r)
                && ((r + 1 =? n) || IsPathSeparator (GoStrings.byteAt path (r + 1))));
        [apply IH; lia|].
      destruct (isDot (GoStrings.byteAt path r) && isDot (GoStrings.byteAt path (r + 1))
                && ((r + 2 =? n) || IsPathSeparator (GoStrings.byteAt path (r + 2)))).
      * destruct (dotdot <? String.length out); [apply IH; lia|].
        destruct (negb rooted); apply IH; lia.
      * match goal with
        | |- context [copyElem n path n r ?o] =>
            pose proof (copyElem_progress path n n r o) as (_ & _ & Hmove);
            destruct (copyElem n path n r o) as [r' out2]
        end.
        cbn [fst] in Hmove. specialize (Hmove ltac:(lia) Hlt Hsep).
        apply IH; lia.
Qed.

Lemma scanElem_bound (s : string) (l : nat) (fuel1 fuel2 i : nat) :
  l - i <= fuel1 -> l - i <= fuel2 ->
  scanElem fuel1 s l i = scanElem fuel2 s l i.
Proof.
  revert fuel2 i. induction fuel1 as [|fuel1 IH]; intros fuel2 i H1 H2.
  - destruct fuel2; [done|]. cbn [scanElem].
    by replace (i <? l) with false by (symmetry; apply Nat.ltb_ge; lia).
  - destruct fuel2 as [|fuel2].
    + cbn [scanElem]. by replace (i <? l) with false by (symmetry; apply Nat.ltb_ge; lia).
    + cbn [scanElem]. destruct (i <? l) eqn:Hlt; [|done]. apply Nat.ltb_lt in Hlt.
      destruct (negb _); [|done]. cbn [andb]. apply IH; lia.
Qed.

Lemma scanElem_ge (s : string) (l : nat) (fuel i : nat) : i <= scanElem fuel s l i.
Proof.
  revert i. induction fuel as [|fuel IH]; intros i; cbn [scanElem]; [lia|].
  destruct ((i <? l) && negb _); [|lia]. specialize (IH (i + 1)). lia.
Qed.

Lemma scanElem_le (s : string) (l : nat) (fuel i : nat) :
  i <= l -> scanElem fuel s l i <= l.
Proof.
  revert i. induction fuel as [|fuel IH]; intros i Hi; cbn [scanElem]; [done|].
  destruct (i <? l) eqn:Hlt; [|done]. apply Nat.ltb_lt in Hlt.
  destruct (negb _); [|done]. cbn [andb]. apply IH. lia.
Qed.

Lemma relLoop_bound (base targ : string) (bl tl : nat)
      (fuel1 fuel2 b0 bi t0 ti : nat) :
  bi <= bl -> ti <= tl ->
  (bl - bi) + (tl - ti) <= fuel1 -> (bl - bi) + (tl - ti) <= fuel2 ->
  relLoop fuel1 base targ bl tl b0 bi t0 ti = relLoop fuel2 base targ bl tl b0 bi t0 ti.
Proof.
  revert fuel2 b0 bi t0 ti.
  induction fuel1 as [|fuel1 IH]; intros fuel2 b0 bi t0 ti Hbi Hti H1 H2.
  - destruct fuel2; [done|]. cbn [relLoop].
    replace (bi <? bl) with false by (symmetry; apply Nat.ltb_ge; lia).
    by replace (ti <? tl) with false by (symmetry; apply Nat.ltb_ge; lia).
  - destruct fuel2 as [|fuel2].
    + cbn [relLoop].
      replace (bi <? bl) with false by (symmetry; apply Nat.ltb_ge; lia).
      by replace (ti <? tl) with false by (symmetry; apply Nat.ltb_ge; lia).
    + cbn [relLoop]. cbv zeta. destruct ((bi <? bl) || (ti <? tl)) eqn:Hgo; [|done].
      destruct (negb _); [done|].
      pose proof (scanElem_ge base bl bl bi) as Hbge.
      pose proof (scanElem_ge targ tl tl ti) as Htge.
      pose proof (scanElem_le base bl bl bi Hbi) as Hble.
      pose proof (scanElem_le targ tl tl ti Hti) as Htle.
      apply orb_true_iff in Hgo. rewrite !Nat.ltb_lt in Hgo.
      destruct (scanElem bl base bl bi <? bl) eqn:Hbend;
        [apply Nat.ltb_lt in Hbend | apply Nat.ltb_ge in Hbend];
        (destruct (scanElem tl targ tl ti <? tl) eqn:Htend;
         [apply Nat.ltb_lt in Htend | apply Nat.ltb_ge in Htend]);
        cbv iota; apply IH; lia.
Qed.

End LoopBounds.

(** C8.  [isLocalPath] is a function of the source string alone (no
    environment is among its arguments) with a boolean answer for every
    string, and it answers [true] exactly for the strings that begin with
    "./" or with "../"; registry identifiers, [git::] and [s3::] locators,
    host-qualified registry paths and bare names are all remote. *)
Theorem isLocalPath_iff_dot_slash_prefix :
  (forall source : string,
      isLocalPath source = true
      <-> (exists rest, source = "./" +:+ rest) \/ (exists rest, source = "../" +:+ rest))
  /\ (forall source : string, exists b : bool, isLocalPath source = b)
  /\ map isLocalPath
         ["./modules/vpc"; "../modules/vpc"; "../../shared/modules";
          "terraform-aws-modules/eks/aws"; "git::https://github.com/org/repo.git";
          "s3::https://bucket.s3.amazonaws.com/module.zip";
          "registry.terraform.io/hashicorp/consul/aws"; "vpc"; "/abs/path"; ""]
     = [true; true; true; false; false; false; false; false; false; false].
Proof.
  split; [|split].
  - intros source. unfold isLocalPath.
    by rewrite orb_true_iff, !HasPrefix_iff.
  - intros source. by exists (isLocalPath source).
  - reflexivity.
Qed.

(** * The change-impact filter *)

Section Dedup.

Lemma keepFirst_elem_of (l : list string) (x : string) :
  x ∈ keepFirst l <-> x ∈ l.
Proof.
  induction l as [|y l IH]; cbn; [done|].
  rewrite !elem_of_cons, list_elem_of_filter, IH.
  destruct (decide (x = y)); naive_solver.
Qed.

Lemma keepFirst_NoDup (l : list string) : NoDup (keepFirst l).
Proof.
  induction l as [|y l IH]; cbn; [constructor|].
  constructor; [|by apply NoDup_filter].
  rewrite list_elem_of_filter. naive_solver.
Qed.

Lemma filter_all (P : string -> Prop) `{!forall x, Decision (P x)} (l : list string) :
  (forall x, x ∈ l -> P x) -> filter P l = l.
Proof.
  induction l as [|y l IH]; intros HP; [done|].
  rewrite filter_cons_True by (apply HP; left).
  f_equal. apply IH. intros x Hx. apply HP. by right.
Qed.

Lemma keepFirst_id (l : list string) : NoDup l -> keepFirst l = l.
Proof.
  induction 1 as [|y l Hy _ IH]; cbn; [done|].
  rewrite IH. f_equal. apply filter_all. by intros z Hz ->.
Qed.

Lemma appendUnseen_foldl (files : list string) (acc : list string * gset string) :
  appendUnseen files acc = foldl seenStep acc files.
Proof. reflexivity. Qed.

(** The loop over the modules is the [seen] loop over their files laid end to end. *)
Lemma appendUnseen_modules (mods : list ModuleDetail) (acc : list string * gset string) :
  foldl (fun acc m => appendUnseen (Files m) acc) acc mods
  = appendUnseen (concat (map Files mods)) acc.
Proof.
  revert acc. induction mods as [|m mods IH]; intros acc; cbn; [done|].
  rewrite IH, !appendUnseen_foldl. by rewrite foldl_app.
Qed.

(** Started with [seen] holding exactly the elements of [result], the loop
    appends the first occurrences of the files that [result] lacks. *)
Lemma appendUnseen_keepFirst (files result : list string) (seen : gset string) :
  (forall x, x ∈ seen <-> x ∈ result) ->
  fst (appendUnseen files (result, seen))
  = result ++ filter (fun x => x ∉ result) (keepFirst files).
Proof.
  revert result seen. induction files as [|f files IH]; intros result seen Hseen.
  - cbn. by rewrite app_nil_r.
  - rewrite appendUnseen_foldl. cbn [foldl seenStep keepFirst].
    rewrite <- appendUnseen_foldl. destruct (decide (f ∈ seen)) as [Hin|Hnin].
    + rewrite (IH _ _ Hseen). f_equal.
      rewrite filter_cons_False by (intros Hf; apply Hf, Hseen, Hin).
      rewrite list_filter_filter. apply list_filter_iff.
      intros x. split; [|naive_solver].
      intros Hx. split; [done|]. intros ->. apply Hx, Hseen, Hin.
    + rewrite (IH (result ++ [f]) ({[f]} ∪ seen)).
      2:{ intros x. rewrite elem_of_union, elem_of_singleton, elem_of_app,
            list_elem_of_singleton, Hseen. naive_solver. }
      rewrite <- app_assoc. f_equal. cbn [app].
      rewrite filter_cons_True by (intros Hf; apply Hnin, Hseen, Hf).
      f_equal. rewrite list_filter_filter. apply list_filter_iff.
      intros x. rewrite elem_of_app, list_elem_of_singleton. naive_solver.
Qed.

Lemma appendUnseen_fresh (files : list string) :
  fst (appendUnseen files ([], ∅)) = keepFirst files.
Proof.
  rewrite (appendUnseen_keepFirst files [] ∅) by set_solver.
  cbn [app]. apply filter_all. intros x _. set_solver.
Qed.

Lemma filter_none (P : string -> Prop) `{!forall x, Decision (P x)} (l : list string) :
  (forall x, x ∈ l -> ~ P x) -> filter P l = [].
Proof.
  induction l as [|y l IH]; intros HP; [done|].
  rewrite filter_cons_False by (apply HP; left).
  apply IH. intros x Hx. apply HP. by right.
Qed.

Lemma SeenOk_empty : SeenOk ([], ∅).
Proof. intros x. cbn. set_solver. Qed.

Lemma appendUnseen_SeenOk (files : list string) (acc : list string * gset string) :
  SeenOk acc -> SeenOk (appendUnseen files acc).
Proof.
  revert acc. induction files as [|f files IH]; intros acc Hacc; [done|].
  rewrite appendUnseen_foldl. cbn [foldl]. rewrite <- appendUnseen_foldl. apply IH.
  destruct acc as [result seen]. unfold seenStep.
  destruct (decide (f ∈ seen)); [done|].
  intros x. cbn. rewrite elem_of_union, elem_of_singleton, elem_of_app,
    list_elem_of_singleton, (Hacc x). cbn. naive_solver.
Qed.

(** Appending a module's files to nothing, or once more to themselves,
    leaves that module's files at their first occurrences. *)
Lemma appendUnseen_same (files : list string) (acc : list string * gset string) :
  SeenOk acc -> acc.1 = [] \/ acc.1 = keepFirst files ->
  (appendUnseen files acc).1 = keepFirst files.
Proof.
  destruct acc as [result seen]. cbn [fst]. intros Hacc Hresult.
  rewrite (appendUnseen_keepFirst files result seen Hacc).
  destruct Hresult as [->| ->].
  - cbn [app]. apply filter_all. intros x _. set_solver.
  - rewrite filter_none; [by rewrite app_nil_r|]. intros x Hx Hnot. by apply Hnot.
Qed.

End Dedup.

(** C9.  [CollectAllFiles] returns the root module's files followed by each
    local module's files in [LocalModules] order with every path kept at its
    first occurrence only: the result has the same paths, and no path twice. *)
Theorem CollectAllFiles_first_seen_no_duplicates (output : Output) :
  CollectAllFiles output = keepFirst (filesInOrder output)
  /\ NoDup (CollectAllFiles output)
  /\ (forall f, f ∈ CollectAllFiles output <-> f ∈ filesInOrder output).
Proof.
  assert (CollectAllFiles output = keepFirst (filesInOrder output)) as ->.
  { unfold CollectAllFiles, filesInOrder.
    rewrite appendUnseen_modules, !appendUnseen_foldl, <- foldl_app.
    rewrite <- appendUnseen_foldl. apply appendUnseen_fresh. }
  split; [done|]. split; [apply keepFirst_NoDup|].
  intros f. apply keepFirst_elem_of.
Qed.

(** C6.  [IsAffected] answers [true] exactly when some changed path, made
    absolute the way the program does it ([absChanged]: an absolute entry is
    cleaned, a relative one is joined to the working directory), is
    [isInDirectory] of the root module's path or of some local module's path;
    on the empty list of changed paths it answers [false].  The last lines
    show [absChanged] at work, with [/work/repo] as working directory. *)
Theorem IsAffected_iff_some_changed_path_under_a_module :
  (forall (getwd : option string) (changedFiles : list string) (output : Output),
      IsAffected getwd changedFiles output = true
      <-> exists f, f ∈ changedFiles
                    /\ (isInDirectory (absChanged getwd f)
                                      (ResolvedPath (RootModule output)) = true
                        \/ exists localMod,
                             localMod ∈ LocalModules output
                             /\ isInDirectory (absChanged getwd f)
                                              (ResolvedPath localMod) = true))
  /\ (forall (getwd : option string) (output : Output),
         IsAffected getwd [] output = false)
  /\ (forall (getwd : option string) (f : string),
         Filepath.IsAbs f = true -> absChanged getwd f = Filepath.Clean f)
  /\ absChanged (Some "/work/repo") "modules/vpc/main.tf" = "/work/repo/modules/vpc/main.tf"
  /\ absChanged (Some "/work/repo") "../other/./a.tf" = "/work/other/a.tf"
  /\ absChanged (Some "/work/repo") "/srv//x/../y.tf" = "/srv/y.tf".
Proof.
  split; [|split; [done|split; [|by vm_compute]]].
  2:{ intros getwd f Habs. unfold absChanged, Filepath.Abs. by rewrite !Habs. }
  intros getwd changedFiles output. unfold IsAffected.
  rewrite existsb_exists. split.
  - intros (f & Hf & Hunder). exists f. split; [by apply list_elem_of_In|].
    apply orb_true_iff in Hunder as [Hroot|Hlocal]; [by left|right].
    apply existsb_exists in Hlocal as (localMod & Hin & Hunder).
    exists localMod. split; [by apply list_elem_of_In | done].
  - intros (f & Hf & Hunder). exists f. split; [by apply list_elem_of_In|].
    apply orb_true_iff. destruct Hunder as [Hroot|(localMod & Hin & Hunder)]; [by left|right].
    apply existsb_exists. exists localMod. split; [by apply list_elem_of_In | done].
Qed.

Section Filter.
Variable getwd : option string.
Variable output : Output.

Lemma changedAbsPaths_elem_of (changedFiles : list string) (acc : gset string) (p : string) :
  p ∈ foldl (fun paths f => {[absChanged getwd f]} ∪ paths) acc changedFiles
  <-> p ∈ acc \/ exists f, f ∈ changedFiles /\ p = absChanged getwd f.
Proof.
  revert acc. induction changedFiles as [|f fs IH]; intros acc; cbn.
  - split; [by left|]. intros [H|(f & Hf & _)]; [done|]. by apply elem_of_nil in Hf.
  - rewrite IH, elem_of_union, elem_of_singleton. split.
    + intros [[->|Hacc]|(f' & Hf' & ->)].
      * right. exists f. split; [left|done].
      * by left.
      * right. exists f'. split; [by right|done].
    + intros [Hacc|(f' & Hf' & ->)]; [left; by right|].
      apply elem_of_cons in Hf' as [->|Hf']; [left; by left|].
      right. by exists f'.
Qed.

Lemma affected_locals_elem_of (changedPath : string) (mods : list ModuleDetail)
      (acc : gset string) (p : string) :
  p ∈ foldl (fun affected localMod =>
               if isInDirectory changedPath (ResolvedPath localMod)
               then {[ResolvedPath localMod]} ∪ affected else affected) acc mods
  <-> p ∈ acc
      \/ exists localMod, localMod ∈ mods
                          /\ isInDirectory changedPath (ResolvedPath localMod) = true
                          /\ p = ResolvedPath localMod.
Proof.
  revert acc. induction mods as [|m mods IH]; intros acc; cbn.
  - split; [by left|]. intros [H|(m & Hm & _)]; [done|]. by apply elem_of_nil in Hm.
  - rewrite IH. split.
    + intros [Hacc|(m' & Hm' & Hunder & ->)].
      * destruct (isInDirectory changedPath (ResolvedPath m)) eqn:Hm; [|by left].
        apply elem_of_union in Hacc as [->%elem_of_singleton|Hacc]; [|by left].
        right. exists m. split; [left|done].
      * right. exists m'. split; [by right|done].
    + intros [Hacc|(m' & Hm' & Hunder & ->)].
      * left. destruct (isInDirectory changedPath (ResolvedPath m)); [|done].
        apply elem_of_union. by right.
      * apply elem_of_cons in Hm' as [->|Hm'].
        -- left. rewrite Hunder. apply elem_of_union. left. by apply elem_of_singleton.
        -- right. by exists m'.
Qed.

(** A module path is marked affected exactly when some changed path is
    [isInDirectory] of it; the order in which the changed paths are
    enumerated plays no part. *)
Lemma affectedModulePathsOf_elem_of (changed : list string) (p : string) :
  p ∈ affectedModulePathsOf output changed
  <-> exists changedPath,
        changedPath ∈ changed
        /\ ((isInDirectory changedPath (ResolvedPath (RootModule output)) = true
             /\ p = ResolvedPath (RootModule output))
            \/ exists localMod,
                 localMod ∈ LocalModules output
                 /\ isInDirectory changedPath (ResolvedPath localMod) = true
                 /\ p = ResolvedPath localMod).
Proof.
  unfold affectedModulePathsOf.
  enough (forall acc : gset string,
             p ∈ foldl (fun affected changedPath =>
                          let affected :=
                            if isInDirectory changedPath (ResolvedPath (RootModule output))
                            then {[ResolvedPath (RootModule output)]} ∪ affected
                            else affected in
                          foldl (fun affected localMod =>
                                   if isInDirectory changedPath (ResolvedPath localMod)
                                   then {[ResolvedPath localMod]} ∪ affected
                                   else affected)
                                affected (LocalModules output)) acc changed
             <-> p ∈ acc
                 \/ exists changedPath,
                      changedPath ∈ changed
                      /\ ((isInDirectory changedPath (ResolvedPath (RootModule output)) = true
                           /\ p = ResolvedPath (RootModule output))
                          \/ exists localMod,
                               localMod ∈ LocalModules output
                               /\ isInDirectory changedPath (ResolvedPath localMod) = true
                               /\ p = ResolvedPath localMod)) as Hgen.
  { rewrite Hgen. split; [intros [H|H]; [set_solver|done] | by right]. }
  induction changed as [|c cs IH]; intros acc; cbn.
  - split; [by left|]. intros [H|(c & Hc & _)]; [done|]. by apply elem_of_nil in Hc.
  - rewrite IH, affected_locals_elem_of. split.
    + intros [[Hacc|Hloc]|(c' & Hc' & H)].
      * destruct (isInDirectory c (ResolvedPath (RootModule output))) eqn:Hroot; [|by left].
        apply elem_of_union in Hacc as [->%elem_of_singleton|Hacc]; [|by left].
        right. exists c. split; [left|]. by left.
      * right. exists c. split; [left|]. by right.
      * right. exists c'. split; [by right|done].
    + intros [Hacc|(c' & Hc' & H)].
      * left. left.
        destruct (isInDirectory c (ResolvedPath (RootModule output))); [|done].
        apply elem_of_union. by right.
      * apply elem_of_cons in Hc' as [->|Hc']; [|right; by exists c'].
        left. destruct H as [[Hroot ->]|Hloc]; [left|by right].
        rewrite Hroot. apply elem_of_union. left. by apply elem_of_singleton.
Qed.

(** The same, for the set [FilterRelatedFiles] builds from the changed files. *)
Lemma affectedModulePaths_elem_of (changedFiles : list string) (p : string) :
  p ∈ affectedModulePathsOf output
        (elements (foldl (fun paths f => {[absChanged getwd f]} ∪ paths)
                         (∅ : gset string) changedFiles))
  <-> exists f,
        f ∈ changedFiles
        /\ ((isInDirectory (absChanged getwd f) (ResolvedPath (RootModule output)) = true
             /\ p = ResolvedPath (RootModule output))
            \/ exists localMod,
                 localMod ∈ LocalModules output
                 /\ isInDirectory (absChanged getwd f) (ResolvedPath localMod) = true
                 /\ p = ResolvedPath localMod).
Proof.
  rewrite affectedModulePathsOf_elem_of. split.
  - intros (c & Hc & H). apply elem_of_elements, changedAbsPaths_elem_of in Hc.
    destruct Hc as [Hc|(f & Hf & ->)]; [set_solver|]. by exists f.
  - intros (f & Hf & H). exists (absChanged getwd f). split; [|done].
    apply elem_of_elements, changedAbsPaths_elem_of. right. by exists f.
Qed.

(** When one path only is marked affected and the records with that path
    all hold the files [files], the loop over the modules leaves either
    nothing or those files, and the latter as soon as one such record is met. *)
Lemma filter_loop_one_path (affected : gset string) (path : string)
      (files : list string) (mods : list ModuleDetail)
      (acc : list string * gset string) :
  (forall p, p ∈ affected <-> p = path) ->
  (forall m, m ∈ mods -> ResolvedPath m = path -> Files m = files) ->
  SeenOk acc -> acc.1 = [] \/ acc.1 = keepFirst files ->
  let acc' := foldl (fun acc localMod =>
                       if decide (ResolvedPath localMod ∈ affected)
                       then appendUnseen (Files localMod) acc else acc) acc mods in
  SeenOk acc'
  /\ (acc'.1 = [] \/ acc'.1 = keepFirst files)
  /\ (acc.1 = keepFirst files \/ (exists m, m ∈ mods /\ ResolvedPath m = path) ->
      acc'.1 = keepFirst files).
Proof.
  intros Haffected. revert acc.
  induction mods as [|m mods IH]; intros acc Hfiles Hacc Hresult; cbn.
  - split; [done|]. split; [done|]. intros [H|(m & Hm & _)]; [done|].
    by apply elem_of_nil in Hm.
  - assert (Hrest : forall m', m' ∈ mods -> ResolvedPath m' = path -> Files m' = files)
      by (intros m' Hm'; apply Hfiles; by right).
    destruct (decide (ResolvedPath m ∈ affected)) as [Hin|Hout].
    + apply Haffected in Hin. rewrite (Hfiles m (list_elem_of_here _ _) Hin).
      pose proof (appendUnseen_same files acc Hacc Hresult) as Hnow.
      destruct (IH (appendUnseen files acc) Hrest (appendUnseen_SeenOk _ _ Hacc)
                   (or_intror Hnow)) as (Hok & Hcases & Hfinal).
      split; [done|]. split; [done|]. intros _. apply Hfinal. by left.
    + destruct (IH acc Hrest Hacc Hresult) as (Hok & Hcases & Hfinal).
      split; [done|]. split; [done|]. intros [H|(m' & Hm' & Hpath)]; apply Hfinal.
      * by left.
      * right. exists m'. split; [|done].
        apply elem_of_cons in Hm' as [->|Hm']; [|done].
        exfalso. by apply Hout, Haffected.
Qed.

End Filter.

(** C5.  Let [M] be a record of [LocalModules], let the changed paths be not
    empty and every one of them [isInDirectory] of [M]'s path, and let none of
    them be [isInDirectory] of the path of any other module, root or local
    (a record with [M]'s own path is a record of the same directory and holds
    the same files).  Then [FilterRelatedFiles] returns [M]'s files and
    nothing else: the files of [M] at their first occurrence, which is the
    list [Files M] itself when it has no duplicate. *)
Theorem FilterRelatedFiles_change_under_one_module
        (getwd : option string) (allFiles changedFiles : list string)
        (output : Output) (M : ModuleDetail) :
  M ∈ LocalModules output ->
  changedFiles ≠ [] ->
  (forall f, f ∈ changedFiles ->
             isInDirectory (absChanged getwd f) (ResolvedPath M) = true) ->
  (forall f m, f ∈ changedFiles -> m ∈ RootModule output :: LocalModules output ->
               ResolvedPath m ≠ ResolvedPath M ->
               isInDirectory (absChanged getwd f) (ResolvedPath m) = false) ->
  (forall m, m ∈ RootModule output :: LocalModules output ->
             ResolvedPath m = ResolvedPath M -> Files m = Files M) ->
  FilterRelatedFiles getwd allFiles changedFiles output = keepFirst (Files M)
  /\ (NoDup (Files M) ->
      FilterRelatedFiles getwd allFiles changedFiles output = Files M).
Proof.
  intros HinM Hne HM Hother Hsame.
  assert (FilterRelatedFiles getwd allFiles changedFiles output = keepFirst (Files M)) as ->.
  2:{ split; [done|]. apply keepFirst_id. }
  unfold FilterRelatedFiles.
  set (affected := affectedModulePathsOf output _).
  assert (Haffected : forall p, p ∈ affected <-> p = ResolvedPath M).
  { intros p. unfold affected. rewrite affectedModulePaths_elem_of. split.
    - intros (f & Hf & Hp).
      assert (exists m, m ∈ RootModule output :: LocalModules output
                        /\ isInDirectory (absChanged getwd f) (ResolvedPath m) = true
                        /\ p = ResolvedPath m) as (m & Hm & Hunder & ->).
      { destruct Hp as [[Hunder ->]|(m & Hm & Hunder & ->)].
        - exists (RootModule output). split; [left|done].
        - exists m. split; [by right|done]. }
      destruct (decide (ResolvedPath m = ResolvedPath M)) as [|Hdiff]; [done|].
      by rewrite (Hother f m Hf Hm Hdiff) in Hunder.
    - intros ->. destruct changedFiles as [|f fs]; [done|].
      exists f. split; [left|]. right. exists M. split; [done|]. split; [|done].
      apply HM. left. }
  set (acc0 := if decide (ResolvedPath (RootModule output) ∈ affected)
               then appendUnseen (Files (RootModule output)) ([], ∅) else ([], ∅)).
  assert (Hacc0 : SeenOk acc0 /\ (acc0.1 = [] \/ acc0.1 = keepFirst (Files M))).
  { unfold acc0. destruct (decide _) as [Hroot|_]; [|split; [apply SeenOk_empty|by left]].
    apply Haffected in Hroot. rewrite (Hsame _ (list_elem_of_here _ _) Hroot).
    split; [apply appendUnseen_SeenOk, SeenOk_empty|]. right.
    apply appendUnseen_same; [apply SeenOk_empty | by left]. }
  destruct Hacc0 as [Hok0 Hresult0].
  apply (filter_loop_one_path affected (ResolvedPath M) (Files M)
                              (LocalModules output) acc0 Haffected); try done.
  - intros m Hm. apply Hsame. by right.
  - right. by exists M.
Qed.

(** The repository's test "filter to vpc module only", with one changed path
    given absolute and one relative to the working directory. *)
Lemma FilterRelatedFiles_change_under_one_module_witness :
  FilterRelatedFiles (Some "/t") (CollectAllFiles filterOutput)
                     ["/t/modules/vpc/main.tf"; "modules/vpc/variables.tf"] filterOutput
  = keepFirst (Files vpcModule)
  /\ (NoDup (Files vpcModule) ->
      FilterRelatedFiles (Some "/t") (CollectAllFiles filterOutput)
                         ["/t/modules/vpc/main.tf"; "modules/vpc/variables.tf"] filterOutput
      = Files vpcModule).
Proof.
  apply (FilterRelatedFiles_change_under_one_module
           (Some "/t") (CollectAllFiles filterOutput)
           ["/t/modules/vpc/main.tf"; "modules/vpc/variables.tf"]
           filterOutput vpcModule).
  - left.
  - discriminate.
  - intros f Hf. repeat (apply elem_of_cons in Hf as [->|Hf]; [by vm_compute|]).
    by apply elem_of_nil in Hf.
  - intros f m Hf Hm Hdiff.
    repeat (apply elem_of_cons in Hm as [->|Hm];
            [repeat (apply elem_of_cons in Hf as [->|Hf]; [by vm_compute|]);
             by apply elem_of_nil in Hf|]).
    by apply elem_of_nil in Hm.
  - intros m Hm Hpath.
    repeat (apply elem_of_cons in Hm as [->|Hm]; [by vm_compute in Hpath|]).
    by apply elem_of_nil in Hm.
Defined.

(** * The traversal *)

Section Loop.

(** What holds before the loop and is kept by every turn holds after it. *)
Lemma rangeCalls_invariant (P : State -> Prop)
      (body : State -> string * tfconfig.ModuleCall -> option State)
      (calls : list (string * tfconfig.ModuleCall)) (st st' : State) :
  (forall s e s', e ∈ calls -> P s -> body s e = Some s' -> P s') ->
  P st -> rangeCalls body calls st = Some st' -> P st'.
Proof.
  revert st. induction calls as [|e calls IH]; intros st Hstep HP Hrun; cbn in Hrun.
  - by injection Hrun as <-.
  - destruct (body st e) as [s1|] eqn:Hbody; [|discriminate].
    apply (IH s1); [|by eapply Hstep; [left|..] | done].
    intros s e' s' He'. apply Hstep. by right.
Qed.

(** If every turn ends, keeping [P], so does the loop. *)
Lemma rangeCalls_total (P : State -> Prop)
      (body : State -> string * tfconfig.ModuleCall -> option State)
      (calls : list (string * tfconfig.ModuleCall)) (st : State) :
  (forall s e, e ∈ calls -> P s -> exists s', body s e = Some s' /\ P s') ->
  P st -> exists st', rangeCalls body calls st = Some st' /\ P st'.
Proof.
  revert st. induction calls as [|e calls IH]; intros st Hstep HP; cbn.
  - by exists st.
  - destruct (Hstep st e) as (s1 & -> & HP1); [left|done|].
    apply IH; [|done]. intros s e' He'. apply Hstep. by right.
Qed.

Lemma rangeCalls_app
      (body : State -> string * tfconfig.ModuleCall -> option State)
      (l1 l2 : list (string * tfconfig.ModuleCall)) (st : State) :
  rangeCalls body (l1 ++ l2) st
  = match rangeCalls body l1 st with
    | Some st1 => rangeCalls body l2 st1
    | None => None
    end.
Proof.
  revert st. induction l1 as [|e l1 IH]; intros st; cbn; [done|].
  destruct (body st e); [apply IH|done].
Qed.

End Loop.

Section Traversal.
Variable rng : RangeOrder.
Variable env : Env.

Lemma listTerraformFiles_Ok_dom (dir : string) (files : list string) :
  listTerraformFiles env dir = Ok files -> dir ∈ dom (ReadDir env).
Proof.
  unfold listTerraformFiles. intros H. apply elem_of_dom.
  destruct (ReadDir env !! dir); [eauto|discriminate].
Qed.

Lemma listTerraformFiles_unlistable (dir : string) :
  ReadDir env !! dir = None -> listTerraformFiles env dir = Err (ErrReadDir dir).
Proof. unfold listTerraformFiles. by intros ->. Qed.

(** The three ways one turn of the loop can end. *)
Lemma processCall_cases
      (recurse : string -> string -> State -> option (option error * State))
      (absDir calledFrom : string) (st st' : State)
      (name : string) (call : tfconfig.ModuleCall) :
  processCall recurse env absDir calledFrom st (name, call) = Some st' ->
  (isLocalPath (tfconfig.Source call) = false
   /\ exists m, st' = appendRemote m st)
  \/ (isLocalPath (tfconfig.Source call) = true
      /\ exists err,
           listTerraformFiles env (resolveCall env absDir call) = Err err
           /\ st' = warn (WarnCannotRead (resolveCall env absDir call) err) st)
  \/ (isLocalPath (tfconfig.Source call) = true
      /\ exists files r st2,
           listTerraformFiles env (resolveCall env absDir call) = Ok files
           /\ recurse (resolveCall env absDir call) name
                      (appendLocal {| Name := name; Source := tfconfig.Source call;
                                      ResolvedPath := resolveCall env absDir call;
                                      Files := files |} st) = Some (r, st2)
           /\ st' = match r with
                    | Some err =>
                        warn (WarnFailedAnalyze (resolveCall env absDir call) err) st2
                    | None => st2
                    end).
Proof.
  unfold processCall. destruct (isLocalPath (tfconfig.Source call)).
  - destruct (listTerraformFiles env (resolveCall env absDir call)) as [files|err] eqn:Hls.
    + destruct (recurse _ _ _) as [[[err|] st2]|] eqn:Hrec; [| |discriminate];
        intros [= <-]; right; right; (split; [done|]);
        eexists files, _, st2; (split; [done|]); (split; [exact Hrec|done]).
    + intros [= <-]. right. left. split; [done|]. by exists err.
  - intros [= <-]. left. split; [done|]. by eexists.
Qed.

(** ** Every canonical directory is loaded at most once *)

Lemma Consistent_init : Consistent initState.
Proof. split; [constructor|]. intros d. cbn. set_solver. Qed.

Lemma Consistent_load (absDir : string) (st : State) :
  Consistent st -> absDir ∉ visited st ->
  Consistent (logLoad absDir (markVisited absDir st)).
Proof.
  intros [Hnd Hsame] Hfresh. split; cbn.
  - apply NoDup_app. split; [done|]. split; [|apply NoDup_singleton].
    intros d Hd ->%list_elem_of_singleton. by apply Hfresh, Hsame.
  - intros d. rewrite elem_of_union, elem_of_singleton, elem_of_app,
      list_elem_of_singleton, Hsame. naive_solver.
Qed.

Lemma analyzeRecursive_consistent (fuel : nat) :
  forall (dir calledFrom : string) (st st' : State) (r : option error),
    analyzeRecursive fuel rng env dir calledFrom st = Some (r, st') ->
    Consistent st -> Consistent st' /\ visited st ⊆ visited st'.
Proof.
  induction fuel as [|fuel IH]; intros dir calledFrom st st' r Hrun Hst; [discriminate|].
  cbn [analyzeRecursive] in Hrun.
  destruct (Filepath.Abs (Getwd env) dir) as [absDir|]; [|by injection Hrun as <- <-].
  destruct (decide (absDir ∈ visited st)) as [Hin|Hfresh]; [by injection Hrun as <- <-|].
  destruct (LoadModule env absDir) as [module diags].
  pose proof (Consistent_load absDir st Hst Hfresh) as Hst1.
  assert (Hgrow : visited st ⊆ visited (logLoad absDir (markVisited absDir st)))
    by (cbn; set_solver).
  destruct (tfconfig.HasErrors diags); [by injection Hrun as <- <-|].
  destruct (rangeCalls _ _ _) as [st2|] eqn:Hloop; [|discriminate].
  injection Hrun as <- <-.
  eapply (rangeCalls_invariant (fun s => Consistent s /\ visited st ⊆ visited s));
    [| |exact Hloop]; [|done].
  intros s [name call] s' _ [Hs Hsub] Hturn.
  apply processCall_cases in Hturn
    as [[_ [m ->]]|[[_ (err & _ & ->)]|[_ (files & r' & s2 & _ & Hrec & ->)]]];
    [done|done|].
  apply IH in Hrec as [Hs2 Hsub2]; [|done].
  cbn in Hsub2. destruct r'; (split; [done|]); cbn; set_solver.
Qed.

(** ** The traversal ends *)

Lemma size_list_to_set_le (l : list string) :
  size (list_to_set l : gset string) <= length l.
Proof.
  induction l as [|x l IH]; cbn; [by rewrite size_empty|].
  rewrite size_union_alt, size_singleton.
  assert (size (list_to_set l ∖ {[x]} : gset string) <= size (list_to_set l : gset string))
    by (apply subseteq_size; set_solver).
  lia.
Qed.

Lemma omap_length_le {A B : Type} (f : A -> option B) (l : list A) :
  length (omap f l) <= length l.
Proof. induction l as [|x l IH]; cbn; [done|]. destruct (f x); cbn; lia. Qed.

Lemma canonicalDirs_size : size (canonicalDirs env) <= size (ReadDir env).
Proof.
  unfold canonicalDirs. etrans; [apply size_list_to_set_le|].
  etrans; [apply omap_length_le|].
  by rewrite <- (size_dom (ReadDir env)).
Qed.

Lemma canonicalDirs_elem_of (dir absDir : string) :
  dir ∈ dom (ReadDir env) -> Filepath.Abs (Getwd env) dir = Some absDir ->
  absDir ∈ canonicalDirs env.
Proof.
  intros Hdir Habs. unfold canonicalDirs.
  apply elem_of_list_to_set, list_elem_of_omap. exists dir.
  split; [by apply elem_of_elements|done].
Qed.

(** A bound larger than the number of canonical directories still to be
    visited is never exhausted. *)
Lemma analyzeRecursive_total (fuel : nat) :
  forall (dir calledFrom : string) (st : State),
    dir ∈ dom (ReadDir env) ->
    size (canonicalDirs env ∖ visited st) < fuel ->
    exists r st',
      analyzeRecursive fuel rng env dir calledFrom st = Some (r, st')
      /\ visited st ⊆ visited st'.
Proof.
  induction fuel as [|fuel IH]; intros dir calledFrom st Hdir Hlt; [lia|].
  cbn [analyzeRecursive].
  destruct (Filepath.Abs (Getwd env) dir) as [absDir|] eqn:Habs; [|by eauto].
  destruct (decide (absDir ∈ visited st)) as [Hin|Hfresh]; [by eauto|].
  destruct (LoadModule env absDir) as [module diags].
  set (st1 := logLoad absDir (markVisited absDir st)).
  assert (Hgrow : visited st ⊆ visited st1) by (cbn; set_solver).
  assert (Hlt1 : size (canonicalDirs env ∖ visited st1) < fuel).
  { apply Nat.lt_le_trans with (size (canonicalDirs env ∖ visited st)); [|lia].
    apply subset_size. pose proof (canonicalDirs_elem_of _ _ Hdir Habs).
    cbn. set_solver. }
  destruct (tfconfig.HasErrors diags); [by eauto|].
  destruct (rangeCalls_total (fun s => visited st1 ⊆ visited s)
              (processCall (analyzeRecursive fuel rng env) env absDir calledFrom)
              (rng absDir (tfconfig.ModuleCalls module)) st1) as (st2 & -> & Hsub2);
    [|done|exists None, st2; split; [done|set_solver]].
  intros s [name call] _ Hs. unfold processCall.
  destruct (isLocalPath (tfconfig.Source call)); [|by eauto].
  destruct (listTerraformFiles env (resolveCall env absDir call)) as [files|err] eqn:Hls;
    [|by eauto].
  destruct (IH (resolveCall env absDir call) name
               (appendLocal {| Name := name; Source := tfconfig.Source call;
                               ResolvedPath := resolveCall env absDir call;
                               Files := files |} s))
    as (r' & s2 & -> & Hsub).
  - by eapply listTerraformFiles_Ok_dom.
  - apply Nat.le_lt_trans with (size (canonicalDirs env ∖ visited st1)); [|done].
    apply subseteq_size. cbn. set_solver.
  - cbn in Hsub. destruct r'; eexists; (split; [done|]); cbn; set_solver.
Qed.

(** The bound [Analyze] passes is large enough. *)
Lemma initial_bound :
  size (canonicalDirs env ∖ visited initState) < S (size (ReadDir env)).
Proof.
  pose proof canonicalDirs_size.
  assert (size (canonicalDirs env ∖ visited initState) <= size (canonicalDirs env))
    by (apply subseteq_size; set_solver).
  lia.
Qed.

(** [Analyze] always returns. *)
Lemma AnalyzeIO_total (dir : string) :
  exists res st, AnalyzeIO rng env dir = Some (res, st).
Proof.
  unfold AnalyzeIO.
  destruct (Filepath.Abs (Getwd env) dir) as [absDir|]; [|by eauto].
  destruct (listTerraformFiles env absDir) as [rootFiles|err] eqn:Hls; [|by eauto].
  destruct (analyzeRecursive_total (S (size (ReadDir env))) absDir "" initState)
    as (r & st & -> & _).
  - by eapply listTerraformFiles_Ok_dom.
  - apply initial_bound.
  - destruct r; eauto.
Qed.

End Traversal.

Section Records.
Variable rng : RangeOrder.
Variable env : Env.

Lemma callRecord_remote (absDir name : string) (call : tfconfig.ModuleCall) :
  isLocalPath (tfconfig.Source call) = false ->
  callRecord env absDir (name, call) = None.
Proof. unfold callRecord. cbn. by intros ->. Qed.

Lemma callRecord_unlistable (absDir name : string) (call : tfconfig.ModuleCall)
      (err : error) :
  listTerraformFiles env (resolveCall env absDir call) = Err err ->
  callRecord env absDir (name, call) = None.
Proof. unfold callRecord. cbn. intros ->. by destruct (isLocalPath _). Qed.

Lemma callRecord_local (absDir name : string) (call : tfconfig.ModuleCall)
      (files : list string) :
  isLocalPath (tfconfig.Source call) = true ->
  listTerraformFiles env (resolveCall env absDir call) = Ok files ->
  callRecord env absDir (name, call)
  = Some {| Name := name; Source := tfconfig.Source call;
            ResolvedPath := resolveCall env absDir call; Files := files |}.
Proof. unfold callRecord. cbn. by intros -> ->. Qed.

Lemma omap_cons {A B : Type} (f : A -> option B) (x : A) (l : list A) :
  omap f (x :: l) = match f x with Some y => y :: omap f l | None => omap f l end.
Proof. reflexivity. Qed.

(** The loop of one directory, given what the recursive calls add. *)
Lemma rangeCalls_records
      (recurse : string -> string -> State -> option (option error * State))
      (absDir calledFrom : string) :
  (forall d n s s' r, recurse d n s = Some (r, s') -> exists L R, Adds rng env s s' L R) ->
  forall (calls : list (string * tfconfig.ModuleCall)) (s s' : State),
    rangeCalls (processCall recurse env absDir calledFrom) calls s = Some s' ->
    exists L R,
      loaded s' = loaded s ++ L
      /\ localModules s' = localModules s ++ R
      /\ R ≡ₚ omap (callRecord env absDir) calls ++ concat (map (callRecords rng env) L)
      /\ omap (callRecord env absDir) calls `sublist_of` R
      /\ forall d, d ∈ L -> callRecords rng env d `sublist_of` R.
Proof.
  intros Hrec. induction calls as [|[name call] rest IH]; intros s s' Hrun;
    cbn [rangeCalls] in Hrun.
  - injection Hrun as <-. exists [], []. rewrite !app_nil_r.
    repeat split; [done|constructor|]. by intros d ?%elem_of_nil.
  - destruct (processCall recurse env absDir calledFrom s (name, call))
      as [s1|] eqn:Hturn; [|discriminate].
    apply IH in Hrun as (L2 & R2 & Hl2 & Hm2 & Hp2 & Hs2 & Hd2).
    apply processCall_cases in Hturn
      as [[Hremote [m ->]]|[[_ (err & Hls & ->)]|[Hlocal (files & r & s2 & Hls & Hsub & ->)]]].
    + exists L2, R2. by rewrite omap_cons, callRecord_remote.
    + exists L2, R2. by rewrite omap_cons, (callRecord_unlistable _ _ _ err).
    + apply Hrec in Hsub as (L1 & R1 & Hl1 & Hm1 & Hp1 & Hd1). cbn in Hl1, Hm1.
      assert (Hl : loaded s' = loaded s ++ (L1 ++ L2))
        by (rewrite Hl2, app_assoc, <- Hl1; by destruct r).
      assert (Hm : localModules s' = localModules s
                     ++ ({| Name := name; Source := tfconfig.Source call;
                            ResolvedPath := resolveCall env absDir call;
                            Files := files |} :: R1 ++ R2)).
      { rewrite Hm2. replace (localModules (match r with Some _ => _ | None => _ end))
          with (localModules s2) by (by destruct r).
        rewrite Hm1, <- !app_assoc. done. }
      eexists (L1 ++ L2), _. split; [exact Hl|]. split; [exact Hm|].
      rewrite omap_cons, (callRecord_local _ _ _ files) by done.
      split; [|split].
      * constructor. rewrite Hp1, Hp2, map_app, concat_app.
        apply Permutation_app_swap_app.
      * apply sublist_skip. by apply sublist_inserts_l.
      * intros d [Hd|Hd]%elem_of_app; apply sublist_cons.
        -- by apply sublist_inserts_r, Hd1.
        -- by apply sublist_inserts_l, Hd2.
Qed.

Lemma analyzeRecursive_records (fuel : nat) :
  forall (dir calledFrom : string) (st st' : State) (r : option error),
    analyzeRecursive fuel rng env dir calledFrom st = Some (r, st') ->
    exists newLoaded newRecords, Adds rng env st st' newLoaded newRecords.
Proof.
  assert (Hnone : forall st, Adds rng env st st [] []).
  { intros st. unfold Adds. rewrite !app_nil_r.
    repeat split; [constructor|]. by intros d ?%elem_of_nil. }
  induction fuel as [|fuel IH]; intros dir calledFrom st st' r Hrun; [discriminate|].
  cbn [analyzeRecursive] in Hrun.
  destruct (Filepath.Abs (Getwd env) dir) as [absDir|];
    [|injection Hrun as <- <-; by exists [], []].
  destruct (decide (absDir ∈ visited st)); [injection Hrun as <- <-; by exists [], []|].
  destruct (LoadModule env absDir) as [module diags] eqn:Hload.
  destruct (tfconfig.HasErrors diags) eqn:Herrors.
  - injection Hrun as <- <-. exists [absDir], [].
    assert (callRecords rng env absDir = []) as Hnil
        by (unfold callRecords; rewrite Hload; cbn [fst snd]; by rewrite Herrors).
    unfold Adds. cbn. rewrite Hnil, app_nil_r.
    repeat split; [constructor|].
    intros d ->%list_elem_of_singleton. by rewrite Hnil.
  - destruct (rangeCalls _ _ _) as [st2|] eqn:Hloop; [|discriminate].
    injection Hrun as <- <-.
    apply (rangeCalls_records _ _ _ (IH)) in Hloop
      as (L & R & Hl & Hm & Hp & Hs & Hd).
    cbn in Hl, Hm.
    assert (callRecords rng env absDir
            = omap (callRecord env absDir) (rng absDir (tfconfig.ModuleCalls module)))
      as Hrecords by (unfold callRecords; rewrite Hload; cbn [fst snd]; by rewrite Herrors).
    exists (absDir :: L), R. unfold Adds.
    split; [by rewrite Hl, <- app_assoc|]. split; [done|]. cbn [map concat].
    rewrite Hrecords. split; [done|].
    intros d [->|Hin]%elem_of_cons; [by rewrite Hrecords | by apply Hd].
Qed.



End Records.


Section Run.
Variable rng : RangeOrder.
Variable env : Env.

(** The only errors [analyzeRecursive] returns are its own: the failure to
    make [dir] absolute, or the diagnostics of the directory it loads.  An
    error of a recursive call is never passed on. *)
Lemma analyzeRecursive_error (fuel : nat) (dir calledFrom : string)
      (st st' : State) (err : error) :
  analyzeRecursive fuel rng env dir calledFrom st = Some (Some err, st') ->
  (Filepath.Abs (Getwd env) dir = None /\ err = ErrGetwd)
  \/ exists absDir,
       Filepath.Abs (Getwd env) dir = Some absDir
       /\ (absDir ∉ visited st)
       /\ tfconfig.HasErrors (LoadModule env absDir).2 = true
       /\ err = ErrorfLoadModule absDir (LoadModule env absDir).2.
Proof.
  destruct fuel as [|fuel]; [discriminate|]. cbn [analyzeRecursive].
  destruct (Filepath.Abs (Getwd env) dir) as [absDir|]; [|intros [= <- <-]; by left].
  destruct (decide (absDir ∈ visited st)); [discriminate|].
  destruct (LoadModule env absDir) as [module diags] eqn:Hload.
  destruct (tfconfig.HasErrors diags) eqn:Herrors.
  - intros [= <- <-]. right. exists absDir. by rewrite Hload.
  - by destruct (rangeCalls _ _ _).
Qed.

(** A directory that is not yet visited and does not parse makes the
    traversal step return the error that names it. *)
Lemma analyzeRecursive_parse_error (fuel : nat) (dir calledFrom absDir : string)
      (st : State) :
  Filepath.Abs (Getwd env) dir = Some absDir ->
  absDir ∉ visited st ->
  tfconfig.HasErrors (LoadModule env absDir).2 = true ->
  analyzeRecursive (S fuel) rng env dir calledFrom st
  = Some (Some (ErrorfLoadModule absDir (LoadModule env absDir).2),
          logLoad absDir (markVisited absDir st)).
Proof.
  intros Habs Hfresh Herrors. cbn [analyzeRecursive]. rewrite Habs.
  rewrite decide_False by done.
  destruct (LoadModule env absDir) as [module diags]. cbn [snd] in Herrors.
  by rewrite Herrors.
Qed.

(** What a run of [Analyze] that passed the root listing consists of. *)
Lemma AnalyzeIO_inv (dir : string) (res : result Output) (st : State) :
  AnalyzeIO rng env dir = Some (res, st) ->
  (st = initState /\ exists err, res = Err err)
  \/ exists absDir rootFiles r,
       Filepath.Abs (Getwd env) dir = Some absDir
       /\ listTerraformFiles env absDir = Ok rootFiles
       /\ analyzeRecursive (S (size (ReadDir env))) rng env absDir "" initState
          = Some (r, st)
       /\ res = match r with
                | Some err => Err err
                | None =>
                    Ok {| RootModule := {| Name := ""; Source := "";
                                           ResolvedPath := absDir;
                                           Files := rootFiles |};
                          LocalModules := localModules st;
                          RemoteModules := remoteModules st |}
                end.
Proof.
  unfold AnalyzeIO.
  destruct (Filepath.Abs (Getwd env) dir) as [absDir|];
    [|intros [= <- <-]; left; eauto].
  destruct (listTerraformFiles env absDir) as [rootFiles|err] eqn:Hls;
    [|intros [= <- <-]; left; eauto].
  destruct (analyzeRecursive _ _ _ _ _ _) as [[r st1]|] eqn:Hrun; [|discriminate].
  intros Hres. right. exists absDir, rootFiles, r.
  destruct r; injection Hres as <- <-; done.
Qed.

(** The facts about a whole run that the theorems below share. *)
Lemma AnalyzeIO_run (dir : string) :
  exists res st,
    AnalyzeIO rng env dir = Some (res, st)
    /\ Consistent st
    /\ localModules st ≡ₚ concat (map (callRecords rng env) (loaded st))
    /\ (forall d, d ∈ loaded st -> callRecords rng env d `sublist_of` localModules st)
    /\ (forall out, res = Ok out ->
                    LocalModules out = localModules st
                    /\ RemoteModules out = remoteModules st).
Proof.
  destruct (AnalyzeIO_total rng env dir) as (res & st & Hrun).
  exists res, st. split; [done|].
  apply AnalyzeIO_inv in Hrun
    as [(-> & err & ->)|(absDir & rootFiles & r & Habs & Hls & Hrec & ->)].
  - split; [apply Consistent_init|]. cbn. split; [done|].
    split; [by intros d ?%elem_of_nil|]. done.
  - pose proof (analyzeRecursive_consistent _ _ _ _ _ _ _ _ Hrec Consistent_init) as [Hc _].
    apply analyzeRecursive_records in Hrec as (L & R & Hl & Hm & Hp & Hd).
    cbn in Hl, Hm. subst L R.
    split; [done|]. split; [done|]. split; [done|].
    intros out Hout. destruct r; [discriminate|]. by injection Hout as <-.
Qed.

End Run.

(** C1, in the form that holds of the program.  [Analyze] returns for every
    directory tree, and the traversal loads no canonical directory twice: the
    log of loaded directories has no duplicate and holds exactly the visited
    paths.  [LocalModules], however, holds one record for every local call
    with a listable directory that a loaded directory declares, whether or
    not the call's directory had been visited before; a directory referenced
    by several such calls therefore has several records. *)
Theorem Analyze_loads_each_directory_once_one_record_per_call
        (rng : RangeOrder) (env : Env) (dir : string) :
  exists res st,
    AnalyzeIO rng env dir = Some (res, st)
    /\ NoDup (loaded st)
    /\ (forall d, d ∈ visited st <-> d ∈ loaded st)
    /\ localModules st ≡ₚ concat (map (callRecords rng env) (loaded st))
    /\ (forall out, res = Ok out -> LocalModules out = localModules st).
Proof.
  destruct (AnalyzeIO_run rng env dir) as (res & st & Hrun & [Hnd Hsame] & Hp & _ & Hout).
  exists res, st. repeat split; try done; try apply Hsame.
  intros out Hres. by apply Hout.
Qed.

Lemma RangeValid_mapOrder : RangeValid mapOrder.
Proof. by intros absDir calls. Qed.


(** C1 fails as stated: in the diamond, where [x] and [y] both call
    [../common], the result has two records whose [ResolvedPath] is
    [/r/common]. *)
Lemma diamond_has_two_records_with_one_resolvedPath :
  RangeValid mapOrder
  /\ exists out,
       Analyze mapOrder diamondEnv "/r" = Some (Ok out)
       /\ map ResolvedPath (LocalModules out) = ["/r/y"; "/r/common"; "/r/x"; "/r/common"]
       /\ ~ NoDup (map ResolvedPath (LocalModules out)).
Proof.
  split; [apply RangeValid_mapOrder|].
  eexists. split; [by vm_compute|]. split; [by vm_compute|].
  cbn. rewrite !NoDup_cons. intros (_ & Hcommon & _). apply Hcommon.
  right. left.
Qed.


(** The whole run on [/p]: [bad] is recorded and then fails to parse, which
    is only a warning; its siblings [good] and [gone] are processed after it,
    [gone], which cannot be listed, being skipped with a warning. *)
Example faulty_submodules_leave_warnings :
  exists out st,
    AnalyzeIO reverseOrder faultyEnv "/p" = Some (Ok out, st)
    /\ map Name (LocalModules out) = ["bad"; "good"]
    /\ loaded st = ["/p"; "/p/bad"; "/p/good"]
    /\ stderr st
       = [WarnFailedAnalyze "/p/bad"
            (ErrorfLoadModule "/p/bad"
               [{| tfconfig.Severity := tfconfig.DiagError;
                   tfconfig.Summary := "Invalid block definition" |}]);
          WarnCannotRead "/p/gone" (ErrReadDir "/p/gone")].
Proof. do 2 eexists. split; [by vm_compute|]. by vm_compute. Qed.

(** C10.  When the root directory cannot be listed, [Analyze] fails with the
    error "failed to list terraform files in root", whatever the parser would
    say about that directory; the same directory as the target of a local
    module call only makes the loop write a warning and go on with the
    remaining calls. *)
Theorem Analyze_fails_when_root_cannot_be_listed
        (rng : RangeOrder) (env : Env) (dir absDir : string) :
  Filepath.Abs (Getwd env) dir = Some absDir ->
  ReadDir env !! absDir = None ->
  Analyze rng env dir = Some (Err (ErrorfListRoot (ErrReadDir absDir)))
  /\ forall (recurse : string -> string -> State -> option (option error * State))
            (parent calledFrom name : string) (call : tfconfig.ModuleCall)
            (st : State) (rest : list (string * tfconfig.ModuleCall)),
      isLocalPath (tfconfig.Source call) = true ->
      resolveCall env parent call = absDir ->
      rangeCalls (processCall recurse env parent calledFrom) ((name, call) :: rest) st
      = rangeCalls (processCall recurse env parent calledFrom) rest
                   (warn (WarnCannotRead absDir (ErrReadDir absDir)) st).
Proof.
  intros Habs Hnone. split.
  - unfold Analyze, AnalyzeIO.
    by rewrite Habs, (listTerraformFiles_unlistable env absDir Hnone).
  - intros recurse parent calledFrom name call st rest Hlocal Hresolved.
    cbn [rangeCalls]. unfold processCall at 1.
    by rewrite Hlocal, Hresolved, (listTerraformFiles_unlistable env absDir Hnone).
Qed.

(** In a world where [/w/x] becomes absolute and parses without diagnostics
    but cannot be listed, [Analyze] on it fails: an error that is neither a
    failed canonicalization nor a failed parse of the root. *)
Lemma Analyze_fails_when_root_cannot_be_listed_witness :
  Filepath.Abs (Getwd unlistableEnv) "x" = Some "/w/x"
  /\ tfconfig.HasErrors (LoadModule unlistableEnv "/w/x").2 = false
  /\ Analyze mapOrder unlistableEnv "x" = Some (Err (ErrorfListRoot (ErrReadDir "/w/x")))
  /\ forall (recurse : string -> string -> State -> option (option error * State))
            (parent calledFrom name : string) (call : tfconfig.ModuleCall)
            (st : State) (rest : list (string * tfconfig.ModuleCall)),
      isLocalPath (tfconfig.Source call) = true ->
      resolveCall unlistableEnv parent call = "/w/x" ->
      rangeCalls (processCall recurse unlistableEnv parent calledFrom)
                 ((name, call) :: rest) st
      = rangeCalls (processCall recurse unlistableEnv parent calledFrom) rest
                   (warn (WarnCannotRead "/w/x" (ErrReadDir "/w/x")) st).
Proof.
  split; [reflexivity|]. split; [reflexivity|].
  apply (Analyze_fails_when_root_cannot_be_listed mapOrder unlistableEnv "x" "/w/x");
    reflexivity.
Defined.

(** * The circular reference *)

Section Cycle.
Variable rng : RangeOrder.
Variable env : Env.
Hypothesis rng_valid : RangeValid rng.

(** The enumeration of a map with a single local call: that call, among
    remote ones. *)
Lemma range_one_local (absDir name target : string) (call : tfconfig.ModuleCall) :
  OnlyLocalCall env absDir name call target ->
  exists l1 l2,
    rng absDir (tfconfig.ModuleCalls (LoadModule env absDir).1)
    = l1 ++ (name, call) :: l2
    /\ forall e, e ∈ l1 ++ l2 -> isLocalPath (tfconfig.Source e.2) = false.
Proof.
  intros (Hcall & _ & _ & Honly).
  set (calls := tfconfig.ModuleCalls (LoadModule env absDir).1) in *.
  pose proof (rng_valid absDir calls) as Hperm.
  assert (Hin : (name, call) ∈ rng absDir calls)
    by (rewrite Hperm; by apply elem_of_map_to_list).
  assert (Hnd : NoDup (rng absDir calls))
    by (rewrite Hperm; apply NoDup_map_to_list).
  apply list_elem_of_split in Hin as (l1 & l2 & Hsplit).
  exists l1, l2. split; [done|]. intros [n c] He. cbn.
  destruct (isLocalPath (tfconfig.Source c)) eqn:Hlocal; [exfalso|done].
  assert (Hlookup : calls !! n = Some c).
  { apply elem_of_map_to_list. rewrite <- Hperm, Hsplit.
    apply elem_of_app in He as [He|He]; apply elem_of_app; [by left|right; by right]. }
  pose proof (Honly n c Hlookup Hlocal) as ->.
  rewrite Hcall in Hlookup. injection Hlookup as <-.
  rewrite Hsplit in Hnd. apply NoDup_app in Hnd as (_ & Hl1 & Hl2).
  apply NoDup_cons in Hl2 as [Hl2 _].
  apply elem_of_app in He as [He|He]; [|done].
  apply (Hl1 _ He). left.
Qed.

(** Remote calls only add to [remoteModules]. *)
Lemma rangeCalls_remote_only
      (recurse : string -> string -> State -> option (option error * State))
      (absDir calledFrom : string) (l : list (string * tfconfig.ModuleCall)) :
  (forall e, e ∈ l -> isLocalPath (tfconfig.Source e.2) = false) ->
  forall st, exists st',
    rangeCalls (processCall recurse env absDir calledFrom) l st = Some st'
    /\ visited st' = visited st
    /\ localModules st' = localModules st
    /\ loaded st' = loaded st.
Proof.
  induction l as [|[n c] l IH]; intros Hremote st; cbn [rangeCalls]; [by eauto|].
  pose proof (Hremote (n, c) (list_elem_of_here _ _)) as Hnc. cbn [snd] in Hnc.
  unfold processCall at 1. rewrite Hnc.
  destruct (IH (fun e He => Hremote e (list_elem_of_further _ _ _ He))
               (appendRemote
                  {| RemoteModule.Name := n;
                     RemoteModule.Source := tfconfig.Source c;
                     RemoteModule.Version := tfconfig.Version c;
                     RemoteModule.CalledFrom :=
                       if String.eqb calledFrom "" then "(root)" else calledFrom |} st))
    as (st' & Hrun & Hv & Hm & Hl).
  by exists st'.
Qed.

Lemma analyzeRecursive_visited (fuel : nat) (dir calledFrom absDir : string) (st : State) :
  Filepath.Abs (Getwd env) dir = Some absDir ->
  absDir ∈ visited st ->
  analyzeRecursive (S fuel) rng env dir calledFrom st = Some (None, st).
Proof. intros Habs Hin. cbn [analyzeRecursive]. by rewrite Habs, decide_True. Qed.

Lemma analyzeRecursive_fresh (fuel : nat) (dir calledFrom absDir : string) (st : State) :
  Filepath.Abs (Getwd env) dir = Some absDir ->
  absDir ∉ visited st ->
  tfconfig.HasErrors (LoadModule env absDir).2 = false ->
  analyzeRecursive (S fuel) rng env dir calledFrom st
  = match rangeCalls (processCall (analyzeRecursive fuel rng env) env absDir calledFrom)
                     (rng absDir (tfconfig.ModuleCalls (LoadModule env absDir).1))
                     (logLoad absDir (markVisited absDir st)) with
    | None => None
    | Some st' => Some (None, st')
    end.
Proof.
  intros Habs Hfresh Hparses. cbn [analyzeRecursive].
  rewrite Habs, decide_False by done.
  destruct (LoadModule env absDir) as [module diags]. cbn [fst snd] in *.
  by rewrite Hparses.
Qed.

(** A directory with a single local call whose target is already visited:
    the step loads it, appends the call's record and descends no further. *)
Lemma analyzeRecursive_back_edge
      (fuel : nat) (B A name calledFrom : string) (call : tfconfig.ModuleCall)
      (files : list string) (st : State) :
  Canonical env A -> Canonical env B ->
  tfconfig.HasErrors (LoadModule env B).2 = false ->
  OnlyLocalCall env B name call A ->
  listTerraformFiles env A = Ok files ->
  A ∈ visited st -> B ∉ visited st ->
  exists st',
    analyzeRecursive (S (S fuel)) rng env B calledFrom st = Some (None, st')
    /\ localModules st'
       = localModules st ++ [{| Name := name; Source := tfconfig.Source call;
                                ResolvedPath := A; Files := files |}]
    /\ loaded st' = loaded st ++ [B].
Proof.
  intros HA HB Hparses Honly Hls HinA HfreshB.
  rewrite (analyzeRecursive_fresh _ _ _ B) by done.
  destruct (range_one_local _ _ _ _ Honly) as (l1 & l2 & -> & Hremote).
  destruct Honly as (_ & Hlocal & Hresolve & _).
  rewrite rangeCalls_app.
  destruct (rangeCalls_remote_only (analyzeRecursive (S fuel) rng env) B calledFrom l1)
    with (st := logLoad B (markVisited B st)) as (s1 & -> & Hv1 & Hm1 & Hl1).
  { intros e He. apply Hremote, elem_of_app. by left. }
  cbn [rangeCalls]. unfold processCall at 1.
  rewrite Hlocal, Hresolve, Hls.
  rewrite (analyzeRecursive_visited _ _ _ A) by (done || (cbn; rewrite Hv1; cbn; set_solver)).
  destruct (rangeCalls_remote_only (analyzeRecursive (S fuel) rng env) B calledFrom l2)
    with (st := appendLocal {| Name := name; Source := tfconfig.Source call;
                               ResolvedPath := A; Files := files |} s1)
    as (s2 & -> & Hv2 & Hm2 & Hl2).
  { intros e He. apply Hremote, elem_of_app. by right. }
  exists s2. split; [done|]. rewrite Hm2, Hl2. cbn. by rewrite Hm1, Hl1.
Qed.

Lemma two_listable_directories (A B : string) (filesA filesB : list string) :
  A ≠ B ->
  listTerraformFiles env A = Ok filesA -> listTerraformFiles env B = Ok filesB ->
  exists k, size (ReadDir env) = S (S k).
Proof.
  clear rng_valid.
  intros Hne HA%listTerraformFiles_Ok_dom HB%listTerraformFiles_Ok_dom.
  assert (size ({[A; B]} : gset string) <= size (dom (ReadDir env)))
    by (apply subseteq_size; set_solver).
  rewrite size_union, !size_singleton, size_dom in H by set_solver.
  destruct (size (ReadDir env)) as [|[|k]]; [lia|lia|by exists k].
Qed.

End Cycle.

(** C3.  Let the canonical directories [A] and [B] be different, listable
    and free of parse errors, let the only local call of [A] resolve to [B]
    and the only local call of [B] resolve back to [A].  Then [Analyze]
    started from [A] returns a result: the traversal loads [A], then [B], and
    nothing else, and [LocalModules] holds exactly two records, the call of
    [A] to [B] followed by the call of [B] to [A]. *)
Theorem Analyze_cycle_terminates_with_two_records
        (rng : RangeOrder) (env : Env) (dir A B nameB nameA : string)
        (callB callA : tfconfig.ModuleCall) (filesA filesB : list string) :
  RangeValid rng ->
  A ≠ B ->
  Filepath.Abs (Getwd env) dir = Some A ->
  Canonical env A ->
  Canonical env B ->
  listTerraformFiles env A = Ok filesA ->
  listTerraformFiles env B = Ok filesB ->
  tfconfig.HasErrors (LoadModule env A).2 = false ->
  tfconfig.HasErrors (LoadModule env B).2 = false ->
  OnlyLocalCall env A nameB callB B ->
  OnlyLocalCall env B nameA callA A ->
  exists out st,
    AnalyzeIO rng env dir = Some (Ok out, st)
    /\ Analyze rng env dir = Some (Ok out)
    /\ LocalModules out
       = [{| Name := nameB; Source := tfconfig.Source callB;
             ResolvedPath := B; Files := filesB |};
          {| Name := nameA; Source := tfconfig.Source callA;
             ResolvedPath := A; Files := filesA |}]
    /\ length (LocalModules out) = 2
    /\ loaded st = [A; B].
Proof.
  intros Hvalid Hne Hdir HA HB HlsA HlsB HparsesA HparsesB HonlyA HonlyB.
  destruct (two_listable_directories env A B filesA filesB Hne HlsA HlsB) as [k Hsize].
  assert (exists st,
             analyzeRecursive (S (size (ReadDir env))) rng env A "" initState
             = Some (None, st)
             /\ localModules st
                = [{| Name := nameB; Source := tfconfig.Source callB;
                      ResolvedPath := B; Files := filesB |};
                   {| Name := nameA; Source := tfconfig.Source callA;
                      ResolvedPath := A; Files := filesA |}]
             /\ loaded st = [A; B]) as (st & Hrun & Hlocal & Hloaded).
  { rewrite Hsize.
    rewrite (analyzeRecursive_fresh rng env _ _ _ A) by (done || set_solver).
    destruct (range_one_local rng env Hvalid _ _ _ _ HonlyA) as (l1 & l2 & -> & Hremote).
    destruct HonlyA as (_ & HlocalB & HresolveB & _).
    rewrite rangeCalls_app.
    destruct (rangeCalls_remote_only env (analyzeRecursive (S (S k)) rng env) A "" l1)
      with (st := logLoad A (markVisited A initState)) as (s1 & -> & Hv1 & Hm1 & Hl1).
    { intros e He. apply Hremote, elem_of_app. by left. }
    cbn [rangeCalls]. unfold processCall at 1.
    rewrite HlocalB, HresolveB, HlsB.
    destruct (analyzeRecursive_back_edge rng env Hvalid k B A nameA nameB callA filesA
                (appendLocal {| Name := nameB; Source := tfconfig.Source callB;
                                ResolvedPath := B; Files := filesB |} s1))
      as (s2 & -> & Hm2 & Hl2); try done.
    { cbn. rewrite Hv1. cbn. set_solver. }
    { cbn. rewrite Hv1. cbn. set_solver. }
    destruct (rangeCalls_remote_only env (analyzeRecursive (S (S k)) rng env) A "" l2)
      with (st := s2) as (s3 & -> & Hv3 & Hm3 & Hl3).
    { intros e He. apply Hremote, elem_of_app. by right. }
    exists s3. split; [done|]. rewrite Hm3, Hl3, Hm2, Hl2. cbn.
    by rewrite Hm1, Hl1. }
  eexists _, st. unfold Analyze, AnalyzeIO. rewrite Hdir, HlsA, Hrun. cbn.
  split; [done|]. split; [done|]. rewrite Hlocal. by repeat split.
Qed.

(** The repository's circular test: [module_a] calls [../module_b], which
    calls [../module_a]; the analysis is started in [module_a], given
    relative to the working directory [/t]. *)
Lemma Analyze_cycle_terminates_with_two_records_witness :
  exists out st,
    AnalyzeIO mapOrder cycleEnv "module_a" = Some (Ok out, st)
    /\ Analyze mapOrder cycleEnv "module_a" = Some (Ok out)
    /\ LocalModules out
       = [{| Name := "b"; Source := "../module_b";
             ResolvedPath := "/t/module_b"; Files := ["/t/module_b/main.tf"] |};
          {| Name := "a"; Source := "../module_a";
             ResolvedPath := "/t/module_a"; Files := ["/t/module_a/main.tf"] |}]
    /\ length (LocalModules out) = 2
    /\ loaded st = ["/t/module_a"; "/t/module_b"].
Proof.
  apply (Analyze_cycle_terminates_with_two_records
           mapOrder cycleEnv "module_a" "/t/module_a" "/t/module_b" "b" "a"
           (localCall "../module_b") (localCall "../module_a")
           ["/t/module_a/main.tf"] ["/t/module_b/main.tf"]).
  - apply RangeValid_mapOrder.
  - discriminate.
  - reflexivity.
  - reflexivity.
  - reflexivity.
  - reflexivity.
  - reflexivity.
  - reflexivity.
  - reflexivity.
  - assert (tfconfig.ModuleCalls (LoadModule cycleEnv "/t/module_a").1
            = {[ "b" := localCall "../module_b" ]}) as Hcalls by reflexivity.
    unfold OnlyLocalCall. rewrite Hcalls.
    split; [reflexivity|]. split; [reflexivity|]. split; [reflexivity|].
    by intros n c [-> _]%lookup_singleton_Some.
  - assert (tfconfig.ModuleCalls (LoadModule cycleEnv "/t/module_b").1
            = {[ "a" := localCall "../module_a" ]}) as Hcalls by reflexivity.
    unfold OnlyLocalCall. rewrite Hcalls.
    split; [reflexivity|]. split; [reflexivity|]. split; [reflexivity|].
    by intros n c [-> _]%lookup_singleton_Some.
Defined.

(** * The repository's tests, replayed on the embedding *)

(** [TestAnalyze]: a root that calls a local module with a nested module and
    a registry module. *)
Example TestAnalyze :
  exists out,
    Analyze mapOrder analyzeTestEnv "/tmp/t/root" = Some (Ok out)
    /\ ResolvedPath (RootModule out) = "/tmp/t/root"
    /\ length (Files (RootModule out)) = 1
    /\ map ResolvedPath (LocalModules out)
       = ["/tmp/t/modules/vpc"; "/tmp/t/modules/vpc/subnets"]
    /\ RemoteModules out
       = [{| RemoteModule.Name := "eks";
             RemoteModule.Source := "terraform-aws-modules/eks/aws";
             RemoteModule.Version := "~> 19.0";
             RemoteModule.CalledFrom := "(root)" |}].
Proof. eexists. split; [by vm_compute|]. by vm_compute. Qed.

(** [TestAnalyze_EmptyDir] *)
Example TestAnalyze_EmptyDir :
  Analyze mapOrder emptyDirEnv "/tmp/empty"
  = Some (Ok {| RootModule := {| Name := ""; Source := "";
                                 ResolvedPath := "/tmp/empty"; Files := [] |};
                LocalModules := []; RemoteModules := [] |}).
Proof. by vm_compute. Qed.

(** [TestListTerraformFiles]: only the [.tf] and [.tf.json] files, and no
    directory, are listed. *)
Example TestListTerraformFiles :
  listTerraformFiles listTestEnv "/tmp/l"
  = Ok ["/tmp/l/main.tf"; "/tmp/l/outputs.tf.json"; "/tmp/l/variables.tf"].
Proof. by vm_compute. Qed.

(** [TestFilterRelatedFiles] and [TestCollectAllFiles] on the filter test's tree. *)
Example TestFilterRelatedFiles :
  exists out,
    Analyze reverseOrder filterTestEnv "/t/root" = Some (Ok out)
    /\ out = filterOutput
    /\ CollectAllFiles out
       = ["/t/root/main.tf"; "/t/modules/vpc/main.tf"; "/t/modules/vpc/variables.tf";
          "/t/modules/iam/main.tf"]
    /\ FilterRelatedFiles (Some "/t") (CollectAllFiles out) ["/t/modules/vpc/main.tf"] out
       = ["/t/modules/vpc/main.tf"; "/t/modules/vpc/variables.tf"]
    /\ FilterRelatedFiles (Some "/t") (CollectAllFiles out) ["/t/root/main.tf"] out
       = ["/t/root/main.tf"]
    /\ FilterRelatedFiles (Some "/t") (CollectAllFiles out) ["/some/other/path/file.tf"] out
       = [].
Proof. eexists. split; [by vm_compute|]. by vm_compute. Qed.

(** [TestIsInDirectory] *)
Example TestIsInDirectory :
  map (fun '(filePath, dirPath) => isInDirectory filePath dirPath)
      [("/a/b/c/file.tf", "/a/b/c"); ("/a/b/c/d/file.tf", "/a/b/c");
       ("/a/b/file.tf", "/a/b/c"); ("/a/b/c", "/a/b/c");
       ("/other/path/file.tf", "/a/b/c")]
  = [true; true; false; true; false].
Proof. by vm_compute. Qed.

(** [TestIsAffected] *)
Example TestIsAffected :
  IsAffected (Some "/t") ["/t/root/main.tf"] filterOutput = true
  /\ IsAffected (Some "/t") ["/t/modules/vpc/main.tf"] filterOutput = true
  /\ IsAffected (Some "/t") ["/some/other/path/file.tf"] filterOutput = false
  /\ IsAffected (Some "/t") [] filterOutput = false.
Proof. by vm_compute. Qed.

(** * Absolute paths stay absolute *)

Section Rooted.
Import GoStrings Filepath.

Lemma HasPrefix_empty (s : string) : HasPrefix s "" = true.
Proof. unfold HasPrefix, slice. cbn. by rewrite substring_0_0. Qed.

Lemma IsAbs_cons (c : ascii) (s : string) : IsAbs (String c s) = IsPathSeparator c.
Proof.
  unfold IsAbs. change "/" with (String "/"%char "").
  by rewrite HasPrefix_cons, HasPrefix_empty, andb_true_r.
Qed.

Lemma append_cons (c : ascii) (s t : string) : String c s +:+ t = String c (s +:+ t).
Proof. reflexivity. Qed.

Lemma IsAbs_append (s t : string) : IsAbs s = true -> IsAbs (s +:+ t) = true.
Proof. destruct s as [|c s]; [done|]. by rewrite append_cons, !IsAbs_cons. Qed.

Lemma IsAbs_slice (s : string) (w : nat) :
  IsAbs s = true -> 1 <= w -> IsAbs (slice s 0 w) = true.
Proof.
  destruct s as [|c s]; [done|]. destruct w as [|w]; [lia|]. intros Hs _.
  unfold slice. cbn [Nat.sub String.substring]. by rewrite IsAbs_cons in *.
Qed.

Lemma backtrack_ge (fuel : nat) (out : string) (w dotdot : nat) :
  dotdot <= w -> dotdot <= backtrack fuel out w dotdot.
Proof.
  revert w. induction fuel as [|fuel IH]; intros w Hw; cbn [backtrack]; [done|].
  destruct (dotdot <? w) eqn:Hlt; cbn [andb]; [|done]. apply Nat.ltb_lt in Hlt.
  destruct (negb _); [|done]. apply IH. lia.
Qed.

Lemma copyElem_rooted (fuel : nat) (path : string) (n r : nat) (out : string) :
  IsAbs out = true -> IsAbs (copyElem fuel path n r out).2 = true.
Proof.
  revert r out. induction fuel as [|fuel IH]; intros r out Hout; cbn [copyElem]; [done|].
  destruct ((r <? n) && negb _); [|done]. by apply IH, IsAbs_append.
Qed.

Lemma cleanLoop_rooted (fuel : nat) (path : string) (n r : nat) (out : string) :
  IsAbs out = true -> IsAbs (cleanLoop fuel path n true r out 1) = true.
Proof.
  revert r out. induction fuel as [|fuel IH]; intros r out Hout; cbn [cleanLoop]; [done|].
  destruct (negb (r <? n)); [done|].
  destruct (IsPathSeparator (byteAt path r)); [by apply IH|].
  destruct (isDot (byteAt path r) && _); [by apply IH|].
  destruct (isDot (byteAt path r) && isDot (byteAt path (r + 1)) && _).
  - destruct (1 <? String.length out) eqn:Hlt; cbn [negb]; [|by apply IH].
    apply Nat.ltb_lt in Hlt. apply IH, IsAbs_slice; [done|].
    apply backtrack_ge. lia.
  - cbn [andb negb orb].
    match goal with
    | |- context [copyElem n path n r ?o] =>
        pose proof (copyElem_rooted n path n r o) as Hcopy;
        destruct (copyElem n path n r o) as [r' out2]
    end.
    apply IH, Hcopy. by destruct (negb (String.length out =? 1)); [apply IsAbs_append|].
Qed.

(** [filepath.Clean] answers an absolute path when given one. *)
Lemma Clean_rooted (path : string) : IsAbs path = true -> IsAbs (Clean path) = true.
Proof.
  destruct path as [|c path]; [done|]. rewrite IsAbs_cons. intros Hc.
  unfold Clean. cbn [String.eqb byteAt String.get]. rewrite Hc.
  pose proof (cleanLoop_rooted (String.length (String c path)) (String c path)
                (String.length (String c path)) 1 (ofByte Separator) eq_refl) as Hout.
  destruct (cleanLoop _ _ _ _ _ _ _) as [|c' out]; [done|]. done.
Qed.

Lemma Join_rooted (dir name : string) :
  IsAbs dir = true -> IsAbs (Join [dir; name]) = true.
Proof.
  intros Hdir. destruct dir as [|c dir]; [done|]. cbn [Join String.eqb].
  apply Clean_rooted. cbn [GoStrings.Join]. by rewrite append_cons, IsAbs_cons in *.
Qed.

(** [filepath.Abs] of an absolute path does not consult the working
    directory, and its answer is absolute. *)
Lemma Abs_of_absolute (getwd : option string) (path : string) :
  IsAbs path = true ->
  Abs getwd path = Some (Clean path) /\ IsAbs (Clean path) = true.
Proof. intros Hp. unfold Abs. rewrite Hp. split; [done|by apply Clean_rooted]. Qed.

(** Whenever the working directory, if known, is absolute, so is every
    answer of [filepath.Abs]. *)
Lemma Abs_rooted (getwd : option string) (path absPath : string) :
  (forall wd, getwd = Some wd -> IsAbs wd = true) ->
  Abs getwd path = Some absPath -> IsAbs absPath = true.
Proof.
  intros Hwd. unfold Abs. destruct (IsAbs path) eqn:Hp.
  - intros [= <-]. by apply Clean_rooted.
  - destruct getwd as [wd|]; [|discriminate]. intros [= <-].
    apply Join_rooted, Hwd. done.
Qed.

End Rooted.

(** * What every result of [Analyze] satisfies *)

Section RunInvariants.
Variable rng : RangeOrder.
Variable env : Env.

(** A property that holds of every record the loop can append holds of all
    the records of the traversal.  The record of a call is appended for a
    directory [absDir] that [filepath.Abs] answered. *)
Lemma analyzeRecursive_locals (P : ModuleDetail -> Prop) :
  (forall dir absDir name call files,
      Filepath.Abs (Getwd env) dir = Some absDir ->
      isLocalPath (tfconfig.Source call) = true ->
      listTerraformFiles env (resolveCall env absDir call) = Ok files ->
      P {| Name := name; Source := tfconfig.Source call;
           ResolvedPath := resolveCall env absDir call; Files := files |}) ->
  forall (fuel : nat) (dir calledFrom : string) (st st' : State) (r : option error),
    analyzeRecursive fuel rng env dir calledFrom st = Some (r, st') ->
    (forall m, m ∈ localModules st -> P m) ->
    forall m, m ∈ localModules st' -> P m.
Proof.
  intros Hnew. induction fuel as [|fuel IH]; intros dir calledFrom st st' r Hrun Hst;
    [discriminate|].
  cbn [analyzeRecursive] in Hrun.
  destruct (Filepath.Abs (Getwd env) dir) as [absDir|] eqn:Habs;
    [|by injection Hrun as <- <-].
  destruct (decide (absDir ∈ visited st)); [by injection Hrun as <- <-|].
  destruct (LoadModule env absDir) as [module diags].
  destruct (tfconfig.HasErrors diags); [by injection Hrun as <- <-|].
  destruct (rangeCalls _ _ _) as [st2|] eqn:Hloop; [|discriminate].
  injection Hrun as <- <-.
  eapply (rangeCalls_invariant (fun s => forall m, m ∈ localModules s -> P m));
    [| |exact Hloop]; [|exact Hst].
  intros s [name call] s' _ Hs Hturn.
  apply processCall_cases in Hturn
    as [[_ [m ->]]|[[_ (err & _ & ->)]|[Hlocal (files & r' & s2 & Hls & Hrec & ->)]]];
    [done|done|].
  assert (forall m, m ∈ localModules s2 -> P m) as Hs2.
  { eapply IH; [exact Hrec|]. cbn. intros m [Hm|Hm]%elem_of_app; [by apply Hs|].
    apply list_elem_of_singleton in Hm as ->. by eapply Hnew. }
  by destruct r'.
Qed.

Lemma processCall_remote
      (recurse : string -> string -> State -> option (option error * State))
      (absDir calledFrom : string) (st : State) (entry : string * tfconfig.ModuleCall) :
  isLocalPath (tfconfig.Source entry.2) = false ->
  processCall recurse env absDir calledFrom st entry
  = Some (appendRemote (remoteReference calledFrom entry) st).
Proof. destruct entry as [name call]. cbn [snd]. unfold processCall. by intros ->. Qed.

Lemma remoteReference_labelled (calledFrom : string) (entry : string * tfconfig.ModuleCall) :
  RemoteModule.CalledFrom (remoteReference calledFrom entry) ≠ ""
  /\ (calledFrom = "" -> RemoteModule.CalledFrom (remoteReference calledFrom entry) = "(root)")
  /\ (calledFrom ≠ "" -> RemoteModule.CalledFrom (remoteReference calledFrom entry) = calledFrom).
Proof.
  cbn. destruct (String.eqb calledFrom "") eqn:Heq.
  - apply String.eqb_eq in Heq. by subst.
  - apply String.eqb_neq in Heq. done.
Qed.

(** The remote references keep their shape through the traversal, and the
    local records only grow. *)
Lemma analyzeRecursive_remotes (fuel : nat) :
  forall (dir calledFrom : string) (st st' : State) (r : option error),
    analyzeRecursive fuel rng env dir calledFrom st = Some (r, st') ->
    RemotesOk st -> CallerKnown calledFrom st ->
    RemotesOk st' /\ forall m, m ∈ localModules st -> m ∈ localModules st'.
Proof.
  induction fuel as [|fuel IH]; intros dir calledFrom st st' r Hrun Hst Hcaller;
    [discriminate|].
  cbn [analyzeRecursive] in Hrun.
  destruct (Filepath.Abs (Getwd env) dir) as [absDir|]; [|by injection Hrun as <- <-].
  destruct (decide (absDir ∈ visited st)); [by injection Hrun as <- <-|].
  destruct (LoadModule env absDir) as [module diags].
  destruct (tfconfig.HasErrors diags); [by injection Hrun as <- <-|].
  destruct (rangeCalls _ _ _) as [st2|] eqn:Hloop; [|discriminate].
  injection Hrun as <- <-.
  eapply (rangeCalls_invariant
            (fun s => RemotesOk s /\ forall m, m ∈ localModules st -> m ∈ localModules s));
    [| |exact Hloop]; [|split; [exact Hst|done]].
  intros s [name call] s' _ [Hs Hgrow] Hturn.
  destruct (isLocalPath (tfconfig.Source call)) eqn:Hlocal.
  - apply processCall_cases in Hturn
      as [[Hremote _]|[[_ (err & _ & ->)]|[_ (files & r' & s2 & Hls & Hrec & ->)]]];
      [congruence|done|].
    apply IH in Hrec as [Hs2 Hgrow2].
    + split; [by destruct r'|]. intros m Hm.
      assert (m ∈ localModules s2) by (apply Hgrow2; cbn; apply elem_of_app; left; auto).
      by destruct r'.
    + intros rm Hrm. destruct (Hs rm Hrm) as (Hsrc & Hne & Hlabel).
      split; [done|]. split; [done|]. destruct Hlabel as [|(m & Hm & Hname)]; [by left|].
      right. exists m. split; [|done]. cbn. apply elem_of_app. by left.
    + right. eexists. split; [cbn; apply elem_of_app; right; left|done].
  - rewrite processCall_remote in Hturn by done. injection Hturn as <-.
    split; [|done]. intros rm [Hrm|Hrm]%elem_of_app; [by apply Hs|].
    apply list_elem_of_singleton in Hrm as ->.
    destruct (remoteReference_labelled calledFrom (name, call)) as (Hne & Hroot & Hother).
    split; [done|]. split; [done|].
    destruct (decide (calledFrom = "")) as [Hempty|Hnonempty]; [left; by apply Hroot|].
    right. rewrite (Hother Hnonempty).
    destruct Hcaller as [|(m & Hm & Hname)]; [done|]. exists m. split; [by apply Hgrow|done].
Qed.

End RunInvariants.

Section Results.
Variable rng : RangeOrder.
Variable env : Env.

(** What a successful [Analyze] consists of. *)
Lemma Analyze_Ok_inv (dir : string) (out : Output) :
  Analyze rng env dir = Some (Ok out) ->
  exists absDir rootFiles st,
    Filepath.Abs (Getwd env) dir = Some absDir
    /\ listTerraformFiles env absDir = Ok rootFiles
    /\ analyzeRecursive (S (size (ReadDir env))) rng env absDir "" initState
       = Some (None, st)
    /\ out = {| RootModule := {| Name := ""; Source := ""; ResolvedPath := absDir;
                                 Files := rootFiles |};
                LocalModules := localModules st;
                RemoteModules := remoteModules st |}.
Proof.
  unfold Analyze. destruct (AnalyzeIO rng env dir) as [[res st]|] eqn:Hrun; [|discriminate].
  cbn. intros [= ->].
  apply AnalyzeIO_inv in Hrun
    as [(_ & err & Herr)|(absDir & rootFiles & r & Habs & Hls & Hrec & Hres)];
    [discriminate|].
  destruct r; [discriminate|]. injection Hres as ->. by exists absDir, rootFiles, st.
Qed.

Lemma listTerraformFiles_rooted (dir : string) (files : list string) :
  Filepath.IsAbs dir = true -> listTerraformFiles env dir = Ok files ->
  forall f, f ∈ files -> Filepath.IsAbs f = true.
Proof.
  intros Hdir. unfold listTerraformFiles. destruct (ReadDir env !! dir); [|discriminate].
  intros [= <-] f (entry & -> & _)%list_elem_of_fmap. by apply Join_rooted.
Qed.

Lemma resolveCall_rooted (absDir : string) (call : tfconfig.ModuleCall) :
  Filepath.IsAbs absDir = true -> Filepath.IsAbs (resolveCall env absDir call) = true.
Proof.
  intros Hdir. unfold resolveCall.
  pose proof (Join_rooted absDir (tfconfig.Source call) Hdir) as Hjoin.
  destruct (Abs_of_absolute (Getwd env) _ Hjoin) as [-> Hclean]. done.
Qed.

End Results.

(** X1.  The records of a successful [Analyze] hold the listing of their own
    directory: the root record has no name and no source, every local record
    has a local source, and the files of every record, root or local, are
    what [listTerraformFiles] answers for its [ResolvedPath].  Two records
    with the same path therefore hold the same files. *)
Theorem Analyze_records_hold_their_directory_listing
        (rng : RangeOrder) (env : Env) (dir : string) (out : Output) :
  Analyze rng env dir = Some (Ok out) ->
  Name (RootModule out) = "" /\ Source (RootModule out) = ""
  /\ (forall m, m ∈ LocalModules out -> isLocalPath (Source m) = true)
  /\ (forall m, m ∈ RootModule out :: LocalModules out ->
                listTerraformFiles env (ResolvedPath m) = Ok (Files m))
  /\ (forall m m', m ∈ RootModule out :: LocalModules out ->
                   m' ∈ RootModule out :: LocalModules out ->
                   ResolvedPath m = ResolvedPath m' -> Files m = Files m').
Proof.
  intros (absDir & rootFiles & st & Habs & Hls & Hrec & ->)%Analyze_Ok_inv. cbn.
  assert (forall m, m ∈ localModules st ->
                    isLocalPath (Source m) = true
                    /\ listTerraformFiles env (ResolvedPath m) = Ok (Files m)) as Hlocals.
  { eapply (analyzeRecursive_locals rng env
              (fun m => isLocalPath (Source m) = true
                        /\ listTerraformFiles env (ResolvedPath m) = Ok (Files m)));
      [|exact Hrec|by intros m ?%elem_of_nil].
    by intros. }
  assert (forall m, m ∈ {| Name := ""; Source := ""; ResolvedPath := absDir;
                           Files := rootFiles |} :: localModules st ->
                    listTerraformFiles env (ResolvedPath m) = Ok (Files m)) as Hall.
  { intros m [->|Hm]%elem_of_cons; [done|]. by apply Hlocals. }
  split; [done|]. split; [done|]. split; [intros m Hm; by apply Hlocals|].
  split; [done|]. intros m m' Hm Hm' Hpath.
  pose proof (Hall m Hm) as H1. pose proof (Hall m' Hm') as H2.
  rewrite Hpath in H1. congruence.
Qed.

Lemma Analyze_records_hold_their_directory_listing_witness :
  exists out,
    Analyze mapOrder diamondEnv "/r" = Some (Ok out)
    /\ Name (RootModule out) = "" /\ Source (RootModule out) = ""
    /\ (forall m, m ∈ LocalModules out -> isLocalPath (Source m) = true)
    /\ (forall m, m ∈ RootModule out :: LocalModules out ->
                  listTerraformFiles diamondEnv (ResolvedPath m) = Ok (Files m))
    /\ (forall m m', m ∈ RootModule out :: LocalModules out ->
                     m' ∈ RootModule out :: LocalModules out ->
                     ResolvedPath m = ResolvedPath m' -> Files m = Files m').
Proof.
  eexists. split; [by vm_compute|].
  apply (Analyze_records_hold_their_directory_listing mapOrder diamondEnv "/r").
  by vm_compute.
Defined.

(** X2.  Every remote reference of a successful [Analyze] has a source that
    is not local, and a caller label that is never empty: it is [(root)], or
    the name of one of the local records of the same result. *)
Theorem Analyze_remote_references_are_labelled
        (rng : RangeOrder) (env : Env) (dir : string) (out : Output) :
  Analyze rng env dir = Some (Ok out) ->
  forall r, r ∈ RemoteModules out ->
            isLocalPath (RemoteModule.Source r) = false
            /\ RemoteModule.CalledFrom r ≠ ""
            /\ (RemoteModule.CalledFrom r = "(root)"
                \/ exists m, m ∈ LocalModules out /\ Name m = RemoteModule.CalledFrom r).
Proof.
  intros (absDir & rootFiles & st & Habs & Hls & Hrec & ->)%Analyze_Ok_inv. cbn.
  apply analyzeRecursive_remotes in Hrec as [Hok _]; [exact Hok| |by left].
  by intros r ?%elem_of_nil.
Qed.

Lemma Analyze_remote_references_are_labelled_witness :
  exists out,
    Analyze mapOrder diamondEnv "/r" = Some (Ok out)
    /\ map RemoteModule.CalledFrom (RemoteModules out) = ["common"]
    /\ forall r, r ∈ RemoteModules out ->
                 isLocalPath (RemoteModule.Source r) = false
                 /\ RemoteModule.CalledFrom r ≠ ""
                 /\ (RemoteModule.CalledFrom r = "(root)"
                     \/ exists m, m ∈ LocalModules out /\ Name m = RemoteModule.CalledFrom r).
Proof.
  eexists. split; [by vm_compute|]. split; [by vm_compute|].
  apply (Analyze_remote_references_are_labelled mapOrder diamondEnv "/r").
  by vm_compute.
Defined.

(** X3.  When the working directory, if it is known, is absolute, every path
    of a successful [Analyze] is absolute: the [ResolvedPath] of the root and
    of every local record, and every file of every record. *)
Theorem Analyze_paths_are_absolute
        (rng : RangeOrder) (env : Env) (dir : string) (out : Output) :
  (forall wd, Getwd env = Some wd -> Filepath.IsAbs wd = true) ->
  Analyze rng env dir = Some (Ok out) ->
  forall m, m ∈ RootModule out :: LocalModules out ->
            Filepath.IsAbs (ResolvedPath m) = true
            /\ forall f, f ∈ Files m -> Filepath.IsAbs f = true.
Proof.
  intros Hwd (absDir & rootFiles & st & Habs & Hls & Hrec & ->)%Analyze_Ok_inv. cbn.
  pose proof (Abs_rooted _ _ _ Hwd Habs) as Hroot.
  intros m [->|Hm]%elem_of_cons; cbn.
  - split; [done|]. by eapply listTerraformFiles_rooted.
  - revert m Hm.
    eapply (analyzeRecursive_locals rng env
              (fun m => Filepath.IsAbs (ResolvedPath m) = true
                        /\ forall f, f ∈ Files m -> Filepath.IsAbs f = true));
      [|exact Hrec|by intros m ?%elem_of_nil].
    intros d a name call files Ha Hlocal Hfiles. cbn.
    pose proof (resolveCall_rooted env a call (Abs_rooted _ _ _ Hwd Ha)) as Hres.
    split; [done|]. by eapply listTerraformFiles_rooted.
Qed.

Lemma Analyze_paths_are_absolute_witness :
  exists out,
    Analyze mapOrder cycleEnv "module_a" = Some (Ok out)
    /\ forall m, m ∈ RootModule out :: LocalModules out ->
                 Filepath.IsAbs (ResolvedPath m) = true
                 /\ forall f, f ∈ Files m -> Filepath.IsAbs f = true.
Proof.
  eexists. split; [by vm_compute|].
  apply (Analyze_paths_are_absolute mapOrder cycleEnv "module_a").
  - intros wd [= <-]. reflexivity.
  - by vm_compute.
Defined.

(** X4.  [Analyze] fails in exactly three ways: the directory cannot be made
    absolute, the absolute root cannot be listed, or the root itself does not
    parse.  Nothing that happens below the root makes it fail. *)
Theorem Analyze_fails_in_exactly_three_ways
        (rng : RangeOrder) (env : Env) (dir : string) (err : error) :
  Analyze rng env dir = Some (Err err)
  <-> (Filepath.Abs (Getwd env) dir = None /\ err = ErrorfAbsolutePath ErrGetwd)
      \/ (exists absDir,
             Filepath.Abs (Getwd env) dir = Some absDir
             /\ ReadDir env !! absDir = None
             /\ err = ErrorfListRoot (ErrReadDir absDir))
      \/ (exists absDir visitedDir,
             Filepath.Abs (Getwd env) dir = Some absDir
             /\ is_Some (ReadDir env !! absDir)
             /\ Filepath.Abs (Getwd env) absDir = Some visitedDir
             /\ tfconfig.HasErrors (LoadModule env visitedDir).2 = true
             /\ err = ErrorfLoadModule visitedDir (LoadModule env visitedDir).2).
Proof.
  unfold Analyze, AnalyzeIO. split.
  - destruct (Filepath.Abs (Getwd env) dir) as [absDir|] eqn:Habs;
      [|intros [= <-]; by left].
    unfold listTerraformFiles.
    destruct (ReadDir env !! absDir) as [entries|] eqn:Hdir;
      [|intros [= <-]; right; left; by exists absDir].
    destruct (analyzeRecursive _ _ _ _ _ _) as [[[e|] st]|] eqn:Hrec; [|done|done].
    intros [= ->]. right. right.
    apply analyzeRecursive_error in Hrec
      as [[Hnone _]|(visitedDir & Hvisited & _ & Herrors & ->)].
    + exfalso. unfold Filepath.Abs in Habs, Hnone.
      destruct (Filepath.IsAbs absDir) eqn:HabsDir; [discriminate|].
      destruct (Getwd env); [discriminate|].
      destruct (Filepath.IsAbs dir) eqn:Hd; [|discriminate].
      injection Habs as <-. by rewrite Clean_rooted in HabsDir.
    + by exists absDir, visitedDir.
  - intros [[-> ->]|[(absDir & -> & Hnone & ->)|
                     (absDir & visitedDir & -> & [entries Hdir] & Hvisited & Herrors & ->)]].
    + done.
    + by rewrite (listTerraformFiles_unlistable env absDir Hnone).
    + unfold listTerraformFiles. rewrite Hdir.
      rewrite (analyzeRecursive_parse_error rng env _ _ _ visitedDir) by (done || set_solver).
      done.
Qed.

Section RemoteOnly.
Variable env : Env.

Lemma rangeCalls_all_remote
      (recurse : string -> string -> State -> option (option error * State))
      (absDir calledFrom : string) (l : list (string * tfconfig.ModuleCall)) (st : State) :
  (forall e, e ∈ l -> isLocalPath (tfconfig.Source e.2) = false) ->
  rangeCalls (processCall recurse env absDir calledFrom) l st
  = Some {| visited := visited st; localModules := localModules st;
            remoteModules := remoteModules st ++ map (remoteReference calledFrom) l;
            stderr := stderr st; loaded := loaded st |}.
Proof.
  revert st. induction l as [|e l IH]; intros st Hremote; cbn [rangeCalls map].
  - rewrite app_nil_r. by destruct st.
  - rewrite processCall_remote by (apply Hremote; left).
    rewrite IH by (intros e' He'; apply Hremote; by right).
    cbn. by rewrite <- app_assoc.
Qed.

End RemoteOnly.

(** X5.  A root that lists and parses and whose calls are all remote gives a
    result with no local module and one remote reference per call, each
    labelled [(root)], in the order of the enumeration; only the root is
    loaded, and nothing is written to the error stream.  This covers the
    directory without any module call. *)
Theorem Analyze_root_with_remote_calls_only
        (rng : RangeOrder) (env : Env) (dir absDir visitedDir : string)
        (rootFiles : list string) :
  Filepath.Abs (Getwd env) dir = Some absDir ->
  listTerraformFiles env absDir = Ok rootFiles ->
  Filepath.Abs (Getwd env) absDir = Some visitedDir ->
  tfconfig.HasErrors (LoadModule env visitedDir).2 = false ->
  (forall e, e ∈ rng visitedDir (tfconfig.ModuleCalls (LoadModule env visitedDir).1) ->
             isLocalPath (tfconfig.Source e.2) = false) ->
  exists st,
    AnalyzeIO rng env dir
    = Some (Ok {| RootModule := {| Name := ""; Source := ""; ResolvedPath := absDir;
                                   Files := rootFiles |};
                  LocalModules := [];
                  RemoteModules :=
                    map (fun e => {| RemoteModule.Name := e.1;
                                     RemoteModule.Source := tfconfig.Source e.2;
                                     RemoteModule.Version := tfconfig.Version e.2;
                                     RemoteModule.CalledFrom := "(root)" |})
                        (rng visitedDir (tfconfig.ModuleCalls (LoadModule env visitedDir).1)) |},
            st)
    /\ stderr st = [] /\ loaded st = [visitedDir].
Proof.
  intros Habs Hls Hvisited Hparses Hremote.
  unfold AnalyzeIO. rewrite Habs, Hls.
  rewrite (analyzeRecursive_fresh rng env _ _ _ visitedDir) by (done || set_solver).
  rewrite (rangeCalls_all_remote env _ _ _ _ _ Hremote). cbn.
  eexists. split; [reflexivity|]. done.
Qed.

Lemma Analyze_root_with_remote_calls_only_witness :
  exists st,
    AnalyzeIO mapOrder remoteOnlyEnv "app"
    = Some (Ok {| RootModule := {| Name := ""; Source := ""; ResolvedPath := "/srv/app";
                                   Files := ["/srv/app/main.tf"; "/srv/app/versions.tf"] |};
                  LocalModules := [];
                  RemoteModules :=
                    map (fun e => {| RemoteModule.Name := e.1;
                                     RemoteModule.Source := tfconfig.Source e.2;
                                     RemoteModule.Version := tfconfig.Version e.2;
                                     RemoteModule.CalledFrom := "(root)" |})
                        (mapOrder "/srv/app"
                           (tfconfig.ModuleCalls (LoadModule remoteOnlyEnv "/srv/app").1)) |},
            st)
    /\ stderr st = [] /\ loaded st = ["/srv/app"].
Proof.
  apply (Analyze_root_with_remote_calls_only
           mapOrder remoteOnlyEnv "app" "/srv/app" "/srv/app"
           ["/srv/app/main.tf"; "/srv/app/versions.tf"]); try reflexivity.
  intros e He. vm_compute in He.
  repeat (apply elem_of_cons in He as [->|He]; [reflexivity|]).
  by apply elem_of_nil in He.
Defined.

(** * The filter, in closed form *)

Section Selection.
Variable getwd : option string.
Variable output : Output.

Lemma filter_all_of {A : Type} (P : A -> Prop) `{!forall x, Decision (P x)} (l : list A) :
  (forall x, x ∈ l -> P x) -> filter P l = l.
Proof.
  induction l as [|x l IH]; intros HP; [done|].
  rewrite filter_cons_True by (apply HP; left).
  f_equal. apply IH. intros y Hy. apply HP. by right.
Qed.

Lemma filter_none_of {A : Type} (P : A -> Prop) `{!forall x, Decision (P x)} (l : list A) :
  (forall x, x ∈ l -> ~ P x) -> filter P l = [].
Proof.
  induction l as [|x l IH]; intros HP; [done|].
  rewrite filter_cons_False by (apply HP; left).
  apply IH. intros y Hy. apply HP. by right.
Qed.

Lemma filter_ext_elem {A : Type} (P Q : A -> Prop)
      `{!forall x, Decision (P x)} `{!forall x, Decision (Q x)} (l : list A) :
  (forall x, x ∈ l -> P x <-> Q x) -> filter P l = filter Q l.
Proof.
  induction l as [|x l IH]; intros Hext; [done|].
  rewrite !filter_cons.
  rewrite IH by (intros y Hy; apply Hext; by right).
  destruct (decide (P x)) as [HP|HP], (decide (Q x)) as [HQ|HQ]; try done.
  - exfalso. apply HQ, (Hext x); [left|done].
  - exfalso. apply HP, (Hext x); [left|done].
Qed.

(** The loop over the modules appends the files of the selected modules. *)
Lemma selection_loop (affected : gset string) (mods : list ModuleDetail)
      (acc : list string * gset string) :
  foldl (fun acc localMod =>
           if decide (ResolvedPath localMod ∈ affected)
           then appendUnseen (Files localMod) acc else acc) acc mods
  = appendUnseen
      (concat (map Files (filter (fun m => ResolvedPath m ∈ affected) mods))) acc.
Proof.
  revert acc. induction mods as [|m mods IH]; intros acc; cbn [foldl]; [done|].
  rewrite IH, filter_cons. destruct (decide (ResolvedPath m ∈ affected)); [|done].
  cbn [map concat]. by rewrite !appendUnseen_foldl, foldl_app.
Qed.

(** For a module of the result, to be marked affected is to have a changed
    path under it. *)
Lemma affected_iff_changedUnder (changedFiles : list string) (m : ModuleDetail) :
  m ∈ modulesOf output ->
  ResolvedPath m
    ∈ affectedModulePathsOf output
        (elements (foldl (fun paths f => {[absChanged getwd f]} ∪ paths)
                         (∅ : gset string) changedFiles))
  <-> changedUnder getwd changedFiles m.
Proof.
  intros Hm. rewrite affectedModulePaths_elem_of. unfold changedUnder.
  rewrite Exists_exists. split.
  - intros (c & Hc & [[Hunder Hpath]|(m' & _ & Hunder & Hpath)]);
      exists c; (split; [done|]); by rewrite Hpath.
  - intros (c & Hc & Hunder). exists c. split; [done|].
    apply elem_of_cons in Hm as [->|Hm]; [by left|]. right. by exists m.
Qed.

Lemma FilterRelatedFiles_keepFirst (allFiles changedFiles : list string) :
  FilterRelatedFiles getwd allFiles changedFiles output
  = keepFirst (concat (map Files (filter (changedUnder getwd changedFiles)
                                         (modulesOf output)))).
Proof.
  unfold FilterRelatedFiles.
  set (affected := affectedModulePathsOf output _).
  rewrite selection_loop.
  rewrite <- (filter_ext_elem (fun m => ResolvedPath m ∈ affected)
                              (changedUnder getwd changedFiles) (modulesOf output))
    by (intros m Hm; by apply affected_iff_changedUnder).
  unfold modulesOf. rewrite filter_cons.
  destruct (decide (ResolvedPath (RootModule output) ∈ affected)).
  - cbn [map concat]. rewrite <- appendUnseen_fresh.
    by rewrite !appendUnseen_foldl, foldl_app.
  - by rewrite appendUnseen_fresh.
Qed.

Lemma CollectAllFiles_keepFirst :
  CollectAllFiles output = keepFirst (concat (map Files (modulesOf output))).
Proof.
  unfold CollectAllFiles, modulesOf. cbn [map concat].
  rewrite appendUnseen_modules, !appendUnseen_foldl, <- foldl_app.
  rewrite <- appendUnseen_foldl. apply appendUnseen_fresh.
Qed.

Lemma elem_of_concat_Files (mods : list ModuleDetail) (f : string) :
  f ∈ concat (map Files mods) <-> exists m, m ∈ mods /\ f ∈ Files m.
Proof.
  rewrite list_elem_of_In, in_concat. split.
  - intros (files & Hfiles & Hf). apply in_map_iff in Hfiles as (m & <- & Hm).
    exists m. by rewrite !list_elem_of_In.
  - intros (m & Hm & Hf). exists (Files m). rewrite <- !list_elem_of_In.
    split; [|done]. apply list_elem_of_fmap. by exists m.
Qed.

Lemma IsAffected_iff_changedUnder (changedFiles : list string) :
  IsAffected getwd changedFiles output = true
  <-> exists m, m ∈ modulesOf output /\ changedUnder getwd changedFiles m.
Proof.
  unfold IsAffected, changedUnder, modulesOf. rewrite existsb_exists. split.
  - intros (c & Hc%list_elem_of_In & Hunder).
    apply orb_true_iff in Hunder as [Hroot|Hlocal].
    + exists (RootModule output). split; [left|]. apply Exists_exists. by exists c.
    + apply existsb_exists in Hlocal as (m & Hm%list_elem_of_In & Hunder).
      exists m. split; [by right|]. apply Exists_exists. by exists c.
  - intros (m & Hm & (c & Hc & Hunder)%Exists_exists).
    exists c. split; [by apply list_elem_of_In|]. apply orb_true_iff.
    apply elem_of_cons in Hm as [->|Hm]; [by left|right].
    apply existsb_exists. exists m. split; [by apply list_elem_of_In|done].
Qed.

End Selection.

(** X6.  [FilterRelatedFiles] returns, first occurrences only, the files of
    the modules (root first, then [LocalModules] in order) that have a changed
    path under them.  So a file is returned exactly when it is a file of such
    a module; no file is returned twice; and every returned file is among
    those of [CollectAllFiles]. *)
Theorem FilterRelatedFiles_selects_modules_with_a_change
        (getwd : option string) (allFiles changedFiles : list string) (output : Output) :
  FilterRelatedFiles getwd allFiles changedFiles output
  = keepFirst (concat (map Files (filter (changedUnder getwd changedFiles)
                                         (modulesOf output))))
  /\ (forall f, f ∈ FilterRelatedFiles getwd allFiles changedFiles output
                <-> exists m, m ∈ modulesOf output
                              /\ changedUnder getwd changedFiles m
                              /\ f ∈ Files m)
  /\ NoDup (FilterRelatedFiles getwd allFiles changedFiles output)
  /\ (forall f, f ∈ FilterRelatedFiles getwd allFiles changedFiles output ->
                f ∈ CollectAllFiles output).
Proof.
  rewrite FilterRelatedFiles_keepFirst, CollectAllFiles_keepFirst.
  assert (forall f,
             f ∈ keepFirst (concat (map Files (filter (changedUnder getwd changedFiles)
                                                      (modulesOf output))))
             <-> exists m, m ∈ modulesOf output
                           /\ changedUnder getwd changedFiles m /\ f ∈ Files m) as Hmem.
  { intros f. rewrite keepFirst_elem_of, elem_of_concat_Files. split.
    - intros (m & [Hsel Hm]%list_elem_of_filter & Hf). by exists m.
    - intros (m & Hm & Hsel & Hf). exists m. split; [|done].
      by apply list_elem_of_filter. }
  split; [done|]. split; [done|]. split; [apply keepFirst_NoDup|].
  intros f (m & Hm & _ & Hf)%Hmem.
  apply keepFirst_elem_of, elem_of_concat_Files. by exists m.
Qed.

(** X7.  The two modes agree.  [IsAffected] answers [true] exactly when some
    module has a changed path under it.  For every module with a changed
    path under it, [IsAffected] answers [true] and [FilterRelatedFiles]
    returns all the files of that very module; conversely every file that
    [FilterRelatedFiles] returns is a file of a module with a changed path
    under it.  When [IsAffected] answers [false], [FilterRelatedFiles]
    returns nothing. *)
Theorem IsAffected_agrees_with_FilterRelatedFiles
        (getwd : option string) (allFiles changedFiles : list string) (output : Output) :
  (IsAffected getwd changedFiles output = true
   <-> exists m, m ∈ modulesOf output /\ changedUnder getwd changedFiles m)
  /\ (forall m,
        m ∈ modulesOf output -> changedUnder getwd changedFiles m ->
        IsAffected getwd changedFiles output = true
        /\ forall f, f ∈ Files m ->
                     f ∈ FilterRelatedFiles getwd allFiles changedFiles output)
  /\ (forall f,
        f ∈ FilterRelatedFiles getwd allFiles changedFiles output ->
        IsAffected getwd changedFiles output = true
        /\ exists m, m ∈ modulesOf output
                     /\ changedUnder getwd changedFiles m /\ f ∈ Files m)
  /\ (IsAffected getwd changedFiles output = false ->
      FilterRelatedFiles getwd allFiles changedFiles output = []).
Proof.
  split; [apply IsAffected_iff_changedUnder|]. split; [|split].
  - intros m Hm Hsel. split; [apply IsAffected_iff_changedUnder; by exists m|].
    intros f Hf. rewrite FilterRelatedFiles_keepFirst.
    apply keepFirst_elem_of, elem_of_concat_Files. exists m. split; [|done].
    by apply list_elem_of_filter.
  - intros f. rewrite FilterRelatedFiles_keepFirst.
    intros (m & [Hsel Hm]%list_elem_of_filter & Hf)%keepFirst_elem_of%elem_of_concat_Files.
    split; [apply IsAffected_iff_changedUnder|]; by exists m.
  - intros Hnot. rewrite FilterRelatedFiles_keepFirst.
    rewrite (filter_none_of (changedUnder getwd changedFiles)); [done|].
    intros m Hm Hsel. apply not_true_iff_false in Hnot. apply Hnot.
    apply IsAffected_iff_changedUnder. by exists m.
Qed.

(** A change under [modules/vpc] alone: [IsAffected] answers [true], every
    file of the module [vpc] is returned, and every returned file is a file
    of a module with a change under it; a change under no module returns
    nothing. *)
Lemma IsAffected_agrees_with_FilterRelatedFiles_witness :
  vpcModule ∈ modulesOf filterOutput
  /\ changedUnder (Some "/t") ["modules/vpc/sub/y.tf"] vpcModule
  /\ IsAffected (Some "/t") ["modules/vpc/sub/y.tf"] filterOutput = true
  /\ (forall f, f ∈ Files vpcModule ->
                f ∈ FilterRelatedFiles (Some "/t") [] ["modules/vpc/sub/y.tf"] filterOutput)
  /\ (forall f,
         f ∈ FilterRelatedFiles (Some "/t") [] ["modules/vpc/sub/y.tf"] filterOutput ->
         exists m, m ∈ modulesOf filterOutput
                   /\ changedUnder (Some "/t") ["modules/vpc/sub/y.tf"] m /\ f ∈ Files m)
  /\ FilterRelatedFiles (Some "/t") [] ["README.md"] filterOutput = [].
Proof.
  assert (Hm : vpcModule ∈ modulesOf filterOutput) by (right; left).
  assert (Hc : changedUnder (Some "/t") ["modules/vpc/sub/y.tf"] vpcModule).
  { unfold changedUnder. apply Exists_cons_hd. by vm_compute. }
  destruct (IsAffected_agrees_with_FilterRelatedFiles
              (Some "/t") [] ["modules/vpc/sub/y.tf"] filterOutput)
    as (_ & Hall & Hback & _).
  destruct (Hall vpcModule Hm Hc) as [Haff Hfiles].
  split; [exact Hm|]. split; [exact Hc|]. split; [exact Haff|].
  split; [exact Hfiles|]. split; [intros f Hf; exact (proj2 (Hback f Hf))|].
  apply (IsAffected_agrees_with_FilterRelatedFiles (Some "/t") [] ["README.md"] filterOutput).
  by vm_compute.
Defined.

(** X8.  When every module of the result, the root included, has a changed
    path under it, [FilterRelatedFiles] returns what [CollectAllFiles] returns. *)
Theorem FilterRelatedFiles_of_changes_everywhere
        (getwd : option string) (allFiles changedFiles : list string) (output : Output) :
  (forall m, m ∈ modulesOf output -> changedUnder getwd changedFiles m) ->
  FilterRelatedFiles getwd allFiles changedFiles output = CollectAllFiles output.
Proof.
  intros Hall. rewrite FilterRelatedFiles_keepFirst, CollectAllFiles_keepFirst.
  by rewrite (filter_all_of (changedUnder getwd changedFiles)).
Qed.

Lemma FilterRelatedFiles_of_changes_everywhere_witness :
  FilterRelatedFiles (Some "/t") []
                     ["root/main.tf"; "/t/modules/iam/x.tf"; "modules/vpc/sub/y.tf"]
                     filterOutput
  = CollectAllFiles filterOutput.
Proof.
  apply FilterRelatedFiles_of_changes_everywhere.
  intros m Hm. unfold changedUnder. apply Exists_exists.
  repeat (apply elem_of_cons in Hm as [->|Hm]).
  - exists "root/main.tf". split; [left|by vm_compute].
  - exists "modules/vpc/sub/y.tf". split; [do 2 right; left|by vm_compute].
  - exists "/t/modules/iam/x.tf". split; [right; left|by vm_compute].
  - by apply elem_of_nil in Hm.
Defined.

(** X9.  [FilterRelatedFiles] depends neither on its first argument nor on
    the order or the multiplicity of the changed paths: two lists with the
    same entries give the same result. *)
Theorem FilterRelatedFiles_depends_on_the_set_of_changes
        (getwd : option string) (allFiles1 allFiles2 changed1 changed2 : list string)
        (output : Output) :
  (forall c, c ∈ changed1 <-> c ∈ changed2) ->
  FilterRelatedFiles getwd allFiles1 changed1 output
  = FilterRelatedFiles getwd allFiles2 changed2 output.
Proof.
  intros Hsame. rewrite !FilterRelatedFiles_keepFirst. do 3 f_equal.
  apply filter_ext_elem. intros m _. unfold changedUnder.
  rewrite !Exists_exists. split; intros (c & Hc & Hunder); exists c; (split; [|done]);
    by apply Hsame.
Qed.

Lemma FilterRelatedFiles_depends_on_the_set_of_changes_witness :
  FilterRelatedFiles (Some "/t") ["unused"]
                     ["modules/vpc/a.tf"; "root/b.tf"; "modules/vpc/a.tf"] filterOutput
  = FilterRelatedFiles (Some "/t") [] ["root/b.tf"; "modules/vpc/a.tf"] filterOutput.
Proof.
  apply FilterRelatedFiles_depends_on_the_set_of_changes.
  intros c. rewrite !elem_of_cons. pose proof (@elem_of_nil string c). tauto.
Defined.

(** ** Slices, suffixes and the listing of a directory *)

Section Slices.
Import GoStrings.

Lemma length_append (a b : string) :
  String.length (a +:+ b) = String.length a + String.length b.
Proof. induction a as [|c a IH]; [done|]. rewrite append_cons. cbn. by rewrite IH. Qed.

Lemma substring_all (s : string) : String.substring 0 (String.length s) s = s.
Proof. induction s as [|c s IH]; [done|]. cbn. by rewrite IH. Qed.

Lemma substring_append_skip (a b : string) (n : nat) :
  String.substring (String.length a) n (a +:+ b) = String.substring 0 n b.
Proof. induction a as [|c a IH]; [done|]. rewrite append_cons. cbn. exact IH. Qed.

Lemma substring_split (s : string) (k : nat) :
  k <= String.length s ->
  s = String.substring 0 k s +:+ String.substring k (String.length s - k) s.
Proof.
  revert k. induction s as [|c s IH]; intros k Hk.
  - cbn in Hk. assert (k = 0) as -> by lia. done.
  - destruct k as [|k].
    + by rewrite substring_0_0, Nat.sub_0_r, substring_all.
    + cbn in Hk. cbn [String.substring String.length]. rewrite append_cons.
      f_equal. change (S (String.length s) - S k) with (String.length s - k).
      apply IH. lia.
Qed.

Lemma HasSuffix_iff (s suffix : string) :
  HasSuffix s suffix = true <-> exists stem, s = stem +:+ suffix.
Proof.
  unfold HasSuffix, slice. rewrite andb_true_iff, Nat.leb_le, String.eqb_eq. split.
  - intros [Hle Heq].
    exists (String.substring 0 (String.length s - String.length suffix) s).
    rewrite <- Heq at 2. apply substring_split. lia.
  - intros [stem ->]. rewrite length_append. split; [lia|].
    replace (String.length stem + String.length suffix - String.length suffix)
      with (String.length stem) by lia.
    replace (String.length stem + String.length suffix - String.length stem)
      with (String.length suffix) by lia.
    rewrite substring_append_skip. apply substring_all.
Qed.

Lemma isTerraformFile_iff (entry : DirEntry) :
  isTerraformFile entry = true
  <-> IsDir entry = false
      /\ exists stem, EntryName entry = stem +:+ ".tf"
                      \/ EntryName entry = stem +:+ ".tf.json".
Proof.
  unfold isTerraformFile.
  rewrite andb_true_iff, negb_true_iff, orb_true_iff, !HasSuffix_iff.
  naive_solver.
Qed.

End Slices.

(** X10.  [listTerraformFiles] fails exactly when the directory cannot be
    read, and then with the error of [os.ReadDir].  Otherwise it returns, in
    the order of the directory listing, the path [filepath.Join(dir, name)]
    of every entry that is not a directory and whose name ends in [.tf] or
    in [.tf.json], and of no other entry: sub-directories are skipped even
    when they are named like a Terraform file, and a name that is only the
    suffix ([.tf]) counts. *)
Theorem listTerraformFiles_lists_the_tf_entries (env : Env) (dir : string) :
  (ReadDir env !! dir = None <-> listTerraformFiles env dir = Err (ErrReadDir dir))
  /\ (forall err, listTerraformFiles env dir = Err err -> err = ErrReadDir dir)
  /\ (forall entries, ReadDir env !! dir = Some entries ->
        exists kept,
          listTerraformFiles env dir
          = Ok (map (fun entry => Filepath.Join [dir; EntryName entry]) kept)
          /\ kept `sublist_of` entries
          /\ (forall entry,
                entry ∈ kept
                <-> entry ∈ entries
                    /\ IsDir entry = false
                    /\ exists stem, EntryName entry = stem +:+ ".tf"
                                    \/ EntryName entry = stem +:+ ".tf.json")
          /\ (forall name, subDir name ∉ kept)
          /\ (tfFile ".tf" ∈ entries -> tfFile ".tf" ∈ kept)).
Proof.
  unfold listTerraformFiles. split; [|split].
  - destruct (ReadDir env !! dir); split; done.
  - intros err. destruct (ReadDir env !! dir); [done|]. by intros [= <-].
  - intros entries ->.
    exists (filter (fun entry => isTerraformFile entry = true) entries).
    split; [done|]. split; [apply sublist_filter|].
    assert (forall entry,
              entry ∈ filter (fun entry => isTerraformFile entry = true) entries
              <-> entry ∈ entries
                  /\ IsDir entry = false
                  /\ exists stem, EntryName entry = stem +:+ ".tf"
                                  \/ EntryName entry = stem +:+ ".tf.json") as Hkept.
    { intros entry. rewrite list_elem_of_filter, isTerraformFile_iff. tauto. }
    split; [exact Hkept|]. split.
    + intros name [_ [Hdir _]]%Hkept. discriminate.
    + intros Hin. apply Hkept. split; [done|]. split; [done|].
      exists "". by left.
Qed.

(** ** Trimming and reading the standard input *)

Section Trim.
Import GoStrings.
Variable u : UnicodeTrim.

Lemma byteAt_S (c : ascii) (s : string) (i : nat) :
  byteAt (String c s) (S i) = byteAt s i.
Proof. reflexivity. Qed.

Lemma forallb_bytes (P : ascii -> bool) (s : string) :
  forallb P (list_ascii_of_string s) = true
  <-> forall i, i < String.length s -> P (byteAt s i) = true.
Proof.
  induction s as [|c s IH]; cbn [list_ascii_of_string forallb String.length].
  - split; [intros _ i Hi; lia | done].
  - rewrite andb_true_iff, IH. split.
    + intros [Hc Hs] [|i] Hi; [done|]. rewrite byteAt_S. apply Hs. lia.
    + intros H. split; [apply (H 0); lia|]. intros i Hi. apply (H (S i)). lia.
Qed.

Lemma bytes_append (a b : string) :
  list_ascii_of_string (a +:+ b) = list_ascii_of_string a ++ list_ascii_of_string b.
Proof. induction a as [|c a IH]; [done|]. rewrite append_cons. cbn. by rewrite IH. Qed.

Lemma allSpace_append (a b : string) :
  allSpace (a +:+ b) = allSpace a && allSpace b.
Proof. unfold allSpace. by rewrite bytes_append, forallb_app. Qed.

Lemma isASCII_append (a b : string) :
  isASCII (a +:+ b) = isASCII a && isASCII b.
Proof. unfold isASCII. by rewrite bytes_append, forallb_app. Qed.

Lemma isASCII_byteAt (s : string) (i : nat) :
  isASCII s = true -> i < String.length s -> nat_of_ascii (byteAt s i) < RuneSelf.
Proof.
  intros H Hi. apply Nat.ltb_lt.
  by apply (proj1 (forallb_bytes (fun c => nat_of_ascii c <? RuneSelf) s) H).
Qed.

Lemma substring_empty (s : string) (a : nat) : String.substring a 0 s = "".
Proof. revert a. induction s as [|c s IH]; intros [|a]; cbn; auto. Qed.

Lemma length_substring (s : string) (a n : nat) :
  a + n <= String.length s -> String.length (String.substring a n s) = n.
Proof.
  revert a n. induction s as [|c s IH]; intros a n H.
  - cbn in H. assert (a = 0) as -> by lia. assert (n = 0) as -> by lia. done.
  - cbn [String.length] in H. destruct a as [|a].
    + destruct n as [|n]; [done|]. cbn. f_equal. apply IH. lia.
    + cbn. apply IH. lia.
Qed.

Lemma byteAt_substring (s : string) (a n i : nat) :
  i < n -> byteAt (String.substring a n s) i = byteAt s (a + i).
Proof.
  intros Hi. unfold byteAt. rewrite substring_correct1 by done.
  by rewrite (Nat.add_comm i a).
Qed.

Lemma substring_split3 (s : string) (a b : nat) :
  a <= b -> b <= String.length s ->
  s = String.substring 0 a s
      +:+ String.substring a (b - a) s
      +:+ String.substring b (String.length s - b) s.
Proof.
  revert a b. induction s as [|c s IH]; intros a b Hab Hb.
  - cbn in Hb. assert (b = 0) as -> by lia. assert (a = 0) as -> by lia. done.
  - destruct a as [|a].
    + rewrite substring_0_0, Nat.sub_0_r. by apply substring_split.
    + destruct b as [|b]; [lia|]. cbn [String.length] in Hb.
      cbn [String.substring String.length]. rewrite append_cons. f_equal.
      change (S b - S a) with (b - a).
      change (S (String.length s) - S b) with (String.length s - b).
      apply IH; lia.
Qed.

Lemma scanStart_ascii (s : string) :
  isASCII s = true ->
  forall fuel start,
    start <= String.length s -> String.length s - start <= fuel ->
    exists k,
      scanStart fuel s start = Stopped k
      /\ (start <= k <= String.length s)
      /\ (forall i, start <= i < k -> asciiSpace (byteAt s i) = true)
      /\ (k = String.length s \/ asciiSpace (byteAt s k) = false).
Proof.
  intros Hascii. induction fuel as [|fuel IH]; intros start Hle Hfuel.
  - exists start. cbn. split; [done|]. split; [lia|]. split; [intros; lia|]. left; lia.
  - cbn [scanStart]. cbv zeta. destruct (start <? String.length s) eqn:Hlt.
    + apply Nat.ltb_lt in Hlt.
      assert ((RuneSelf <=? nat_of_ascii (byteAt s start)) = false) as ->.
      { apply Nat.leb_gt. by apply isASCII_byteAt. }
      destruct (asciiSpace (byteAt s start)) eqn:Hsp; cbn [negb].
      * destruct (IH (start + 1)) as (k & -> & Hk & Hall & Hend); [lia|lia|].
        exists k. split; [done|]. split; [lia|]. split; [|done].
        intros i Hi. destruct (decide (i = start)) as [->|Hne]; [done|].
        apply Hall. lia.
      * exists start. split; [done|]. split; [lia|]. split; [intros; lia|]. by right.
    + apply Nat.ltb_ge in Hlt. exists start.
      split; [done|]. split; [lia|]. split; [intros; lia|]. left; lia.
Qed.

Lemma scanStop_ascii (s : string) (start : nat) :
  isASCII s = true ->
  forall fuel stop,
    start <= stop -> stop <= String.length s -> stop - start <= fuel ->
    exists k,
      scanStop fuel s start stop = Stopped k
      /\ (start <= k <= stop)
      /\ (forall i, k <= i < stop -> asciiSpace (byteAt s i) = true)
      /\ (k = start \/ asciiSpace (byteAt s (k - 1)) = false).
Proof.
  intros Hascii. induction fuel as [|fuel IH]; intros stop Hle Hlen Hfuel.
  - exists stop. cbn. split; [done|]. split; [lia|]. split; [intros; lia|]. left; lia.
  - cbn [scanStop]. cbv zeta. destruct (start <? stop) eqn:Hlt.
    + apply Nat.ltb_lt in Hlt.
      assert ((RuneSelf <=? nat_of_ascii (byteAt s (stop - 1))) = false) as ->.
      { apply Nat.leb_gt. apply isASCII_byteAt; [done|lia]. }
      destruct (asciiSpace (byteAt s (stop - 1))) eqn:Hsp; cbn [negb].
      * destruct (IH (stop - 1)) as (k & -> & Hk & Hall & Hend); [lia|lia|lia|].
        exists k. split; [done|]. split; [lia|]. split; [|done].
        intros i Hi. destruct (decide (i = stop - 1)) as [->|Hne]; [done|].
        apply Hall. lia.
      * exists stop. split; [done|]. split; [lia|]. split; [intros; lia|]. by right.
    + apply Nat.ltb_ge in Hlt. exists stop.
      split; [done|]. split; [lia|]. split; [intros; lia|]. left; lia.
Qed.

(** On ASCII text [TrimSpace] cuts a run of spaces off each end, and what
    is left is empty or has no space at either end. *)
Lemma TrimSpace_ascii (s : string) :
  isASCII s = true ->
  exists pre post,
    s = pre +:+ TrimSpace u s +:+ post
    /\ allSpace pre = true /\ allSpace post = true
    /\ (TrimSpace u s = ""
        \/ asciiSpace (firstByte (TrimSpace u s)) = false
           /\ asciiSpace (lastByte (TrimSpace u s)) = false).
Proof.
  intros Hascii. unfold TrimSpace.
  destruct (scanStart_ascii s Hascii (String.length s) 0)
    as (start & -> & Hstart & Hpre & Hfirst); [lia|lia|].
  destruct (scanStop_ascii s start Hascii (String.length s) (String.length s))
    as (stop & -> & Hstop & Hpost & Hlast); [lia|lia|lia|].
  unfold slice.
  exists (String.substring 0 start s),
         (String.substring stop (String.length s - stop) s).
  split; [apply substring_split3; lia|].
  split.
  { apply forallb_bytes. intros i Hi. rewrite length_substring in Hi by lia.
    rewrite byteAt_substring by done. apply Hpre. lia. }
  split.
  { apply forallb_bytes. intros i Hi. rewrite length_substring in Hi by lia.
    rewrite byteAt_substring by done. apply Hpost. lia. }
  destruct Hlast as [->|Hlast].
  { left. rewrite Nat.sub_diag. apply substring_empty. }
  destruct (decide (stop = start)) as [->|Hne].
  { left. rewrite Nat.sub_diag. apply substring_empty. }
  right. unfold firstByte, lastByte.
  rewrite length_substring by lia. rewrite !byteAt_substring by lia.
  split.
  - rewrite Nat.add_0_r. destruct Hfirst as [->|Hfirst]; [lia|done].
  - replace (start + (stop - start - 1)) with (stop - 1) by lia. done.
Qed.

(** A text that starts and ends with an ASCII byte that is not a space is
    left as it is. *)
Lemma TrimSpace_trimmed (s : string) :
  s <> "" ->
  nat_of_ascii (firstByte s) < RuneSelf -> asciiSpace (firstByte s) = false ->
  nat_of_ascii (lastByte s) < RuneSelf -> asciiSpace (lastByte s) = false ->
  TrimSpace u s = s.
Proof.
  unfold firstByte, lastByte. intros Hne Hf1 Hf2 Hl1 Hl2. unfold TrimSpace.
  destruct (String.length s) as [|n] eqn:Hlen.
  { destruct s; [done|discriminate]. }
  cbn [scanStart]. cbv zeta. rewrite Hlen.
  change (0 <? S n) with true. cbv iota.
  apply Nat.leb_gt in Hf1. rewrite Hf1, Hf2. cbn [negb].
  cbn [scanStop]. cbv zeta. change (0 <? S n) with true. cbv iota.
  apply Nat.leb_gt in Hl1. rewrite Hl1, Hl2. cbn [negb].
  unfold slice. rewrite Nat.sub_0_r, <- Hlen. apply substring_all.
Qed.

Lemma TrimSpace_empty : TrimSpace u "" = "".
Proof. reflexivity. Qed.

Lemma TrimSpace_ascii_idempotent (s : string) :
  isASCII s = true -> TrimSpace u (TrimSpace u s) = TrimSpace u s.
Proof.
  intros Hascii.
  destruct (TrimSpace_ascii s Hascii) as (pre & post & Heq & _ & _ & Hcase).
  rewrite Heq in Hascii. rewrite !isASCII_append, !andb_true_iff in Hascii.
  destruct Hascii as (_ & Hmid & _).
  destruct Hcase as [->|[Hf Hl]]; [apply TrimSpace_empty|].
  destruct (decide (TrimSpace u s = "")) as [->|Hne]; [apply TrimSpace_empty|].
  assert (0 < String.length (TrimSpace u s)) as Hpos.
  { destruct (TrimSpace u s); [done|cbn; lia]. }
  apply TrimSpace_trimmed; try done.
  - apply isASCII_byteAt; [done|lia].
  - apply isASCII_byteAt; [done|lia].
Qed.

Lemma TrimSpace_empty_iff (s : string) :
  isASCII s = true -> TrimSpace u s = "" <-> allSpace s = true.
Proof.
  intros Hascii.
  destruct (TrimSpace_ascii s Hascii) as (pre & post & Heq & Hpre & Hpost & Hcase).
  split.
  - intros Hemp. rewrite Heq, Hemp, !allSpace_append, Hpre, Hpost. done.
  - intros Hall. destruct Hcase as [Hemp|[Hf _]]; [done|].
    destruct (TrimSpace u s) as [|c t] eqn:Ht; [done|]. exfalso.
    rewrite Heq, !allSpace_append, !andb_true_iff in Hall.
    destruct Hall as (_ & Hmid & _).
    unfold firstByte in Hf. cbn in Hf. unfold allSpace in Hmid. cbn in Hmid.
    apply andb_true_iff in Hmid as [Hc _]. congruence.
Qed.

Lemma readStdin_loop (texts acc : list string) :
  foldl (fun lines text =>
           let line := TrimSpace u text in
           if String.eqb line "" then lines else lines ++ [line])
        acc texts
  = acc ++ filter (fun line => line <> "") (map (TrimSpace u) texts).
Proof.
  revert acc. induction texts as [|text texts IH]; intros acc; cbn [foldl map].
  - by rewrite filter_nil, app_nil_r.
  - rewrite IH. rewrite filter_cons.
    destruct (String.eqb_spec (TrimSpace u text) "") as [Heq|Hne].
    + destruct (decide _) as [Hd|Hd]; [done|reflexivity].
    + destruct (decide _) as [Hd|Hd]; [|done]. by rewrite <- app_assoc.
Qed.

Lemma readStdin_lines (stdin : Stdin) :
  (readStdin u stdin).1
  = filter (fun line => line <> "") (map (TrimSpace u) (Lines stdin)).
Proof. unfold readStdin. cbn [fst]. by rewrite readStdin_loop. Qed.

End Trim.

Lemma reread_lines (u : UnicodeTrim) (texts : list string) :
  Forall (fun text => isASCII text = true) texts ->
  filter (fun line => line <> "")
         (map (TrimSpace u)
              (filter (fun line => line <> "") (map (TrimSpace u) texts)))
  = filter (fun line => line <> "") (map (TrimSpace u) texts).
Proof.
  induction 1 as [|text texts Hascii _ IH]; [done|].
  cbn [map]. rewrite filter_cons.
  destruct (decide (TrimSpace u text <> "")) as [Hne|Heq]; [|exact IH].
  cbn [map]. rewrite TrimSpace_ascii_idempotent by done.
  rewrite filter_cons. destruct (decide _) as [_|Hd]; [|done]. by rewrite IH.
Qed.

(** X11.  [readStdin] returns, in the order read, the trimmed text of every
    line whose trimmed text is not empty, together with the scanner's error:
    it never returns an empty line.  Of a line of ASCII text it drops the
    line when it consists of spaces only, and otherwise keeps the text
    between the leading and the trailing run of spaces, which starts and
    ends with a byte that is not a space.  Reading back what was returned
    for ASCII input returns it unchanged. *)
Theorem readStdin_returns_the_trimmed_non_empty_lines
        (u : UnicodeTrim) (stdin : Stdin) :
  (readStdin u stdin).2 = ScanErr stdin
  /\ (readStdin u stdin).1
     = filter (fun line => line <> "") (map (TrimSpace u) (Lines stdin))
  /\ ("" ∉ (readStdin u stdin).1)
  /\ length (readStdin u stdin).1 <= length (Lines stdin)
  /\ (forall text,
        text ∈ Lines stdin -> isASCII text = true ->
        if allSpace text then TrimSpace u text = ""
        else TrimSpace u text ∈ (readStdin u stdin).1
             /\ asciiSpace (firstByte (TrimSpace u text)) = false
             /\ asciiSpace (lastByte (TrimSpace u text)) = false
             /\ exists pre post,
                  text = pre +:+ TrimSpace u text +:+ post
                  /\ allSpace pre = true /\ allSpace post = true)
  /\ (Forall (fun text => isASCII text = true) (Lines stdin) ->
      readStdin u {| Lines := (readStdin u stdin).1; ScanErr := ScanErr stdin |}
      = readStdin u stdin).
Proof.
  pose proof (readStdin_lines u stdin) as Hlines.
  split; [done|]. split; [done|]. rewrite Hlines. split; [|split; [|split]].
  - rewrite list_elem_of_filter. naive_solver.
  - etransitivity; [apply length_filter|]. by rewrite length_map.
  - intros text Hin Hascii. destruct (allSpace text) eqn:Hsp.
    + by apply TrimSpace_empty_iff.
    + assert (TrimSpace u text <> "") as Hne.
      { intros Hemp. apply TrimSpace_empty_iff in Hemp; [congruence|done]. }
      destruct (TrimSpace_ascii u text Hascii)
        as (pre & post & Heq & Hpre & Hpost & [Hemp|[Hf Hl]]); [done|].
      split.
      { apply list_elem_of_filter. split; [done|]. apply list_elem_of_fmap.
        by exists text. }
      split; [done|]. split; [done|]. by exists pre, post.
  - intros Hascii.
    unfold readStdin. cbn [Lines ScanErr]. rewrite !readStdin_loop. cbn [app].
    f_equal. by apply reread_lines.
Qed.

(** ** The program *)

Section Main.
Variable rng : RangeOrder.
Variable env : Env.
Variable u : UnicodeTrim.

Lemma Analyze_of_AnalyzeIO (dir : string) (res : result Output) (st : State) :
  AnalyzeIO rng env dir = Some (res, st) -> Analyze rng env dir = Some res.
Proof. unfold Analyze. by intros ->. Qed.

(** The run of [main] on a directory that [Analyze] accepts. *)
Lemma main_analyzed (flags : Flags) (stdin : Stdin)
      (dir : string) (rest : list string) (out : Output) :
  Args flags = dir :: rest ->
  Analyze rng env dir = Some (Ok out) ->
  exists warnings,
    main rng env u flags stdin
    = if Affected flags then
        match ScanErr stdin with
        | Some err => Some {| ExitCode := exitError; Stdout := [];
                              Stderr := warnings ++ [PrintStdinError err] |}
        | None =>
            if IsAffected (Getwd env) (readStdin u stdin).1 out
            then Some {| ExitCode := exitAffected; Stdout := []; Stderr := warnings |}
            else Some {| ExitCode := exitNotAffected; Stdout := []; Stderr := warnings |}
        end
      else if FilesOnly flags then
        if FilterStdin flags then
          match ScanErr stdin with
          | Some err => Some {| ExitCode := exitError; Stdout := [];
                                Stderr := warnings ++ [PrintStdinError err] |}
          | None =>
              Some {| ExitCode := 0;
                      Stdout := map PrintFile
                                    (FilterRelatedFiles (Getwd env) (CollectAllFiles out)
                                                        (readStdin u stdin).1 out);
                      Stderr := warnings |}
          end
        else Some {| ExitCode := 0; Stdout := map PrintFile (CollectAllFiles out);
                     Stderr := warnings |}
      else Some {| ExitCode := 0; Stdout := [PrintJSON out]; Stderr := warnings |}.
Proof.
  intros Hargs Hrun. unfold main, Analyze in *. rewrite Hargs.
  destruct (AnalyzeIO rng env dir) as [[res st]|]; [|discriminate].
  cbn in Hrun. injection Hrun as ->.
  exists (map PrintWarning (stderr st)). cbv zeta. unfold readStdin. cbn [fst snd].
  destruct (Affected flags), (FilesOnly flags), (FilterStdin flags),
    (ScanErr stdin); reflexivity.
Qed.

Lemma main_not_analyzed (flags : Flags) (stdin : Stdin)
      (dir : string) (rest : list string) (err : error) :
  Args flags = dir :: rest ->
  Analyze rng env dir = Some (Err err) ->
  exists warnings,
    main rng env u flags stdin
    = Some {| ExitCode := exitError; Stdout := [];
              Stderr := warnings ++ [PrintError err] |}.
Proof.
  intros Hargs Hrun. unfold main, Analyze in *. rewrite Hargs.
  destruct (AnalyzeIO rng env dir) as [[res st]|]; [|discriminate].
  cbn in Hrun. injection Hrun as ->. by eexists.
Qed.

Lemma Analyze_total (dir : string) :
  exists res, Analyze rng env dir = Some res.
Proof.
  destruct (AnalyzeIO_total rng env dir) as (res & st & Hrun).
  exists res. by eapply Analyze_of_AnalyzeIO.
Qed.

End Main.

(** X12.  [main] always ends with status 0, 1 or 2.  It ends with status 2
    exactly when no directory is given, when [Analyze] fails, or when the
    standard input is to be read and the scanner reports an error; with
    status 1 exactly in the affected mode, when the input was read and
    [IsAffected] answers no.  It writes nothing to the standard output
    unless it ends with status 0, and nothing at all there in the affected
    mode. *)
Theorem main_exit_status (rng : RangeOrder) (env : Env) (u : UnicodeTrim)
        (flags : Flags) (stdin : Stdin) :
  exists run,
    main rng env u flags stdin = Some run
    /\ (ExitCode run = exitAffected \/ ExitCode run = exitNotAffected
        \/ ExitCode run = exitError)
    /\ (ExitCode run = exitError
        <-> Args flags = []
            \/ (exists dir rest err,
                  Args flags = dir :: rest /\ Analyze rng env dir = Some (Err err))
            \/ (exists dir rest out err,
                  Args flags = dir :: rest /\ Analyze rng env dir = Some (Ok out)
                  /\ readsStdin flags = true /\ ScanErr stdin = Some err))
    /\ (ExitCode run = exitNotAffected
        <-> exists dir rest out,
              Args flags = dir :: rest /\ Analyze rng env dir = Some (Ok out)
              /\ Affected flags = true /\ ScanErr stdin = None
              /\ IsAffected (Getwd env) (readStdin u stdin).1 out = false)
    /\ (ExitCode run <> exitAffected -> Stdout run = [])
    /\ (Affected flags = true -> Stdout run = []).
Proof.
  unfold exitAffected, exitNotAffected, exitError.
  destruct (Args flags) as [|dir rest] eqn:Hargs.
  { exists {| ExitCode := 2; Stdout := []; Stderr := [PrintUsage] |}.
    split; [unfold main; by rewrite Hargs|]. cbn [ExitCode Stdout].
    split; [auto|]. split; [split; auto|]. split; [|done].
    split; [discriminate|]. by intros (? & ? & ? & ? & _). }
  destruct (Analyze_total rng env dir) as [[out|err] Hrun].
  - destruct (main_analyzed rng env u flags stdin dir rest out Hargs Hrun)
      as [warnings Hmain].
    rewrite Hmain. unfold readsStdin.
    assert (forall d r o, dir :: rest = d :: r -> Analyze rng env d = Some (Ok o) ->
                          o = out) as Hout.
    { intros d r o [= <- _] Ho. congruence. }
    assert (forall d r e, dir :: rest = d :: r -> Analyze rng env d = Some (Err e) ->
                          False) as Herr.
    { intros d r e [= <- _] He. congruence. }
    destruct (Affected flags) eqn:Haff.
    + destruct (ScanErr stdin) as [serr|] eqn:Hscan.
      * eexists. split; [reflexivity|]. cbn [ExitCode Stdout orb].
        split; [auto|]. split.
        { split; [|done]. intros _. right. right. by exists dir, rest, out, serr. }
        split; [|done]. split; [discriminate|]. by intros (? & ? & ? & _ & _ & _ & ? & _).
      * destruct (IsAffected (Getwd env) (readStdin u stdin).1 out) eqn:Hisaff.
        -- eexists. split; [reflexivity|]. cbn [ExitCode Stdout orb].
           split; [auto|]. split.
           { split; [discriminate|].
             intros [?|[(d & r & e & Hd & He)|(? & ? & ? & ? & _ & _ & _ & ?)]];
               [done| |done]. exfalso. by eapply Herr. }
           split; [|done]. split; [discriminate|].
           intros (d & r & o & Hd & Ho & _ & _ & Hno).
           rewrite (Hout d r o Hd Ho) in Hno. congruence.
        -- eexists. split; [reflexivity|]. cbn [ExitCode Stdout orb].
           split; [auto|]. split.
           { split; [discriminate|].
             intros [?|[(d & r & e & Hd & He)|(? & ? & ? & ? & _ & _ & _ & ?)]];
               [done| |done]. exfalso. by eapply Herr. }
           split; [|done]. split; [|done]. intros _. by exists dir, rest, out.
    + destruct (FilesOnly flags) eqn:Hfo; [destruct (FilterStdin flags) eqn:Hfs|];
        [destruct (ScanErr stdin) as [serr|] eqn:Hscan| |].
      * eexists. split; [reflexivity|]. cbn [ExitCode Stdout orb andb].
        split; [auto|]. split.
        { split; [|done]. intros _. right. right. by exists dir, rest, out, serr. }
        split; [|done]. split; [discriminate|]. by intros (? & ? & ? & _ & _ & ? & _).
      * eexists. split; [reflexivity|]. cbn [ExitCode Stdout orb andb].
        split; [auto|]. split.
        { split; [discriminate|].
          intros [?|[(d & r & e & Hd & He)|(? & ? & ? & ? & _ & _ & _ & ?)]];
            [done| |done]. exfalso. by eapply Herr. }
        split; [|done]. split; [discriminate|]. by intros (? & ? & ? & _ & _ & ? & _).
      * eexists. split; [reflexivity|]. cbn [ExitCode Stdout orb andb].
        split; [auto|]. split.
        { split; [discriminate|].
          intros [?|[(d & r & e & Hd & He)|(? & ? & ? & ? & _ & _ & ? & _)]];
            [done| |done]. exfalso. by eapply Herr. }
        split; [|done]. split; [discriminate|]. by intros (? & ? & ? & _ & _ & ? & _).
      * eexists. split; [reflexivity|]. cbn [ExitCode Stdout orb andb].
        split; [auto|]. split.
        { split; [discriminate|].
          intros [?|[(d & r & e & Hd & He)|(? & ? & ? & ? & _ & _ & ? & _)]];
            [done| |done]. exfalso. by eapply Herr. }
        split; [|done]. split; [discriminate|]. by intros (? & ? & ? & _ & _ & ? & _).
  - destruct (main_not_analyzed rng env u flags stdin dir rest err Hargs Hrun)
      as [warnings Hmain].
    rewrite Hmain. eexists. split; [reflexivity|]. cbn [ExitCode Stdout].
    split; [auto|]. split.
    { split; [|done]. intros _. right. left. by exists dir, rest, err. }
    split; [|done]. split; [discriminate|].
    intros (d & r & o & [= <- _] & Ho & _). congruence.
Qed.

(** X13.  Unless [--affected] is given, or [--files-only] together with
    [--filter-stdin], the run does not depend on the standard input.  In
    particular [--filter-stdin] without [--files-only] changes nothing. *)
Theorem main_reads_stdin_only_when_asked
        (rng : RangeOrder) (env : Env) (flags : Flags) :
  readsStdin flags = false ->
  (forall u u' stdin stdin',
      main rng env u flags stdin = main rng env u' flags stdin')
  /\ (FilesOnly flags = false ->
      forall u stdin b,
        main rng env u flags stdin
        = main rng env u {| FilesOnly := false; FilterStdin := b;
                            Affected := false; Args := Args flags |} stdin).
Proof.
  unfold readsStdin, main. destruct flags as [fo fs af args]. cbn [Affected FilesOnly FilterStdin Args].
  intros Hflags. split.
  - intros u u' stdin stdin'. destruct args as [|dir rest]; [done|].
    destruct (AnalyzeIO rng env dir) as [[[out|err] st]|]; [|done|done].
    cbv zeta. destruct af, fo, fs; try discriminate; reflexivity.
  - intros -> u stdin b. destruct args as [|dir rest]; [done|].
    destruct (AnalyzeIO rng env dir) as [[[out|err] st]|]; [|done|done].
    cbv zeta. destruct af; [discriminate|]. reflexivity.
Qed.

Lemma main_reads_stdin_only_when_asked_witness :
  readsStdin (jsonFlags "app") = false
  /\ main mapOrder remoteOnlyEnv rawTrim (jsonFlags "app") vpcChange
     = main mapOrder remoteOnlyEnv rawTrim (jsonFlags "app")
            {| Lines := []; ScanErr := Some (ErrScanner "closed") |}.
Proof.
  split; [reflexivity|].
  apply (main_reads_stdin_only_when_asked mapOrder remoteOnlyEnv (jsonFlags "app")).
  reflexivity.
Defined.

(** X14.  With [--files-only] (and without [--affected]) a successful run
    prints file paths only, no path twice, and every path is a file of the
    root module or of a recorded local module.  Without [--filter-stdin] the
    lines are those of [CollectAllFiles]; with it, a path is printed exactly
    when it is a file of a module under which one of the lines read lies. *)
Theorem main_files_only_prints_each_file_once
        (rng : RangeOrder) (env : Env) (u : UnicodeTrim)
        (flags : Flags) (stdin : Stdin) (run : Run) :
  Affected flags = false -> FilesOnly flags = true ->
  main rng env u flags stdin = Some run ->
  ExitCode run = 0 ->
  exists dir rest out,
    Args flags = dir :: rest
    /\ Analyze rng env dir = Some (Ok out)
    /\ NoDup (Stdout run)
    /\ (forall line, line ∈ Stdout run ->
          exists m f, line = PrintFile f /\ m ∈ modulesOf out /\ f ∈ Files m)
    /\ (if FilterStdin flags
        then forall f,
               PrintFile f ∈ Stdout run
               <-> exists m, m ∈ modulesOf out
                             /\ changedUnder (Getwd env) (readStdin u stdin).1 m
                             /\ f ∈ Files m
        else Stdout run = map PrintFile (CollectAllFiles out)).
Proof.
  intros Haff Hfo Hmain Hexit.
  destruct (Args flags) as [|dir rest] eqn:Hargs.
  { unfold main in Hmain. rewrite Hargs in Hmain. injection Hmain as <-. done. }
  destruct (Analyze_total rng env dir) as [[out|err] Hrun].
  2:{ destruct (main_not_analyzed rng env u flags stdin dir rest err Hargs Hrun)
        as [warnings Heq].
      rewrite Heq in Hmain. injection Hmain as <-. done. }
  destruct (main_analyzed rng env u flags stdin dir rest out Hargs Hrun)
    as [warnings Heq].
  rewrite Heq, Haff, Hfo in Hmain. clear Heq.
  exists dir, rest, out. split; [done|]. split; [done|].
  assert (Inj (=) (=) PrintFile) as Hinj by (intros f g [= ->]; done).
  destruct (FilterStdin flags).
  - destruct (ScanErr stdin) as [serr|]; injection Hmain as <-; [done|].
    cbn [Stdout]. rewrite FilterRelatedFiles_keepFirst.
    assert (forall f,
              f ∈ keepFirst (concat (map Files
                       (filter (changedUnder (Getwd env) (readStdin u stdin).1)
                               (modulesOf out))))
              <-> exists m, m ∈ modulesOf out
                            /\ changedUnder (Getwd env) (readStdin u stdin).1 m
                            /\ f ∈ Files m) as Hmem.
    { intros f. rewrite keepFirst_elem_of, elem_of_concat_Files. split.
      - intros (m & [Hsel Hm]%list_elem_of_filter & Hf). by exists m.
      - intros (m & Hm & Hsel & Hf). exists m. split; [|done].
        by apply list_elem_of_filter. }
    split; [apply (NoDup_fmap_2 PrintFile), keepFirst_NoDup|]. split.
    + intros line (f & -> & (m & Hm & _ & Hf)%Hmem)%list_elem_of_fmap.
      by exists m, f.
    + intros f. rewrite <- Hmem. split.
      * by intros (g & [= <-] & Hg)%list_elem_of_fmap.
      * intros Hf. apply list_elem_of_fmap. by exists f.
  - injection Hmain as <-. cbn [Stdout]. rewrite CollectAllFiles_keepFirst.
    split; [apply (NoDup_fmap_2 PrintFile), keepFirst_NoDup|]. split; [|done].
    intros line (f & -> & Hf)%list_elem_of_fmap.
    apply keepFirst_elem_of, elem_of_concat_Files in Hf as (m & Hm & Hf).
    by exists m, f.
Qed.

Lemma main_files_only_prints_each_file_once_witness :
  main mapOrder filterTestEnv rawTrim (listingFlags "root") vpcChange
  = Some {| ExitCode := 0;
            Stdout := [PrintFile "/t/modules/vpc/main.tf";
                       PrintFile "/t/modules/vpc/variables.tf"];
            Stderr := [] |}
  /\ exists dir rest out,
       Args (listingFlags "root") = dir :: rest
       /\ Analyze mapOrder filterTestEnv dir = Some (Ok out)
       /\ NoDup [PrintFile "/t/modules/vpc/main.tf";
                 PrintFile "/t/modules/vpc/variables.tf"]
       /\ (forall line,
             line ∈ [PrintFile "/t/modules/vpc/main.tf";
                     PrintFile "/t/modules/vpc/variables.tf"] ->
             exists m f, line = PrintFile f /\ m ∈ modulesOf out /\ f ∈ Files m)
       /\ (forall f,
             PrintFile f ∈ [PrintFile "/t/modules/vpc/main.tf";
                            PrintFile "/t/modules/vpc/variables.tf"]
             <-> exists m, m ∈ modulesOf out
                           /\ changedUnder (Getwd filterTestEnv)
                                           (readStdin rawTrim vpcChange).1 m
                           /\ f ∈ Files m).
Proof.
  split; [by vm_compute|].
  apply (main_files_only_prints_each_file_once
           mapOrder filterTestEnv rawTrim (listingFlags "root") vpcChange
           {| ExitCode := 0;
              Stdout := [PrintFile "/t/modules/vpc/main.tf";
                         PrintFile "/t/modules/vpc/variables.tf"];
              Stderr := [] |});
    [reflexivity | reflexivity | by vm_compute | reflexivity].
Defined.

(** X15.  The affected mode and the filtered listing agree on the same
    directory and input: both fail or neither does, both write the same
    lines to the standard error, and whenever the filtered listing prints a
    file the affected mode ends with status 0; so status 1 means the
    filtered listing is empty.  [--affected] wins over the two other
    flags. *)
Theorem main_affected_mode_agrees_with_filtered_listing
        (rng : RangeOrder) (env : Env) (u : UnicodeTrim)
        (args : list string) (filesOnly filterStdin : bool) (stdin : Stdin)
        (checked listed : Run) :
  main rng env u {| FilesOnly := filesOnly; FilterStdin := filterStdin;
                    Affected := true; Args := args |} stdin = Some checked ->
  main rng env u {| FilesOnly := true; FilterStdin := true;
                    Affected := false; Args := args |} stdin = Some listed ->
  (ExitCode checked = exitError <-> ExitCode listed = exitError)
  /\ Stderr checked = Stderr listed
  /\ (Stdout listed <> [] -> ExitCode checked = exitAffected)
  /\ (ExitCode checked = exitNotAffected ->
      ExitCode listed = 0 /\ Stdout listed = [])
  /\ main rng env u {| FilesOnly := false; FilterStdin := false;
                       Affected := true; Args := args |} stdin = Some checked.
Proof.
  unfold main. cbn [Args Affected FilesOnly FilterStdin].
  destruct args as [|dir rest].
  { by intros [= <-] [= <-]. }
  destruct (AnalyzeIO rng env dir) as [[[out|err] st]|]; [| |done].
  2:{ by intros [= <-] [= <-]. }
  cbv zeta. destruct (readStdin u stdin) as [lines [serr|]].
  { by intros [= <-] [= <-]. }
  destruct (IsAffected (Getwd env) lines out) eqn:Haff;
    intros [= <-] [= <-]; cbn [ExitCode Stdout Stderr];
    unfold exitError, exitAffected, exitNotAffected.
  - split; [done|]. split; [done|]. split; [done|]. split; [discriminate|done].
  - assert (FilterRelatedFiles (Getwd env) (CollectAllFiles out) lines out = []) as ->.
    { rewrite FilterRelatedFiles_keepFirst.
      rewrite (filter_none_of (changedUnder (Getwd env) lines)); [done|].
      intros m Hm Hsel.
      assert (IsAffected (Getwd env) lines out = true) as Hyes.
      { apply IsAffected_iff_changedUnder. by exists m. }
      congruence. }
    split; [done|]. split; [done|]. split; [done|]. split; done.
Qed.

Lemma main_affected_mode_agrees_with_filtered_listing_witness :
  main mapOrder filterTestEnv rawTrim
       {| FilesOnly := true; FilterStdin := true; Affected := true; Args := ["root"] |}
       vpcChange
  = Some {| ExitCode := 0; Stdout := []; Stderr := [] |}
  /\ main mapOrder filterTestEnv rawTrim (affectedFlags "root") vpcChange
     = Some {| ExitCode := 0; Stdout := []; Stderr := [] |}.
Proof.
  split; [by vm_compute|].
  apply (main_affected_mode_agrees_with_filtered_listing
           mapOrder filterTestEnv rawTrim ["root"] true true vpcChange
           {| ExitCode := 0; Stdout := []; Stderr := [] |}
           {| ExitCode := 0;
              Stdout := [PrintFile "/t/modules/vpc/main.tf";
                         PrintFile "/t/modules/vpc/variables.tf"];
              Stderr := [] |});
    by vm_compute.
Defined.

(** ** Paths element by element *)

Section PathFacts.
Import GoStrings Filepath.

Lemma append_assoc (a b c : string) : (a +:+ b) +:+ c = a +:+ (b +:+ c).
Proof. induction a as [|x a IH]; [done|]. rewrite !append_cons. by rewrite IH. Qed.

Lemma append_nil_r (a : string) : a +:+ "" = a.
Proof. induction a as [|x a IH]; [done|]. rewrite append_cons. by rewrite IH. Qed.

Lemma append_snoc (pre : string) (c : ascii) (s : string) :
  pre +:+ String c s = (pre +:+ String c "") +:+ s.
Proof. by rewrite append_assoc. Qed.

Lemma length_snoc (pre : string) (c : ascii) :
  String.length (pre +:+ String c "") = String.length pre + 1.
Proof. by rewrite length_append. Qed.

Lemma byteAt_app_r (pre s : string) (i : nat) :
  byteAt (pre +:+ s) (String.length pre + i) = byteAt s i.
Proof. induction pre as [|x pre IH]; [done|]. rewrite append_cons. exact IH. Qed.

Lemma byteAt_app_0 (pre s : string) :
  byteAt (pre +:+ s) (String.length pre) = byteAt s 0.
Proof. rewrite <- (Nat.add_0_r (String.length pre)) at 1. apply byteAt_app_r. Qed.

Lemma substring_app_l (a b : string) :
  String.substring 0 (String.length a) (a +:+ b) = a.
Proof. induction a as [|x a IH]; [apply substring_0_0|]. rewrite append_cons. cbn. by rewrite IH. Qed.

Lemma slice_app_l (a b : string) : slice (a +:+ b) 0 (String.length a) = a.
Proof. unfold slice. rewrite Nat.sub_0_r. apply substring_app_l. Qed.

Lemma slice_app_mid (pre e rest : string) :
  slice (pre +:+ e +:+ rest) (String.length pre) (String.length pre + String.length e) = e.
Proof.
  unfold slice. replace (String.length pre + String.length e - String.length pre)
    with (String.length e) by lia.
  rewrite substring_append_skip. apply substring_app_l.
Qed.

Lemma slice_app_r (pre rest : string) :
  slice (pre +:+ rest) (String.length pre) (String.length pre + String.length rest) = rest.
Proof.
  rewrite <- (append_nil_r rest) at 1. rewrite slice_app_mid. done.
Qed.

Lemma slice_suffix (pre rest : string) :
  slice (pre +:+ rest) (String.length pre) (String.length (pre +:+ rest)) = rest.
Proof. rewrite length_append. apply slice_app_r. Qed.

Lemma slice_empty (s : string) (i : nat) : slice s i i = "".
Proof. unfold slice. rewrite Nat.sub_diag. apply substring_empty. Qed.

Lemma IsPathSeparator_eq (c : ascii) : IsPathSeparator c = true -> c = "/"%char.
Proof. unfold IsPathSeparator, Separator. by intros ?%Ascii.eqb_eq. Qed.

Lemma firstElem_split (s : string) : s = firstElem s +:+ afterElem s.
Proof.
  induction s as [|c s IH]; [done|]. cbn.
  destruct (IsPathSeparator c); [done|]. rewrite append_cons. by rewrite <- IH.
Qed.

Lemma firstElem_sepFree (s : string) : sepFree (firstElem s) = true.
Proof.
  induction s as [|c s IH]; [done|]. cbn.
  destruct (IsPathSeparator c) eqn:Hc; [done|]. cbn. by rewrite Hc.
Qed.

Lemma afterElem_Boundary (s : string) : Boundary (afterElem s).
Proof.
  induction s as [|c s IH]; [by left|]. cbn.
  destruct (IsPathSeparator c) eqn:Hc; [|done].
  right. exists s. by rewrite (IsPathSeparator_eq c Hc).
Qed.

Lemma sepFree_append (a b : string) : sepFree (a +:+ b) = sepFree a && sepFree b.
Proof.
  induction a as [|x a IH]; [done|]. rewrite append_cons. cbn. rewrite IH.
  by rewrite andb_assoc.
Qed.

(** An element followed by a boundary is the first element of the text. *)
Lemma pathElements_elem (e rest : string) :
  sepFree e = true -> Boundary rest ->
  pathElements (e +:+ rest) = e :: tail (pathElements rest)
  /\ pathElements rest = "" :: tail (pathElements rest).
Proof.
  intros He Hrest.
  assert (pathElements rest = "" :: tail (pathElements rest)) as Htail.
  { destruct Hrest as [->|[t ->]]; done. }
  split; [|done].
  induction e as [|c e IH].
  - by rewrite Htail at 1.
  - cbn in He. apply andb_true_iff in He as [Hc He]. apply negb_true_iff in Hc.
    rewrite append_cons. cbn [pathElements]. rewrite Hc, IH; done.
Qed.

Lemma resolveStep_empty (names : list string) : resolveStep names "" = names.
Proof. reflexivity. Qed.

Lemma resolve_elem (names : list string) (e rest : string) :
  sepFree e = true -> Boundary rest ->
  foldl resolveStep names (pathElements (e +:+ rest))
  = foldl resolveStep (resolveStep names e) (pathElements rest).
Proof.
  intros He Hrest. destruct (pathElements_elem e rest He Hrest) as [-> Htail].
  rewrite Htail at 2. done.
Qed.

(** The byte tests by which [Clean] recognises the end of an element. *)
Lemma elem_end_test (e rest : string) :
  sepFree e = true -> Boundary rest ->
  (String.length (e +:+ rest) =? 0) || IsPathSeparator (byteAt (e +:+ rest) 0)
  = String.eqb e "".
Proof.
  intros He Hrest. destruct e as [|c e].
  - destruct Hrest as [->|[t ->]]; done.
  - cbn in He. apply andb_true_iff in He as [Hc _]. apply negb_true_iff in Hc.
    rewrite append_cons. cbn. unfold byteAt. cbn. by rewrite Hc.
Qed.

(** [scanElem] and [copyElem] run to the end of the element they start in. *)
Lemma scanElem_elem (e : string) :
  forall (fuel : nat) (pre rest : string),
    sepFree e = true -> Boundary rest -> String.length e <= fuel ->
    scanElem fuel (pre +:+ e +:+ rest) (String.length (pre +:+ e +:+ rest))
             (String.length pre)
    = String.length pre + String.length e.
Proof.
  induction e as [|c e IH]; intros fuel pre rest He Hrest Hfuel.
  - cbn [String.length]. rewrite Nat.add_0_r. destruct fuel as [|fuel]; [done|].
    cbn [scanElem]. change ("" +:+ rest) with rest.
    destruct Hrest as [->|[t ->]].
    + rewrite append_nil_r, Nat.ltb_irrefl. done.
    + rewrite byteAt_app_0. cbn. by rewrite andb_false_r.
  - cbn in He. apply andb_true_iff in He as [Hc He].
    destruct fuel as [|fuel]; [cbn in Hfuel; lia|]. cbn [scanElem].
    rewrite byteAt_app_0. change (byteAt (String c e +:+ rest) 0) with c.
    rewrite Hc, andb_true_r.
    replace (String.length pre <? String.length (pre +:+ String c e +:+ rest)) with true
      by (symmetry; apply Nat.ltb_lt; rewrite !length_append; cbn; lia).
    rewrite append_cons, (append_snoc pre c), <- length_snoc with (c := c).
    rewrite IH; [|done|done|cbn in Hfuel; lia].
    rewrite length_snoc. cbn. lia.
Qed.

Lemma copyElem_elem (e : string) :
  forall (fuel : nat) (pre rest out : string),
    sepFree e = true -> Boundary rest -> String.length e <= fuel ->
    copyElem fuel (pre +:+ e +:+ rest) (String.length (pre +:+ e +:+ rest))
             (String.length pre) out
    = (String.length pre + String.length e, out +:+ e).
Proof.
  induction e as [|c e IH]; intros fuel pre rest out He Hrest Hfuel.
  - cbn [String.length]. rewrite Nat.add_0_r, append_nil_r. destruct fuel as [|fuel]; [done|].
    cbn [copyElem]. change ("" +:+ rest) with rest.
    destruct Hrest as [->|[t ->]].
    + rewrite append_nil_r, Nat.ltb_irrefl. done.
    + rewrite byteAt_app_0. cbn. by rewrite andb_false_r.
  - cbn in He. apply andb_true_iff in He as [Hc He].
    destruct fuel as [|fuel]; [cbn in Hfuel; lia|]. cbn [copyElem].
    rewrite byteAt_app_0. change (byteAt (String c e +:+ rest) 0) with c.
    rewrite Hc, andb_true_r.
    replace (String.length pre <? String.length (pre +:+ String c e +:+ rest)) with true
      by (symmetry; apply Nat.ltb_lt; rewrite !length_append; cbn; lia).
    rewrite append_cons, (append_snoc pre c), <- length_snoc with (c := c).
    rewrite IH; [|done|done|cbn in Hfuel; lia].
    rewrite length_snoc. unfold ofByte. rewrite append_assoc. cbn. f_equal. lia.
Qed.

End PathFacts.

Section CleanSpec.
Import GoStrings Filepath.

Lemma sepFree_byteAt (e : string) (i : nat) :
  sepFree e = true -> IsPathSeparator (byteAt e i) = false.
Proof.
  revert i. induction e as [|c e IH]; intros i He; [by destruct i|].
  cbn in He. apply andb_true_iff in He as [Hc He]. apply negb_true_iff in Hc.
  destruct i as [|i]; [done|]. rewrite byteAt_S. by apply IH.
Qed.

(** Going back over the last element stops at the separator before it,
    or at [dotdot]. *)
Lemma backtrack_elem (k : nat) :
  forall (fuel : nat) (before e : string) (dotdot : nat),
    sepFree e = true -> k <= String.length e -> k <= fuel ->
    dotdot <= String.length before + k ->
    backtrack fuel (before +:+ "/" +:+ e) (String.length before + k) dotdot
    = Nat.max (String.length before) dotdot.
Proof.
  induction k as [|k IH]; intros fuel before e dotdot He Hk Hfuel Hdd.
  - destruct fuel as [|fuel]; [cbn [backtrack]; lia|]. cbn [backtrack].
    rewrite byteAt_app_r. change (byteAt ("/" +:+ e) 0) with "/"%char.
    change (IsPathSeparator "/") with true. rewrite andb_false_r. lia.
  - destruct fuel as [|fuel]; [lia|]. cbn [backtrack].
    rewrite byteAt_app_r. change (byteAt ("/" +:+ e) (S k)) with (byteAt e k).
    rewrite (sepFree_byteAt e k He), andb_true_r.
    destruct (dotdot <? String.length before + S k) eqn:Hlt.
    + apply Nat.ltb_lt in Hlt.
      replace (String.length before + S k - 1) with (String.length before + k) by lia.
      apply IH; [done|lia|lia|lia].
    + apply Nat.ltb_ge in Hlt. lia.
Qed.

Lemma Join_cons (e : string) (names : list string) :
  GoStrings.Join (e :: names) "/" = e +:+ joinTail names.
Proof. destruct names; cbn; [by rewrite append_nil_r|done]. Qed.

Lemma joinTail_Boundary (names : list string) : Boundary (joinTail names).
Proof. destruct names; [by left|]. right. by eexists. Qed.

Lemma Join_snoc (names : list string) (e : string) :
  GoStrings.Join (names ++ [e]) "/"
  = match names with
    | [] => e
    | _ => GoStrings.Join names "/" +:+ "/" +:+ e
    end.
Proof.
  induction names as [|n names IH]; [done|].
  change ((n :: names) ++ [e]) with (n :: (names ++ [e])).
  rewrite Join_cons. destruct names as [|m names].
  - cbn. done.
  - change ((m :: names) ++ [e]) with (m :: (names ++ [e])) in *.
    cbn [joinTail]. rewrite IH, (Join_cons n). cbn [joinTail].
    by rewrite !append_assoc.
Qed.

Lemma rootedPath_snoc (names : list string) (e : string) :
  rootedPath (names ++ [e])
  = match names with
    | [] => ""
    | _ => rootedPath names
    end +:+ "/" +:+ e.
Proof.
  unfold rootedPath. rewrite Join_snoc. destruct names; [done|].
  by rewrite !append_assoc.
Qed.

Lemma isElement_inv (e : string) :
  isElement e = true -> e <> "" /\ e <> "." /\ e <> ".." /\ sepFree e = true.
Proof.
  unfold isElement. rewrite !andb_true_iff, !negb_true_iff.
  intros [[[H1 H2] H3] H4]. repeat split; try done.
  - intros ->. discriminate.
  - intros ->. discriminate.
  - intros ->. discriminate.
Qed.

Lemma rootedPath_length (names : list string) :
  Forall (fun e => isElement e = true) names ->
  String.length (rootedPath names) = 1 <-> names = [].
Proof.
  intros Hnames. split; [|by intros ->].
  destruct names as [|n names]; [done|]. intros Hlen. exfalso.
  apply Forall_cons in Hnames as [Hn _]. apply isElement_inv in Hn as (Hne & _).
  unfold rootedPath in Hlen. rewrite Join_cons, !length_append in Hlen.
  destruct n; [done|]. cbn in Hlen. lia.
Qed.

Lemma snoc_case {A : Type} (l : list A) : l = [] \/ exists l' x, l = l' ++ [x].
Proof.
  induction l as [|a l IH]; [by left|]. right.
  destruct IH as [->|(l' & x & ->)]; [by exists [], a|by exists (a :: l'), x].
Qed.

Lemma eqb_dot (c : ascii) (e : string) :
  String.eqb (String c e) "." = isDot c && String.eqb e "".
Proof. cbn. unfold isDot. destruct (Ascii.eqb c "."); [|done]. by destruct e. Qed.

Lemma eqb_dotdot (c : ascii) (e : string) :
  String.eqb (String c e) ".." = isDot c && String.eqb e ".".
Proof. cbn. unfold isDot. by destruct (Ascii.eqb c "."). Qed.

(** The loop of [Clean] on a rooted path: from the names found so far it
    goes on as [resolveStep] does over the elements still to be read. *)
Lemma cleanLoop_spec (fuel : nat) :
  forall (pre s : string) (names : list string),
    Forall (fun e => isElement e = true) names ->
    String.length s <= fuel ->
    cleanLoop fuel (pre +:+ s) (String.length (pre +:+ s)) true
              (String.length pre) (rootedPath names) 1
    = rootedPath (foldl resolveStep names (pathElements s)).
Proof.
  induction fuel as [|fuel IH]; intros pre s names Hnames Hfuel.
  { destruct s; [done|cbn in Hfuel; lia]. }
  cbn [cleanLoop]. destruct s as [|c s1].
  { rewrite append_nil_r, Nat.ltb_irrefl. done. }
  replace (String.length pre <? String.length (pre +:+ String c s1)) with true
    by (symmetry; apply Nat.ltb_lt; rewrite length_append; cbn; lia).
  cbn [negb]. rewrite byteAt_app_0. change (byteAt (String c s1) 0) with c.
  destruct (IsPathSeparator c) eqn:Hc.
  { (* empty path element *)
    apply IsPathSeparator_eq in Hc as ->.
    rewrite (append_snoc pre), <- length_snoc with (c := "/"%char).
    rewrite IH; [done|done|cbn in Hfuel; lia]. }
  (* the element that starts here *)
  pose proof (firstElem_split s1) as Hsplit.
  pose proof (firstElem_sepFree s1) as Hfree.
  pose proof (afterElem_Boundary s1) as Hafter.
  set (e1 := firstElem s1) in *. set (rest := afterElem s1) in *.
  assert (sepFree (String c e1) = true) as He by (cbn; by rewrite Hc, Hfree).
  rewrite !byteAt_app_r.
  change (byteAt (String c s1) 1) with (byteAt s1 0).
  change (byteAt (String c s1) 2) with (byteAt s1 1).
  assert ((String.length pre + 1 =? String.length (pre +:+ String c s1))
          || IsPathSeparator (byteAt s1 0) = String.eqb e1 "") as ->.
  { rewrite <- (elem_end_test e1 rest Hfree Hafter), <- Hsplit.
    f_equal. rewrite length_append. cbn [String.length].
    destruct (String.length s1); [by rewrite Nat.eqb_refl|].
    apply Nat.eqb_neq. lia. }
  rewrite <- eqb_dot.
  destruct (String.eqb (String c e1) ".") eqn:Hdot.
  { (* . element *)
    apply String.eqb_eq in Hdot. injection Hdot as -> He1.
    assert (s1 = rest) as Hs1 by (rewrite Hsplit, He1; done).
    rewrite (append_snoc pre), <- length_snoc with (c := "."%char).
    rewrite IH; [|done|cbn in Hfuel; lia].
    change (String "." s1) with ("." +:+ s1).
    rewrite (resolve_elem names "." s1); [done|done|].
    rewrite Hs1. exact Hafter. }
  assert (isDot (byteAt s1 0)
          && ((String.length pre + 2 =? String.length (pre +:+ String c s1))
              || IsPathSeparator (byteAt s1 1))
          = String.eqb e1 ".") as Hdd.
  { destruct e1 as [|a e2] eqn:He1.
    - change ("" +:+ rest) with rest in Hsplit. rewrite Hsplit.
      destruct Hafter as [->|[t ->]]; done.
    - rewrite append_cons in Hsplit. rewrite Hsplit at 1 3.
      change (byteAt (String a (e2 +:+ rest)) 0) with a.
      change (byteAt (String a (e2 +:+ rest)) 1) with (byteAt (e2 +:+ rest) 0).
      rewrite eqb_dot. f_equal.
      cbn in Hfree. apply andb_true_iff in Hfree as [_ Hfree2].
      rewrite <- (elem_end_test e2 rest Hfree2 Hafter).
      f_equal. rewrite Hsplit, length_append. cbn [String.length].
      destruct (String.length (e2 +:+ rest)); [by rewrite Nat.eqb_refl|].
      apply Nat.eqb_neq. lia. }
  rewrite <- andb_assoc, Hdd, <- eqb_dotdot.
  assert (String c s1 = String c e1 +:+ rest) as Hs by (by rewrite append_cons, <- Hsplit).
  replace (pathElements (String c s1)) with (pathElements (String c e1 +:+ rest))
    by (by rewrite <- Hs).
  rewrite (resolve_elem names (String c e1) rest He Hafter).
  destruct (String.eqb (String c e1) "..") eqn:Hdotdot.
  { (* .. element *)
    apply String.eqb_eq in Hdotdot. injection Hdotdot as -> He1.
    assert (s1 = String "." rest) as Hs1 by (rewrite Hsplit, He1; done).
    rewrite Hs1 in *. cbv zeta.
    assert (pre +:+ ".." +:+ rest = (pre +:+ "..") +:+ rest) as Hpath
        by (by rewrite !append_assoc).
    assert (String.length pre + 2 = String.length (pre +:+ "..")) as Hlen
        by (by rewrite length_append).
    change (String "." (String "." rest)) with (".." +:+ rest).
    assert (resolveStep names (String "." e1) = removelast names) as ->
        by (by rewrite He1).
    destruct (snoc_case names) as [->|(names' & l & ->)].
    - change (String.length (rootedPath [])) with 1. cbn [Nat.ltb Nat.leb negb].
      rewrite Hpath, Hlen, IH; [done|done|cbn in Hfuel; lia].
    - apply Forall_app in Hnames as [Hnames' Hl].
      apply Forall_singleton, isElement_inv in Hl as (Hlne & _ & _ & Hlfree).
      assert ((1 <? String.length (rootedPath (names' ++ [l]))) = true) as ->.
      { apply Nat.ltb_lt. rewrite rootedPath_snoc, !length_append.
        destruct l; [done|]. cbn. lia. }
      assert (slice (rootedPath (names' ++ [l])) 0
                    (backtrack (String.length (rootedPath (names' ++ [l])))
                               (rootedPath (names' ++ [l]))
                               (String.length (rootedPath (names' ++ [l])) - 1) 1)
              = rootedPath names') as ->.
      { rewrite rootedPath_snoc.
        set (before := match names' with [] => "" | _ => rootedPath names' end).
        replace (String.length (before +:+ "/" +:+ l) - 1)
          with (String.length before + String.length l)
          by (rewrite !length_append; cbn; lia).
        rewrite (backtrack_elem (String.length l)); [|done|lia| |].
        - subst before. destruct names' as [|n names'].
          + unfold slice, rootedPath. cbn. by destruct l.
          + assert (1 < String.length (rootedPath (n :: names'))) as Hlong.
            { pose proof (rootedPath_length (n :: names') Hnames') as Hiff.
              assert (String.length (rootedPath (n :: names')) <> 1) by (intros ?%Hiff; done).
              assert (1 <= String.length (rootedPath (n :: names')))
                by (unfold rootedPath; rewrite length_append; cbn; lia).
              lia. }
            rewrite Nat.max_l by lia. apply slice_app_l.
        - rewrite !length_append. cbn. lia.
        - destruct l; [done|]. cbn. lia. }
      rewrite removelast_last.
      rewrite Hpath, Hlen, IH; [done|done|cbn in Hfuel; lia]. }
  (* real path element *)
  assert (resolveStep names (String c e1) = names ++ [String c e1]) as Hstep.
  { unfold resolveStep. rewrite Hdot, Hdotdot. done. }
  assert (isElement (String c e1) = true) as Helem.
  { unfold isElement. rewrite Hdot, Hdotdot, He. done. }
  cbv zeta.
  assert ((if (true && negb (String.length (rootedPath names) =? 1))
              || (false && negb (String.length (rootedPath names) =? 0))
           then rootedPath names +:+ ofByte Separator
           else rootedPath names)
          = match names with [] => "" | _ => rootedPath names end +:+ "/") as ->.
  { cbn [andb negb orb]. rewrite orb_false_r.
    destruct names as [|n names']; [done|].
    assert (String.length (rootedPath (n :: names')) <> 1) as Hlong
        by (intros ?%(rootedPath_length _ Hnames); done).
    apply Nat.eqb_neq in Hlong. rewrite Hlong. done. }
  rewrite Hs.
  rewrite (copyElem_elem (String c e1)); [|done|done|].
  2:{ rewrite !length_append. lia. }
  rewrite append_assoc, <- rootedPath_snoc.
  assert (pre +:+ String c e1 +:+ rest = (pre +:+ String c e1) +:+ rest) as ->
      by (by rewrite append_assoc).
  rewrite <- length_append.
  rewrite IH; [by rewrite Hstep| |].
  - apply Forall_app. split; [done|]. by apply Forall_singleton.
  - rewrite Hs, length_append in Hfuel. cbn in Hfuel. lia.
Qed.

End CleanSpec.

Section CleanAbsolute.
Import GoStrings Filepath.

Lemma pathElements_sepFree (s : string) :
  Forall (fun e => sepFree e = true) (pathElements s).
Proof.
  induction s as [|c s IH]; [by repeat constructor|]. cbn [pathElements].
  destruct (IsPathSeparator c) eqn:Hc; [by constructor|].
  destruct (pathElements s) as [|e es].
  - repeat constructor. cbn. by rewrite Hc.
  - apply Forall_cons in IH as [He Hes]. constructor; [|done]. cbn. by rewrite Hc, He.
Qed.

Lemma resolveStep_valid (names : list string) (e : string) :
  Forall (fun e => isElement e = true) names -> sepFree e = true ->
  Forall (fun e => isElement e = true) (resolveStep names e).
Proof.
  intros Hnames He. unfold resolveStep.
  destruct (String.eqb e "") eqn:H1; [done|].
  destruct (String.eqb e ".") eqn:H2; [done|].
  destruct (String.eqb e "..") eqn:H3.
  - destruct (snoc_case names) as [->|(names' & l & ->)]; [done|].
    rewrite removelast_last. by apply Forall_app in Hnames as [? _].
  - apply Forall_app. split; [done|]. apply Forall_singleton.
    unfold isElement. by rewrite H1, H2, H3, He.
Qed.

Lemma resolve_valid (es names : list string) :
  Forall (fun e => isElement e = true) names ->
  Forall (fun e => sepFree e = true) es ->
  Forall (fun e => isElement e = true) (foldl resolveStep names es).
Proof.
  revert names. induction es as [|e es IH]; intros names Hnames Hes; [done|].
  apply Forall_cons in Hes as [He Hes]. cbn [foldl].
  apply IH; [|done]. by apply resolveStep_valid.
Qed.

Lemma namesOf_valid (path : string) :
  Forall (fun e => isElement e = true) (namesOf path).
Proof. apply resolve_valid; [constructor|apply pathElements_sepFree]. Qed.

Lemma IsAbs_inv (path : string) : IsAbs path = true -> exists rest, path = String "/" rest.
Proof. unfold IsAbs. intros [rest ->]%HasPrefix_iff. by exists rest. Qed.

(** [Clean] of an absolute path is the path of the names it denotes. *)
Lemma Clean_absolute (path : string) :
  IsAbs path = true -> Clean path = rootedPath (namesOf path).
Proof.
  intros [rest ->]%IsAbs_inv. unfold Clean.
  change (String.eqb (String "/" rest) "") with false. cbv iota zeta.
  change (IsPathSeparator (byteAt (String "/" rest) 0)) with true. cbv iota.
  change (String "/" rest) with ("/" +:+ rest).
  change (ofByte Separator) with (rootedPath []).
  assert (cleanLoop (String.length ("/" +:+ rest)) ("/" +:+ rest)
                    (String.length ("/" +:+ rest)) true 1 (rootedPath []) 1
          = rootedPath (foldl resolveStep [] (pathElements rest))) as ->.
  { apply (cleanLoop_spec _ "/" rest []).
    - constructor.
    - rewrite length_append. cbn. lia. }
  change (namesOf ("/" +:+ rest)) with (foldl resolveStep [] (pathElements rest)).
  unfold rootedPath at 1. by rewrite length_append.
Qed.

Lemma pathElements_Join (names : list string) :
  names <> [] -> Forall (fun e => sepFree e = true) names ->
  pathElements (GoStrings.Join names "/") = names.
Proof.
  induction names as [|e names IH]; [done|]. intros _ Hnames.
  apply Forall_cons in Hnames as [He Hnames]. rewrite Join_cons.
  destruct (pathElements_elem e (joinTail names) He (joinTail_Boundary names)) as [-> _].
  f_equal. destruct names as [|n names]; [done|].
  cbn [joinTail]. change (pathElements ("/" +:+ ?s)) with ("" :: pathElements s).
  cbn [tail]. by apply IH.
Qed.

Lemma resolve_names (es names : list string) :
  Forall (fun e => isElement e = true) es ->
  foldl resolveStep names es = names ++ es.
Proof.
  revert names. induction es as [|e es IH]; intros names Hes; [by rewrite app_nil_r|].
  apply Forall_cons in Hes as [He Hes]. cbn [foldl]. rewrite IH by done.
  unfold isElement in He. rewrite !andb_true_iff, !negb_true_iff in He.
  destruct He as [[[H1 H2] H3] _]. unfold resolveStep. rewrite H1, H2, H3.
  by rewrite <- app_assoc.
Qed.

Lemma isElement_sepFree (names : list string) :
  Forall (fun e => isElement e = true) names ->
  Forall (fun e => sepFree e = true) names.
Proof.
  intros H. eapply Forall_impl; [exact H|].
  intros e He. by apply isElement_inv in He as (_ & _ & _ & ?).
Qed.

(** The names of the path of some names are these names. *)
Lemma namesOf_rootedPath (names : list string) :
  Forall (fun e => isElement e = true) names -> namesOf (rootedPath names) = names.
Proof.
  intros Hnames. unfold namesOf, rootedPath.
  change (pathElements ("/" +:+ ?s)) with ("" :: pathElements s). cbn [foldl].
  rewrite resolveStep_empty. destruct names as [|n names]; [done|].
  rewrite pathElements_Join; [|done|by apply isElement_sepFree].
  by rewrite resolve_names.
Qed.

Lemma rootedPath_inj (names1 names2 : list string) :
  Forall (fun e => isElement e = true) names1 ->
  Forall (fun e => isElement e = true) names2 ->
  rootedPath names1 = rootedPath names2 -> names1 = names2.
Proof.
  intros H1 H2 Heq. rewrite <- (namesOf_rootedPath names1 H1), Heq.
  by apply namesOf_rootedPath.
Qed.

End CleanAbsolute.

Section RelAbsolute.
Import GoStrings Filepath.

Lemma scanElem_end (fuel : nat) (s : string) (l : nat) : scanElem fuel s l l = l.
Proof. destruct fuel; [done|]. cbn [scanElem]. by rewrite Nat.ltb_irrefl. Qed.

Lemma joinTail_sepIf (names : list string) :
  joinTail names = sepIf names +:+ GoStrings.Join names "/".
Proof. by destruct names. Qed.

Lemma next_position (before e : string) (names : list string) :
  (if String.length before + String.length e
      <? String.length (before +:+ e +:+ joinTail names)
   then String.length before + String.length e + 1
   else String.length before + String.length e)
  = String.length (before +:+ e +:+ sepIf names).
Proof.
  rewrite !length_append. destruct names as [|n names]; cbn [joinTail sepIf String.length].
  - rewrite Nat.add_0_r, Nat.ltb_irrefl. lia.
  - rewrite length_append. cbn [String.length].
    replace (_ <? _) with true by (symmetry; apply Nat.ltb_lt; lia). lia.
Qed.

Lemma next_path (before e : string) (names : list string) :
  before +:+ e +:+ joinTail names
  = (before +:+ e +:+ sepIf names) +:+ GoStrings.Join names "/".
Proof. by rewrite joinTail_sepIf, !append_assoc. Qed.

Lemma eqb_neq_empty (e : string) : isElement e = true -> String.eqb e "" = false.
Proof. unfold isElement. rewrite !andb_true_iff, !negb_true_iff. tauto. Qed.

(** The loop of [Rel] over two paths that continue with names: it stops
    after the names of the base when they all are the first names of the
    target, and at the first name of the base that is not, otherwise. *)
Lemma relLoop_names (dnames : list string) :
  forall (fnames : list string) (fuel : nat) (before after : string),
    Forall (fun e => isElement e = true) dnames ->
    Forall (fun e => isElement e = true) fnames ->
    length dnames < fuel ->
    exists b0 bi t0 ti,
      relLoop fuel (before +:+ GoStrings.Join dnames "/")
              (after +:+ GoStrings.Join fnames "/")
              (String.length (before +:+ GoStrings.Join dnames "/"))
              (String.length (after +:+ GoStrings.Join fnames "/"))
              (String.length before) (String.length before)
              (String.length after) (String.length after)
      = (b0, bi, t0, ti)
      /\ ((exists k,
              fnames = dnames ++ k
              /\ b0 = String.length (before +:+ GoStrings.Join dnames "/")
              /\ slice (before +:+ GoStrings.Join dnames "/") b0 bi = ""
              /\ slice (after +:+ GoStrings.Join fnames "/") t0
                       (String.length (after +:+ GoStrings.Join fnames "/"))
                 = GoStrings.Join k "/")
          \/ (~ dnames `prefix_of` fnames
              /\ b0 <> String.length (before +:+ GoStrings.Join dnames "/")
              /\ slice (before +:+ GoStrings.Join dnames "/") b0 bi <> "..")).
Proof.
  induction dnames as [|d1 dr IH]; intros fnames fuel before after Hd Hf Hfuel.
  - destruct fuel as [|fuel]; [lia|]. cbn [relLoop]. cbv zeta.
    change (GoStrings.Join [] "/") with "". rewrite (append_nil_r before).
    rewrite Nat.ltb_irrefl, orb_false_l.
    destruct fnames as [|f1 fr].
    + change (GoStrings.Join [] "/") with "". rewrite (append_nil_r after).
      rewrite Nat.ltb_irrefl. do 4 eexists. split; [done|]. left. exists [].
      split; [done|]. split; [done|]. by rewrite !slice_empty.
    + apply Forall_cons in Hf as [Hf1 Hfr].
      pose proof (isElement_inv f1 Hf1) as (Hne & _ & _ & Hfree).
      rewrite Join_cons.
      replace (String.length after <? String.length (after +:+ f1 +:+ joinTail fr))
        with true
        by (symmetry; apply Nat.ltb_lt; rewrite !length_append; destruct f1; [done|cbn; lia]).
      rewrite scanElem_end.
      rewrite (scanElem_elem f1); [|done|apply joinTail_Boundary|rewrite !length_append; lia].
      rewrite slice_app_mid, slice_empty, (eqb_neq_empty f1 Hf1). cbn [negb].
      do 4 eexists. split; [done|]. left. exists (f1 :: fr).
      split; [done|]. split; [done|]. split; [apply slice_empty|].
      by rewrite slice_suffix, Join_cons.
  - apply Forall_cons in Hd as [Hd1 Hdr].
    pose proof (isElement_inv d1 Hd1) as (Hdne & _ & Hdpar & Hdfree).
    destruct fuel as [|fuel]; [lia|]. cbn [relLoop]. cbv zeta.
    rewrite (Join_cons d1).
    replace (String.length before <? String.length (before +:+ d1 +:+ joinTail dr))
      with true
      by (symmetry; apply Nat.ltb_lt; rewrite !length_append; destruct d1; [done|cbn; lia]).
    rewrite orb_true_l.
    rewrite (scanElem_elem d1); [|done|apply joinTail_Boundary|rewrite !length_append; lia].
    rewrite (slice_app_mid before d1).
    assert (String.length before
            <> String.length (before +:+ d1 +:+ joinTail dr)) as Hleft.
    { rewrite !length_append. destruct d1; [done|cbn; lia]. }
    destruct fnames as [|f1 fr].
    + change (GoStrings.Join [] "/") with "". rewrite (append_nil_r after).
      rewrite scanElem_end, slice_empty.
      assert (String.eqb "" d1 = false) as -> by (by destruct d1).
      cbn [negb]. do 4 eexists. split; [done|]. right.
      split; [|split; [done|by rewrite slice_app_mid]].
      intros [k Hk]. discriminate.
    + apply Forall_cons in Hf as [Hf1 Hfr].
      pose proof (isElement_inv f1 Hf1) as (Hfne & _ & _ & Hffree).
      rewrite (Join_cons f1).
      rewrite (scanElem_elem f1); [|done|apply joinTail_Boundary|rewrite !length_append; lia].
      rewrite (slice_app_mid after f1).
      destruct (String.eqb f1 d1) eqn:Heq; cbn [negb].
      * apply String.eqb_eq in Heq as ->.
        rewrite !next_position, (next_path before), (next_path after).
        destruct (IH fr fuel (before +:+ d1 +:+ sepIf dr) (after +:+ d1 +:+ sepIf fr))
          as (b0 & bi & t0 & ti & -> & Hcase); [done|done|cbn in Hfuel; lia|].
        exists b0, bi, t0, ti. split; [done|].
        destruct Hcase as [(k & -> & Hb0 & Hbase & Htarg)|(Hnot & Hb0 & Hbase)].
        -- left. exists k. done.
        -- right. split; [|done]. intros [k Hk]. apply Hnot. exists k.
           by injection Hk.
      * do 4 eexists. split; [done|]. right.
        split; [|split; [done|by rewrite slice_app_mid]].
        intros [k Hk]. injection Hk as -> _. by rewrite String.eqb_refl in Heq.
Qed.

Lemma Join_length (names : list string) :
  Forall (fun e => isElement e = true) names ->
  length names <= String.length (GoStrings.Join names "/").
Proof.
  induction names as [|n names IH]; [done|]. intros [Hn Hnames]%Forall_cons.
  apply isElement_inv in Hn as (Hne & _). rewrite Join_cons, joinTail_sepIf, !length_append.
  specialize (IH Hnames). destruct n; [done|]. cbn. lia.
Qed.

(** A name followed by a boundary is no step to the parent directory. *)
Lemma name_not_parent (e rest : string) :
  isElement e = true -> Boundary rest ->
  HasPrefix (e +:+ rest) "../" = false /\ e +:+ rest <> "..".
Proof.
  intros (Hne & Hdot & Hpar & Hfree)%isElement_inv Hrest.
  destruct e as [|a [|b [|c e]]]; [done| | |].
  - rewrite append_cons. change ("" +:+ rest) with rest. split.
    + rewrite HasPrefix_cons. destruct Hrest as [->|[t ->]]; [by rewrite andb_false_r|].
      rewrite HasPrefix_cons. by rewrite andb_false_r.
    + intros [= -> ->]. by destruct Hrest as [?|[t ?]].
  - rewrite !append_cons. change ("" +:+ rest) with rest. split.
    + rewrite !HasPrefix_cons.
      destruct (Ascii.eqb_spec a "."%char) as [->|]; [|done].
      destruct (Ascii.eqb_spec b "."%char) as [->|]; [done|done].
    + intros [= -> -> ->]. done.
  - rewrite !append_cons. split.
    + rewrite !HasPrefix_cons. cbn in Hfree.
      rewrite !andb_true_iff, !negb_true_iff in Hfree.
      destruct Hfree as (_ & _ & Hc & _). unfold IsPathSeparator, Separator in Hc.
      rewrite Hc. by rewrite !andb_false_r.
    + intros [=].
Qed.

Lemma Repeat_Boundary (n : nat) : Boundary (Repeat (ofByte Separator +:+ "..") n).
Proof. destruct n; [by left|]. right. by eexists. Qed.

Lemma Boundary_append (a b : string) : Boundary a -> Boundary b -> Boundary (a +:+ b).
Proof. intros [->|[t ->]] Hb; [done|]. right. rewrite append_cons. by eexists. Qed.

(** [Rel] between two absolute paths: the remaining names when the names of
    the base are the first names of the target, and a path that starts with
    a step to the parent directory otherwise. *)
Lemma Rel_absolute (basepath targpath : string) :
  IsAbs basepath = true -> IsAbs targpath = true ->
  (forall k, namesOf targpath = namesOf basepath ++ k ->
             Rel basepath targpath
             = Some (match k with [] => "." | _ => GoStrings.Join k "/" end))
  /\ (~ namesOf basepath `prefix_of` namesOf targpath ->
      exists rest, Rel basepath targpath = Some (".." +:+ rest) /\ Boundary rest).
Proof.
  intros Hbase Htarg. unfold Rel.
  rewrite (Clean_absolute basepath Hbase), (Clean_absolute targpath Htarg).
  pose proof (namesOf_valid basepath) as Hd. pose proof (namesOf_valid targpath) as Hf.
  set (dn := namesOf basepath) in *. set (fn := namesOf targpath) in *.
  cbv zeta.
  destruct (String.eqb (rootedPath fn) (rootedPath dn)) eqn:Hsame.
  { apply String.eqb_eq, rootedPath_inj in Hsame; [|done|done]. split.
    - intros k Hk. rewrite Hsame in Hk.
      assert (k = []) as ->; [|done].
      apply (f_equal length) in Hk. rewrite length_app in Hk.
      destruct k; [done|cbn in Hk; lia].
    - intros Hnot. exfalso. apply Hnot. exists []. by rewrite app_nil_r. }
  assert (String.eqb (rootedPath dn) "." = false) as -> by done.
  assert ((0 <? String.length (rootedPath dn))
          && IsPathSeparator (byteAt (rootedPath dn) 0) = true) as -> by done.
  assert ((0 <? String.length (rootedPath fn))
          && IsPathSeparator (byteAt (rootedPath fn) 0) = true) as -> by done.
  cbn [Bool.eqb negb].
  (* the first turn passes the leading separators *)
  cbn [relLoop]. cbv zeta.
  assert ((0 <? String.length (rootedPath dn)) = true) as -> by done.
  rewrite orb_true_l.
  assert (scanElem (String.length (rootedPath dn)) (rootedPath dn)
                   (String.length (rootedPath dn)) 0 = 0) as -> by done.
  assert (scanElem (String.length (rootedPath fn)) (rootedPath fn)
                   (String.length (rootedPath fn)) 0 = 0) as -> by done.
  rewrite !slice_empty. cbn [String.eqb negb].
  assert ((0 <? String.length (rootedPath dn)) = true) as -> by done.
  assert ((0 <? String.length (rootedPath fn)) = true) as -> by done.
  cbn [Nat.add]. unfold rootedPath.
  destruct (relLoop_names dn fn
              (String.length ("/" +:+ GoStrings.Join dn "/")
               + String.length ("/" +:+ GoStrings.Join fn "/")) "/" "/" Hd Hf)
    as (b0 & bi & t0 & ti & Hloop & Hcase).
  { pose proof (Join_length dn Hd). rewrite !length_append. cbn. lia. }
  change (String.length "/") with 1 in Hloop. rewrite Hloop.
  destruct Hcase as [(k & Hk & -> & Hslice & Hrel)|(Hnot & Hb0 & Hslice)].
  - rewrite Hslice. cbn [String.eqb]. rewrite Nat.eqb_refl. cbn [negb].
    rewrite Hrel. split.
    + intros k' Hk'. rewrite Hk in Hk'. apply app_inv_head in Hk' as <-.
      destruct k as [|k1 k]; [|done]. exfalso.
      rewrite app_nil_r in Hk. rewrite Hk in Hsame. by rewrite String.eqb_refl in Hsame.
    + intros Hnot. exfalso. apply Hnot. by exists k.
  - apply String.eqb_neq in Hslice. rewrite Hslice.
    apply Nat.eqb_neq in Hb0. rewrite Hb0. cbn [negb]. split.
    + intros k Hk. exfalso. apply Hnot. by exists k.
    + intros _.
      set (up := Repeat (ofByte Separator +:+ "..") _).
      pose proof (Repeat_Boundary
                    (CountByte (slice ("/" +:+ GoStrings.Join dn "/") b0
                                      (String.length ("/" +:+ GoStrings.Join dn "/")))
                               Separator)) as Hup.
      fold up in Hup.
      destruct (negb (t0 =? _)).
      * eexists. rewrite append_assoc. split; [done|].
        apply Boundary_append; [done|]. right. by eexists.
      * by exists up.
Qed.

End RelAbsolute.

Section UnderAbsolute.
Import GoStrings Filepath.

Lemma isInDirectory_absolute (filePath dirPath : string) :
  IsAbs filePath = true -> IsAbs dirPath = true ->
  isInDirectory filePath dirPath = true
  <-> namesOf dirPath `prefix_of` namesOf filePath.
Proof.
  intros Hf Hd. destruct (Rel_absolute dirPath filePath Hd Hf) as [Hunder Hnot].
  unfold isInDirectory. change (".." +:+ ofByte Separator) with "../".
  destruct (decide (namesOf dirPath `prefix_of` namesOf filePath)) as [[k Hk]|Hno].
  - split; [by exists k|]. intros _. rewrite (Hunder k Hk).
    destruct k as [|k1 k]; [done|].
    pose proof (namesOf_valid filePath) as Hvalid. rewrite Hk in Hvalid.
    apply Forall_app in Hvalid as [_ [Hk1 _]%Forall_cons].
    rewrite Join_cons.
    destruct (name_not_parent k1 (joinTail k) Hk1 (joinTail_Boundary k)) as [-> Hne].
    apply String.eqb_neq in Hne. by rewrite Hne.
  - split; [|done]. destruct (Hnot Hno) as (rest & -> & Hrest).
    destruct Hrest as [->|[t ->]]; [done|].
    change (".." +:+ String "/" t) with ("../" +:+ t).
    assert (HasPrefix ("../" +:+ t) "../" = true) as ->; [|done].
    apply HasPrefix_iff. by exists t.
Qed.

End UnderAbsolute.

(** C7.  [isInDirectory filePath dirPath] answers [true] exactly when the two
    paths are equal or [filepath.Rel] finds a relative path from [dirPath] to
    [filePath] that neither starts with "../" nor is "..".  For absolute
    paths that relative path is pinned down name by name: [Clean] turns each
    path into the path of the names it denotes; when the names of [dirPath]
    are the first names of [filePath], [Rel] answers the remaining names
    joined by the separator ("." when none remains), and otherwise a path
    that starts with a step to the parent directory.  So [filePath] is under
    [dirPath] exactly when the names of [dirPath] are an initial segment of
    the names of [filePath]: a directory is under itself, a sibling file is
    not under it, a nested descendant is, and a directory whose name merely
    starts with the name of [dirPath] is not. *)
Theorem isInDirectory_iff_rel_not_parent :
  (forall filePath dirPath : string,
      isInDirectory filePath dirPath = true
      <-> filePath = dirPath
          \/ exists rel, Filepath.Rel dirPath filePath = Some rel
                         /\ GoStrings.HasPrefix rel "../" = false
                         /\ rel ≠ "..")
  /\ (forall filePath dirPath : string,
        Filepath.IsAbs filePath = true -> Filepath.IsAbs dirPath = true ->
        Filepath.Clean filePath = rootedPath (namesOf filePath)
        /\ Filepath.Clean dirPath = rootedPath (namesOf dirPath)
        /\ Forall (fun e => isElement e = true) (namesOf filePath)
        /\ Forall (fun e => isElement e = true) (namesOf dirPath)
        /\ (forall k, namesOf filePath = namesOf dirPath ++ k ->
                      Filepath.Rel dirPath filePath
                      = Some (match k with
                              | [] => "."
                              | _ => GoStrings.Join k "/"
                              end))
        /\ (~ namesOf dirPath `prefix_of` namesOf filePath ->
            exists rest,
              Filepath.Rel dirPath filePath = Some (".." +:+ rest) /\ Boundary rest)
        /\ (isInDirectory filePath dirPath = true
            <-> namesOf dirPath `prefix_of` namesOf filePath))
  /\ (forall fileNames dirNames : list string,
        Forall (fun e => isElement e = true) fileNames ->
        Forall (fun e => isElement e = true) dirNames ->
        namesOf (rootedPath fileNames) = fileNames
        /\ (isInDirectory (rootedPath fileNames) (rootedPath dirNames) = true
            <-> dirNames `prefix_of` fileNames))
  /\ isInDirectory "/a/b/c" "/a/b/c" = true
  /\ isInDirectory "/a/b/file.tf" "/a/b/c" = false
  /\ isInDirectory "/a/b/c/d/file.tf" "/a/b/c" = true
  /\ isInDirectory "/a/b/cd" "/a/b/c" = false
  /\ isInDirectory "/a/b/c/../cd/file.tf" "/a/b/c" = false
  /\ isInDirectory "/a/b/x/../c/file.tf" "/a/./b//c/" = true.
Proof.
  split; [|split; [|split; [|by vm_compute]]].
  - intros filePath dirPath. unfold isInDirectory. split.
    + destruct (Filepath.Rel dirPath filePath) as [rel|] eqn:Hrel; [|discriminate].
      rewrite andb_true_iff, !negb_true_iff. intros [Hpre Hne].
      right. exists rel. split; [done|]. split; [exact Hpre|].
      by apply String.eqb_neq.
    + intros [->|(rel & -> & Hpre & Hne)].
      * by rewrite Rel_self.
      * apply andb_true_iff. rewrite !negb_true_iff. split; [exact Hpre|].
        by apply String.eqb_neq.
  - intros filePath dirPath Hf Hd.
    destruct (Rel_absolute dirPath filePath Hd Hf) as [Hunder Hnot].
    split; [by apply Clean_absolute|]. split; [by apply Clean_absolute|].
    split; [apply namesOf_valid|]. split; [apply namesOf_valid|].
    split; [exact Hunder|]. split; [exact Hnot|].
    by apply isInDirectory_absolute.
  - intros fileNames dirNames Hfn Hdn.
    split; [by apply namesOf_rootedPath|].
    assert (forall names, Filepath.IsAbs (rootedPath names) = true) as Habs.
    { intros names. unfold rootedPath.
      change ("/" +:+ ?s) with (String "/" s). by rewrite IsAbs_cons. }
    rewrite isInDirectory_absolute by apply Habs.
    by rewrite !namesOf_rootedPath.
Qed.

(** On [/a/./b//c/] and [/a/b/x/../c/file.tf] the names are [a, b, c] and
    [a, b, c, file.tf], and the relative path is the remaining name; from
    [/a/b/c] to [/a/b/cd] the relative path starts with a step to the parent,
    and [/a/b/cd] is not under [/a/b/c]. *)
Lemma isInDirectory_iff_rel_not_parent_witness :
  namesOf "/a/./b//c/" = ["a"; "b"; "c"]
  /\ namesOf "/a/b/x/../c/file.tf" = ["a"; "b"; "c"; "file.tf"]
  /\ Filepath.Rel "/a/./b//c/" "/a/b/x/../c/file.tf" = Some "file.tf"
  /\ isInDirectory "/a/b/x/../c/file.tf" "/a/./b//c/" = true
  /\ (exists rest, Filepath.Rel "/a/b/c" "/a/b/cd" = Some (".." +:+ rest) /\ Boundary rest)
  /\ isInDirectory (rootedPath ["a"; "b"; "cd"]) (rootedPath ["a"; "b"; "c"]) <> true.
Proof.
  destruct isInDirectory_iff_rel_not_parent as (_ & Habs & Hnames & _).
  split; [reflexivity|]. split; [reflexivity|].
  destruct (Habs "/a/b/x/../c/file.tf" "/a/./b//c/" eq_refl eq_refl)
    as (_ & _ & _ & _ & Hrel & _ & Hunder).
  split; [exact (Hrel ["file.tf"] eq_refl)|].
  split; [apply Hunder; by exists ["file.tf"]|].
  destruct (Habs "/a/b/cd" "/a/b/c" eq_refl eq_refl) as (_ & _ & _ & _ & _ & Hnot & _).
  split.
  - apply Hnot. intros [k Hk]. vm_compute in Hk. by simplify_eq/=.
  - destruct (Hnames ["a"; "b"; "cd"] ["a"; "b"; "c"]) as [_ Hiff].
    + repeat constructor.
    + repeat constructor.
    + intros [k Hk]%Hiff. by simplify_eq/=.
Defined.

(** ** Every call of every loaded directory is dealt with *)

Section Settles.
Variable rng : RangeOrder.
Variable env : Env.

Lemma Grows_refl (st : State) : Grows st st.
Proof. by repeat split. Qed.

Lemma Grows_trans (st1 st2 st3 : State) : Grows st1 st2 -> Grows st2 st3 -> Grows st1 st3.
Proof. intros (?&?&?&?) (?&?&?&?). repeat split; eauto. Qed.

Lemma Grows_settle (dir : string) (r : option error) (st : State) :
  Grows st (settle dir r st).
Proof.
  destruct r; [|apply Grows_refl]. repeat split; try done.
  intros w Hw. cbn. apply elem_of_app. by left.
Qed.

Lemma CallDone_grows (st st' : State) (d : string) (entry : string * tfconfig.ModuleCall) :
  Grows st st' -> CallDone env st d entry -> CallDone env st' d entry.
Proof.
  intros (Hl & Hm & Hr & Hw). unfold CallDone.
  destruct (isLocalPath _).
  - destruct (listTerraformFiles _ _); [|by auto].
    intros [Hrec Hdir]. split; [by auto|].
    destruct (Filepath.Abs _ _); by auto.
  - intros (r & Hin & Hrest). exists r. split; [by auto|done].
Qed.

Lemma FailureWarned_grows (st st' : State) (d : string) :
  Grows st st' -> FailureWarned env st d -> FailureWarned env st' d.
Proof. intros (_ & _ & _ & Hw) (p & Hp & Hin). exists p. split; [done|by auto]. Qed.

Lemma DirSettled_grows (st st' : State) (d : string) :
  Grows st st' -> DirSettled rng env st d -> DirSettled rng env st' d.
Proof.
  intros Hg. unfold DirSettled. destruct (tfconfig.HasErrors (LoadModule env d).2).
  - by apply FailureWarned_grows.
  - intros H entry He. by eapply CallDone_grows; [|apply H].
Qed.

(** The state grows along a traversal step. *)
Lemma analyzeRecursive_grows (fuel : nat) :
  forall (dir calledFrom : string) (st st' : State) (r : option error),
    analyzeRecursive fuel rng env dir calledFrom st = Some (r, st') -> Grows st st'.
Proof.
  induction fuel as [|fuel IH]; intros dir calledFrom st st' r Hrun; [discriminate|].
  cbn [analyzeRecursive] in Hrun.
  destruct (Filepath.Abs (Getwd env) dir) as [absDir|];
    [|injection Hrun as <- <-; apply Grows_refl].
  destruct (decide (absDir ∈ visited st)); [injection Hrun as <- <-; apply Grows_refl|].
  destruct (LoadModule env absDir) as [module diags].
  assert (Grows st (logLoad absDir (markVisited absDir st))) as Hstart.
  { repeat split; try done. intros d Hd. cbn. apply elem_of_app. by left. }
  destruct (tfconfig.HasErrors diags); [by injection Hrun as <- <-|].
  destruct (rangeCalls _ _ _) as [st2|] eqn:Hloop; [|discriminate].
  injection Hrun as <- <-.
  eapply (rangeCalls_invariant (fun s => Grows st s)); [|exact Hstart|exact Hloop].
  intros s [name call] s' _ Hs Hturn.
  apply (Grows_trans _ s); [done|].
  apply processCall_cases in Hturn
    as [[_ [m ->]]|[[_ (err & _ & ->)]|[_ (files & r' & s2 & _ & Hrec & ->)]]].
  - repeat split; try done. intros x Hx. cbn. apply elem_of_app. by left.
  - repeat split; try done. intros x Hx. cbn. apply elem_of_app. by left.
  - apply IH in Hrec.
    apply (Grows_trans _ (appendLocal {| Name := name; Source := tfconfig.Source call;
                                         ResolvedPath := resolveCall env absDir call;
                                         Files := files |} s)).
    + repeat split; try done. intros x Hx. cbn. apply elem_of_app. by left.
    + apply (Grows_trans _ s2); [done|]. apply (Grows_settle _ r').
Qed.

(** The loop, turn by turn: what each turn establishes for its call stays. *)
Lemma rangeCalls_each (Inv : State -> Prop)
      (Done : State -> string * tfconfig.ModuleCall -> Prop)
      (body : State -> string * tfconfig.ModuleCall -> option State)
      (calls : list (string * tfconfig.ModuleCall)) (st st' : State) :
  (forall s e s', e ∈ calls -> Inv s -> body s e = Some s' -> Inv s' /\ Done s' e) ->
  (forall s e s' e', e' ∈ calls -> Inv s -> body s e' = Some s' -> Done s e -> Done s' e) ->
  Inv st -> rangeCalls body calls st = Some st' ->
  Inv st' /\ forall e, e ∈ calls -> Done st' e.
Proof.
  intros Hstep Hkeep.
  assert (forall done todo s,
             (forall e, e ∈ todo -> e ∈ calls) ->
             Inv s -> (forall e, e ∈ done -> Done s e) ->
             rangeCalls body todo s = Some st' ->
             Inv st' /\ forall e, e ∈ done ++ todo -> Done st' e) as Hgen.
  { intros done todo. revert done.
    induction todo as [|e todo IH]; intros done s Hsub Hinv Hdone Hrun; cbn in Hrun.
    - injection Hrun as <-. rewrite app_nil_r. done.
    - destruct (body s e) as [s1|] eqn:Hbody; [|discriminate].
      destruct (Hstep s e s1) as [Hinv1 Hdone1]; [apply Hsub; left|done|done|].
      destruct (IH (done ++ [e]) s1) as [Hinv' Hall]; [| | |done|].
      + intros e' He'. apply Hsub. by right.
      + done.
      + intros e' [He'| ->%list_elem_of_singleton]%elem_of_app; [|done].
        apply (Hkeep s e' s1 e); [apply Hsub; left|done|done|by apply Hdone].
      + split; [done|]. intros e' He'. apply Hall. by rewrite <- app_assoc. }
  intros Hinv Hrun.
  apply (Hgen [] calls st); [done|done|by intros e ?%elem_of_nil|done].
Qed.

(** A traversal step leaves every directory it loads settled, once its
    caller has written the warning for the error it returns. *)
Lemma analyzeRecursive_settles (fuel : nat) :
  forall (dir calledFrom : string) (st st' : State) (r : option error)
         (pending : gset string),
    analyzeRecursive fuel rng env dir calledFrom st = Some (r, st') ->
    Consistent st -> Settled rng env pending st ->
    Settled rng env pending (settle dir r st')
    /\ match Filepath.Abs (Getwd env) dir with
       | Some d => d ∈ loaded st'
       | None => r = Some ErrGetwd
       end.
Proof.
  induction fuel as [|fuel IH]; intros dir calledFrom st st' r pending Hrun Hcons Hset;
    [discriminate|].
  cbn [analyzeRecursive] in Hrun.
  destruct (Filepath.Abs (Getwd env) dir) as [absDir|] eqn:Habs.
  2:{ injection Hrun as <- <-. split; [|done].
      intros d Hd Hpend.
      eapply DirSettled_grows; [apply (Grows_settle dir (Some ErrGetwd))|].
      by apply Hset. }
  destruct (decide (absDir ∈ visited st)) as [Hin|Hfresh].
  { injection Hrun as <- <-. split; [done|]. by apply Hcons. }
  destruct (LoadModule env absDir) as [module diags] eqn:Hload.
  set (st1 := logLoad absDir (markVisited absDir st)) in *.
  assert (Grows st st1) as Hstart.
  { repeat split; try done. intros d Hd. cbn. apply elem_of_app. by left. }
  assert (absDir ∈ loaded st1) as Hloaded by (cbn; apply elem_of_app; right; left).
  destruct (tfconfig.HasErrors diags) eqn:Herrors.
  { injection Hrun as <- <-. split; [|done].
    intros d Hd Hpend. apply elem_of_app in Hd as [Hd| ->%list_elem_of_singleton].
    - eapply DirSettled_grows; [|by apply Hset].
      eapply Grows_trans; [exact Hstart|apply Grows_settle].
    - unfold DirSettled, FailureWarned. rewrite Hload. cbn [snd]. rewrite Herrors.
      exists dir. split; [done|]. cbn. apply elem_of_app. right. left. }
  destruct (rangeCalls _ _ _) as [st2|] eqn:Hloop; [|discriminate].
  injection Hrun as <- <-. cbn [settle].
  assert (Settled rng env ({[absDir]} ∪ pending) st1) as Hset1.
  { intros d Hd Hpend. apply elem_of_app in Hd as [Hd| ->%list_elem_of_singleton];
      [|set_solver].
    eapply DirSettled_grows; [exact Hstart|]. apply Hset; [done|set_solver]. }
  pose proof (Consistent_load absDir st Hcons Hfresh) as Hcons1. fold st1 in Hcons1.
  assert (Hturns :
            (Consistent st2 /\ Settled rng env ({[absDir]} ∪ pending) st2 /\ Grows st1 st2)
            /\ forall e, e ∈ rng absDir (tfconfig.ModuleCalls module) ->
                         CallDone env st2 absDir e).
  { eapply (rangeCalls_each
              (fun s => Consistent s /\ Settled rng env ({[absDir]} ∪ pending) s
                        /\ Grows st1 s)
              (fun s e => CallDone env s absDir e));
      [| |split; [exact Hcons1|split; [exact Hset1|apply Grows_refl]]|exact Hloop].
    - (* one turn *)
      intros s [name call] s' _ (Hcs & Hss & Hgs) Hturn.
      apply processCall_cases in Hturn as Hcases.
      destruct Hcases
        as [[Hremote _]|[[Hlocal (err & Hls & ->)]|[Hlocal (files & r' & s2 & Hls & Hrec & ->)]]].
      + rewrite (processCall_remote env _ _ _ _ (name, call) Hremote) in Hturn.
        injection Hturn as <-.
        split; [split; [done|split]|].
        * intros d Hd Hpend. eapply DirSettled_grows; [|by apply Hss].
          repeat split; try done. intros x Hx. cbn. apply elem_of_app. by left.
        * eapply Grows_trans; [exact Hgs|].
          repeat split; try done. intros x Hx. cbn. apply elem_of_app. by left.
        * unfold CallDone. cbn [fst snd]. rewrite Hremote.
          exists (remoteReference calledFrom (name, call)). split; [|done].
          cbn. apply elem_of_app. right. left.
      + split; [split; [done|split]|].
        * intros d Hd Hpend. eapply DirSettled_grows; [|by apply Hss].
          repeat split; try done. intros x Hx. cbn. apply elem_of_app. by left.
        * eapply Grows_trans; [exact Hgs|].
          repeat split; try done. intros x Hx. cbn. apply elem_of_app. by left.
        * unfold CallDone. cbn [fst snd]. rewrite Hlocal, Hls.
          cbn. apply elem_of_app. right. left.
      + set (rec := {| Name := name; Source := tfconfig.Source call;
                       ResolvedPath := resolveCall env absDir call; Files := files |}) in *.
        assert (Grows s (appendLocal rec s)) as Hg1.
        { repeat split; try done. intros x Hx. cbn. apply elem_of_app. by left. }
        pose proof (analyzeRecursive_grows _ _ _ _ _ _ Hrec) as Hg2.
        pose proof (Grows_settle (resolveCall env absDir call) r' s2) as Hg3.
        destruct (IH _ _ _ _ _ ({[absDir]} ∪ pending) Hrec) as [Hset' Htarget].
        { done. }
        { intros d Hd Hpend. eapply DirSettled_grows; [exact Hg1|by apply Hss]. }
        pose proof (analyzeRecursive_consistent rng env _ _ _ _ _ _ Hrec Hcs) as [Hcs2 _].
        split; [split; [by destruct r'|split; [exact Hset'|]]|].
        * eapply Grows_trans; [exact Hgs|]. eapply Grows_trans; [exact Hg1|].
          eapply Grows_trans; [exact Hg2|exact Hg3].
        * unfold CallDone. cbn [fst snd]. rewrite Hlocal, Hls. split.
          -- apply Hg3, Hg2. cbn. apply elem_of_app. right. left.
          -- destruct (Filepath.Abs (Getwd env) (resolveCall env absDir call)).
             ++ by apply Hg3.
             ++ subst r'. cbn. apply elem_of_app. right. left.
    - (* what a turn did stays *)
      intros s e s' [name call] _ (Hcs & Hss & Hgs) Hturn. apply CallDone_grows.
      apply processCall_cases in Hturn
        as [[Hremote [m ->]]|[[Hlocal (err & Hls & ->)]|[Hlocal (files & r' & s2 & Hls & Hrec & ->)]]].
      + repeat split; try done. intros x Hx. cbn. apply elem_of_app. by left.
      + repeat split; try done. intros x Hx. cbn. apply elem_of_app. by left.
      + eapply Grows_trans; [|apply Grows_settle].
        eapply Grows_trans; [|exact (analyzeRecursive_grows _ _ _ _ _ _ Hrec)].
        repeat split; try done. intros x Hx. cbn. apply elem_of_app. by left. }
  destruct Hturns as [(Hcons2 & Hset2 & Hgrow2) Hdone].
  split; [|by apply Hgrow2].
  intros d Hd Hpend. destruct (decide (d = absDir)) as [->|Hne].
  - unfold DirSettled. rewrite Hload. cbn [fst snd]. rewrite Herrors. exact Hdone.
  - apply Hset2; [done|set_solver].
Qed.

End Settles.

(** ** The order of first visits *)

Section Visits.
Variable rng : RangeOrder.
Variable env : Env.





End Visits.

(** ** What does not depend on the enumeration *)

Section AnyOrder.
Variable rng : RangeOrder.
Variable env : Env.
Hypothesis rng_valid : RangeValid rng.




End AnyOrder.

Section Permutations.



End Permutations.

Section RemoteCalls.
Variable rng : RangeOrder.
Variable env : Env.




End RemoteCalls.

Section OrderFree.
Variable env : Env.






End OrderFree.

Lemma RangeValid_descendingOrder : RangeValid descendingOrder.
Proof. intros absDir calls. apply merge_sort_Permutation. Qed.

Section WholeRun.
Variable rng : RangeOrder.
Variable env : Env.

(** A run whose root lists and parses succeeds and leaves every loaded
    directory settled. *)
Lemma AnalyzeIO_settled (dir absDir visitedDir : string) (rootFiles : list string) :
  Filepath.Abs (Getwd env) dir = Some absDir ->
  listTerraformFiles env absDir = Ok rootFiles ->
  Filepath.Abs (Getwd env) absDir = Some visitedDir ->
  tfconfig.HasErrors (LoadModule env visitedDir).2 = false ->
  exists st,
    AnalyzeIO rng env dir
    = Some (Ok {| RootModule := {| Name := ""; Source := ""; ResolvedPath := absDir;
                                   Files := rootFiles |};
                  LocalModules := localModules st;
                  RemoteModules := remoteModules st |}, st)
    /\ analyzeRecursive (S (size (ReadDir env))) rng env absDir "" initState
       = Some (None, st)
    /\ visitedDir ∈ loaded st
    /\ Settled rng env ∅ st.
Proof.
  intros Habs Hls Hvisited Herrors.
  destruct (analyzeRecursive_total rng env (S (size (ReadDir env))) absDir "" initState)
    as (r & st & Hrec & _);
    [by eapply listTerraformFiles_Ok_dom | apply initial_bound |].
  assert (r = None) as ->.
  { destruct r as [err|]; [exfalso|done].
    apply analyzeRecursive_error in Hrec
      as [[Hnone _]|(v & Hv & _ & Herr & _)]; [congruence|].
    rewrite Hvisited in Hv. injection Hv as <-. congruence. }
  exists st. split; [unfold AnalyzeIO; by rewrite Habs, Hls, Hrec|]. split; [done|].
  destruct (analyzeRecursive_settles rng env _ _ _ _ _ _ ∅ Hrec Consistent_init)
    as [Hset Hroot].
  { by intros d ?%elem_of_nil. }
  rewrite Hvisited in Hroot. done.
Qed.


End WholeRun.




(** C4.  A traversal step whose own directory does not parse returns the
    error that names that directory, and at the root this error is the result
    of [Analyze].  Below the root it is not: a run whose root is listed and
    parsed without errors succeeds, whatever its submodules do.  In such a
    run every loaded directory that does not parse has its error written as
    a warning by the loop that called it, and every call of every loaded
    directory that parses is dealt with, the calls enumerated after a failing
    one included: a remote call has its reference, a local call whose
    directory cannot be read has its warning, and any other local call has
    its record and its directory among the loaded ones.  At the level of the
    loop, a turn whose recursive call returns an error writes the warning
    and the loop goes on with the remaining calls. *)
Theorem parse_error_fatal_for_own_directory_warning_for_submodule
        (rng : RangeOrder) (env : Env) :
  (forall (fuel : nat) (dir calledFrom absDir : string) (st : State),
      Filepath.Abs (Getwd env) dir = Some absDir ->
      absDir ∉ visited st ->
      tfconfig.HasErrors (LoadModule env absDir).2 = true ->
      analyzeRecursive (S fuel) rng env dir calledFrom st
      = Some (Some (ErrorfLoadModule absDir (LoadModule env absDir).2),
              logLoad absDir (markVisited absDir st)))
  /\ (forall (dir absDir visitedDir : string) (rootFiles : list string),
         Filepath.Abs (Getwd env) dir = Some absDir ->
         listTerraformFiles env absDir = Ok rootFiles ->
         Filepath.Abs (Getwd env) absDir = Some visitedDir ->
         tfconfig.HasErrors (LoadModule env visitedDir).2 = true ->
         Analyze rng env dir
         = Some (Err (ErrorfLoadModule visitedDir (LoadModule env visitedDir).2)))
  /\ (forall (dir absDir visitedDir : string) (rootFiles : list string),
         Filepath.Abs (Getwd env) dir = Some absDir ->
         listTerraformFiles env absDir = Ok rootFiles ->
         Filepath.Abs (Getwd env) absDir = Some visitedDir ->
         tfconfig.HasErrors (LoadModule env visitedDir).2 = false ->
         exists out st,
           AnalyzeIO rng env dir = Some (Ok out, st)
           /\ LocalModules out = localModules st
           /\ RemoteModules out = remoteModules st
           /\ visitedDir ∈ loaded st
           /\ (forall d,
                 d ∈ loaded st ->
                 tfconfig.HasErrors (LoadModule env d).2 = true ->
                 d <> visitedDir /\ FailureWarned env st d)
           /\ (forall d,
                 d ∈ loaded st ->
                 tfconfig.HasErrors (LoadModule env d).2 = false ->
                 forall entry,
                   entry ∈ rng d (tfconfig.ModuleCalls (LoadModule env d).1) ->
                   CallDone env st d entry))
  /\ (forall (recurse : string -> string -> State -> option (option error * State))
             (parent calledFrom name : string) (call : tfconfig.ModuleCall)
             (files : list string) (err : error) (st st2 : State)
             (rest : list (string * tfconfig.ModuleCall)),
         isLocalPath (tfconfig.Source call) = true ->
         listTerraformFiles env (resolveCall env parent call) = Ok files ->
         recurse (resolveCall env parent call) name
                 (appendLocal {| Name := name; Source := tfconfig.Source call;
                                 ResolvedPath := resolveCall env parent call;
                                 Files := files |} st)
         = Some (Some err, st2) ->
         rangeCalls (processCall recurse env parent calledFrom) ((name, call) :: rest) st
         = rangeCalls (processCall recurse env parent calledFrom) rest
                      (warn (WarnFailedAnalyze (resolveCall env parent call) err) st2)).
Proof.
  split; [|split; [|split]].
  - intros fuel dir calledFrom absDir st. apply analyzeRecursive_parse_error.
  - intros dir absDir visitedDir rootFiles Habs Hls Hvisited Herrors.
    unfold Analyze, AnalyzeIO. rewrite Habs, Hls.
    rewrite (analyzeRecursive_parse_error rng env _ _ _ visitedDir) by (done || set_solver).
    done.
  - intros dir absDir visitedDir rootFiles Habs Hls Hvisited Herrors.
    destruct (AnalyzeIO_settled rng env dir absDir visitedDir rootFiles Habs Hls Hvisited Herrors)
      as (st & Hrun & _ & Hroot & Hset).
    eexists _, st. split; [exact Hrun|]. cbn [LocalModules RemoteModules].
    split; [done|]. split; [done|]. split; [done|]. split.
    + intros d Hd Hbad. split; [intros ->; congruence|].
      specialize (Hset d Hd ltac:(set_solver)). unfold DirSettled in Hset.
      by rewrite Hbad in Hset.
    + intros d Hd Hgood. specialize (Hset d Hd ltac:(set_solver)).
      unfold DirSettled in Hset. by rewrite Hgood in Hset.
  - intros recurse parent calledFrom name call files err st st2 rest Hlocal Hls Hrec.
    cbn [rangeCalls]. unfold processCall at 1. by rewrite Hlocal, Hls, Hrec.
Qed.

(** The root [/p/bad] does not parse: [Analyze] fails with the error naming
    it.  The root [/p] parses, and [Analyze] succeeds although its submodule
    [bad], the first to be enumerated, does not: the failure of [bad] is
    written as a warning, and the calls [gone] and [good] enumerated after
    it are dealt with, [gone], which cannot be read, by a warning and [good]
    by its record. *)
Lemma parse_error_fatal_for_own_directory_warning_for_submodule_witness :
  Analyze reverseOrder faultyEnv "/p/bad"
  = Some (Err (ErrorfLoadModule "/p/bad" (LoadModule faultyEnv "/p/bad").2))
  /\ map fst (reverseOrder "/p" (tfconfig.ModuleCalls (LoadModule faultyEnv "/p").1))
     = ["bad"; "gone"; "good"]
  /\ exists out st,
       AnalyzeIO reverseOrder faultyEnv "/p" = Some (Ok out, st)
       /\ "/p/bad" ∈ loaded st
       /\ FailureWarned faultyEnv st "/p/bad"
       /\ {| Name := "good"; Source := "./good"; ResolvedPath := "/p/good";
             Files := ["/p/good/main.tf"; "/p/good/vars.tf.json"] |} ∈ LocalModules out
       /\ "/p/good" ∈ loaded st
       /\ WarnCannotRead "/p/gone" (ErrReadDir "/p/gone") ∈ stderr st.
Proof.
  destruct (parse_error_fatal_for_own_directory_warning_for_submodule
              reverseOrder faultyEnv) as (_ & Hroot & Hrun & _).
  split; [apply (Hroot "/p/bad" "/p/bad" "/p/bad" ["/p/bad/broken.tf"]); by vm_compute|].
  split; [by vm_compute|].
  destruct (Hrun "/p" "/p" "/p" ["/p/main.tf"])
    as (out & st & Hok & Hlocal & _ & Hloaded & Hfail & Hdone);
    [by vm_compute..|].
  assert (Hparsed : tfconfig.HasErrors (LoadModule faultyEnv "/p").2 = false)
    by (by vm_compute).
  assert (Hbad : CallDone faultyEnv st "/p" ("bad", localCall "./bad")).
  { apply (Hdone "/p" Hloaded Hparsed). vm_compute. left. }
  assert (Hgone : CallDone faultyEnv st "/p" ("gone", localCall "./gone")).
  { apply (Hdone "/p" Hloaded Hparsed). vm_compute. right. left. }
  assert (Hgood : CallDone faultyEnv st "/p" ("good", localCall "./good")).
  { apply (Hdone "/p" Hloaded Hparsed). vm_compute. right. right. left. }
  unfold CallDone in Hbad, Hgone, Hgood. cbn [fst snd] in Hbad, Hgone, Hgood.
  assert (isLocalPath "./bad" = true) as Hl1 by (by vm_compute).
  assert (isLocalPath "./gone" = true) as Hl2 by (by vm_compute).
  assert (isLocalPath "./good" = true) as Hl3 by (by vm_compute).
  assert (resolveCall faultyEnv "/p" (localCall "./bad") = "/p/bad") as Hr1
      by (by vm_compute).
  assert (resolveCall faultyEnv "/p" (localCall "./gone") = "/p/gone") as Hr2
      by (by vm_compute).
  assert (resolveCall faultyEnv "/p" (localCall "./good") = "/p/good") as Hr3
      by (by vm_compute).
  assert (listTerraformFiles faultyEnv "/p/bad" = Ok ["/p/bad/broken.tf"]) as Hls1
      by (by vm_compute).
  assert (listTerraformFiles faultyEnv "/p/gone" = Err (ErrReadDir "/p/gone")) as Hls2
      by (by vm_compute).
  assert (listTerraformFiles faultyEnv "/p/good"
          = Ok ["/p/good/main.tf"; "/p/good/vars.tf.json"]) as Hls3 by (by vm_compute).
  assert (Filepath.Abs (Getwd faultyEnv) "/p/bad" = Some "/p/bad") as Ha1
      by (by vm_compute).
  assert (Filepath.Abs (Getwd faultyEnv) "/p/good" = Some "/p/good") as Ha3
      by (by vm_compute).
  change (tfconfig.Source (localCall ?s)) with s in Hbad, Hgone, Hgood.
  rewrite Hl1, Hr1, Hls1, Ha1 in Hbad. rewrite Hl2, Hr2, Hls2 in Hgone.
  rewrite Hl3, Hr3, Hls3, Ha3 in Hgood.
  destruct Hbad as [_ Hbad]. destruct Hgood as [Hrecord Hgood].
  exists out, st. split; [exact Hok|]. split; [exact Hbad|].
  split; [apply Hfail; [exact Hbad|by vm_compute]|].
  split; [rewrite Hlocal; exact Hrecord|]. split; [exact Hgood|exact Hgone].
Defined.
